(** * Butterfly Audio Library: FFT, spectral antialiasing, wavetable oscillator

    A shallow embedding of
      - math/src/optimized_math.h    (isPowerOf2, log2OfPowerOf2, bitReverse)
      - math/src/fft.h               (detail::fft, fft, ifft, FFTCalculator)
      - wave/src/antialiase.h        (antialiase_dft, antialiase)
      - synth/src/wavetable_oscillator.h
                                     (ForwardSearchTableSelector,
                                      WavetableOscillator,
                                      MorpingWavetableOscillator)
    and the properties of these functions.

    Conventions.
      - [int] and [unsigned int] are 32 bits wide; a value is a [Z] and the
        wrap-around of the type is written out with [wrap].
      - [size_t] values are list lengths and list positions: [nat] (the
        code never takes them near 2^64, so no wrap-around is written).
      - A template parameter [std::floating_point T] is an instance of the
        class [Floating] (and [Elementary] where square roots and the
        trigonometric functions are called).  Two instances are given:
        IEEE 754 binary64 (the kernel's primitive floats, what [double] is)
        and the real numbers (exact arithmetic).
      - [assert] is an abort: a function that can fail an assertion returns
        an [option], and [None] is the abort. *)

From Stdlib Require Import ZArith List Bool Lia Permutation.
From Stdlib Require Import Reals Lra Zfloor.
From Stdlib Require Import PrimFloat FloatOps SpecFloat.
From Stdlib Require Uint63 Finite.
From Stdlib Require Import Ring.
Import ListNotations.

Set Implicit Arguments.

(* ================================================================== *)
(** ** The numeric interface *)
(* ================================================================== *)

(** What the code asks of a [std::floating_point T]: the literals and
    arithmetic operators, the two comparisons [<] and [<=] ([a > b] is
    [b < a], [a >= b] is [b <= a]), the conversion from an integer type
    ([static_cast<T>(n)], [T(n)]) and [static_cast<size_t>(std::floor(x))]. *)
Class Floating (T : Type) : Type := {
  fzero : T;
  fone : T;
  fhalf : T;                      (* the literal 0.5 *)
  feps7 : T;                      (* the literal 1.e-7 *)
  fadd : T -> T -> T;
  fsub : T -> T -> T;
  fmul : T -> T -> T;
  fdiv : T -> T -> T;
  fopp : T -> T;
  flt : T -> T -> bool;
  fle : T -> T -> bool;
  of_int : Z -> T;
  floor_size : T -> nat
}.

(** [std::sqrt], [std::cos], [std::sin] and [std::numbers::pi_v<T>]. *)
Class Elementary (T : Type) : Type := {
  fsqrt : T -> T;
  fcos : T -> T;
  fsin : T -> T;
  fpi : T
}.

(** [std::max(a, b)] is [(a < b) ? b : a]; [std::min(a, b)] is
    [(b < a) ? b : a]. *)
Definition fmax {T} `{Floating T} (a b : T) : T := if flt a b then b else a.
Definition fmin {T} `{Floating T} (a b : T) : T := if flt b a then b else a.

(** [std::complex<T>]. *)
Record complex (T : Type) : Type := mkComplex { real : T; imag : T }.
Arguments mkComplex {T} _ _.
Arguments real {T} _.
Arguments imag {T} _.

Section ComplexOps.
Context {T : Type} `{Floating T}.

Definition czero : complex T := mkComplex fzero fzero.          (* complex{} *)
Definition cone : complex T := mkComplex fone fzero.            (* complex(1, 0) *)
Definition of_real (x : T) : complex T := mkComplex x fzero.
Definition cadd (a b : complex T) : complex T :=
  mkComplex (fadd (real a) (real b)) (fadd (imag a) (imag b)).
Definition csub (a b : complex T) : complex T :=
  mkComplex (fsub (real a) (real b)) (fsub (imag a) (imag b)).
Definition cmul (a b : complex T) : complex T :=
  mkComplex (fsub (fmul (real a) (real b)) (fmul (imag a) (imag b)))
            (fadd (fmul (real a) (imag b)) (fmul (imag a) (real b))).
(** [T * complex<T>] *)
Definition cscale (x : T) (a : complex T) : complex T :=
  mkComplex (fmul x (real a)) (fmul x (imag a)).
(** [complex{ tmp.real(), -tmp.imag() }] *)
Definition cconj (a : complex T) : complex T :=
  mkComplex (real a) (fopp (imag a)).
(** [z.imag(v)] *)
Definition set_imag (a : complex T) (v : T) : complex T := mkComplex (real a) v.
(** [std::polar(rho, theta)] *)
Definition polar `{Elementary T} (rho theta : T) : complex T :=
  mkComplex (fmul rho (fcos theta)) (fmul rho (fsin theta)).
End ComplexOps.

(* ================================================================== *)
(** ** Buffers and loops *)
(* ================================================================== *)

(** A buffer reached through a random access iterator is a list; [get] is
    the read [a[i]] and [set] the write [a[i] = v].  Outside the buffer the
    C++ code has no defined behaviour: there [get] yields the default and
    [set] leaves the list alone. *)
Section Buffers.
Context {A : Type}.

Definition get (d : A) (l : list A) (i : nat) : A := nth i l d.

Fixpoint set (i : nat) (v : A) (l : list A) : list A :=
  match l, i with
  | [], _ => []
  | _ :: l', O => v :: l'
  | x :: l', S i' => x :: set i' v l'
  end.
End Buffers.

(** [for (i = start; cond(i); i += step) s = body(i, s)].  The fuel bounds
    the number of iterations: for the condition [i < stop] and a positive
    step, [stop] iterations are always enough. *)
Fixpoint for_loop {S : Type} (fuel : nat) (cond : nat -> bool) (step i : nat)
    (body : nat -> S -> S) (s : S) : S :=
  match fuel with
  | O => s
  | Datatypes.S fuel' =>
      if cond i then for_loop fuel' cond step (i + step) body (body i s)
      else s
  end.

(** The same loop with a body that can abort. *)
Fixpoint for_loop_opt {S : Type} (fuel : nat) (cond : nat -> bool) (step i : nat)
    (body : nat -> S -> option S) (s : S) : option S :=
  match fuel with
  | O => Some s
  | Datatypes.S fuel' =>
      if cond i then
        match body i s with
        | Some s' => for_loop_opt fuel' cond step (i + step) body s'
        | None => None
        end
      else Some s
  end.

(** The loop conditions [i < stop] and [i != stop]. *)
Definition below (stop i : nat) : bool := i <? stop.
Definition differs (stop i : nat) : bool := negb (i =? stop).

(* ================================================================== *)
(** ** optimized_math.h *)
(* ================================================================== *)

Module Bits.
Local Open Scope Z_scope.

(** The two 4-byte integral types [bitReverse] and [log2OfPowerOf2] are
    instantiated with. *)
Inductive int_kind : Set := I32 | U32.

(** Conversion of a mathematical integer to the type: modulo 2^32, into
    [0, 2^32) for [unsigned int] and into [-2^31, 2^31) for [int]. *)
Definition wrap (k : int_kind) (z : Z) : Z :=
  match k with
  | U32 => z mod 2 ^ 32
  | I32 => (z + 2 ^ 31) mod 2 ^ 32 - 2 ^ 31
  end.

(** [!(x & (x - 1)) && x > 0] *)
Definition isPowerOf2 (x : Z) : bool :=
  (Z.land x (x - 1) =? 0) && (0 <? x).

Definition deBruijnBitPosition2 : list Z :=
  [ 0; 1; 28; 2; 29; 14; 24; 3; 30; 22; 20; 15; 25; 17; 4; 8;
    31; 27; 13; 23; 21; 19; 16; 7; 26; 12; 18; 6; 11; 5; 10; 9 ].

(** [deBruijnBitPosition2[(uint32_t)(x * 0x077CB531U) >> 27]], behind the
    assertion [isPowerOf2(x)]. *)
Definition log2OfPowerOf2 (x : Z) : option Z :=
  if isPowerOf2 x then
    Some (nth (Z.to_nat (Z.shiftr (wrap U32 (x * 0x077CB531)) 27))
              deBruijnBitPosition2 0)
  else None.

(** The five swaps of [bitReverse]: halves, bytes, nibbles, pairs, bits.
    Each assignment to [x] converts back to the type [T]. *)
Definition swap16 (k : int_kind) (x : Z) : Z :=
  wrap k (Z.lor (Z.shiftl x 16) (Z.shiftr x 16)).
Definition swap8 (k : int_kind) (x : Z) : Z :=
  wrap k (Z.lor (Z.shiftl (Z.land x 0x00FF00FF) 8)
                (Z.shiftr (Z.land x 0xFF00FF00) 8)).
Definition swap4 (k : int_kind) (x : Z) : Z :=
  wrap k (Z.lor (Z.shiftl (Z.land x 0x0F0F0F0F) 4)
                (Z.shiftr (Z.land x 0xF0F0F0F0) 4)).
Definition swap2 (k : int_kind) (x : Z) : Z :=
  wrap k (Z.lor (Z.shiftl (Z.land x 0x33333333) 2)
                (Z.shiftr (Z.land x 0xCCCCCCCC) 2)).
Definition swap1 (k : int_kind) (x : Z) : Z :=
  wrap k (Z.lor (Z.shiftl (Z.land x 0x55555555) 1)
                (Z.shiftr (Z.land x 0xAAAAAAAA) 1)).

(** The reversal of all 32 bits: the value of [x] before the [return]. *)
Definition reverse32 (k : int_kind) (x : Z) : Z :=
  swap1 k (swap2 k (swap4 k (swap8 k (swap16 k x)))).

(** The expression [bitReverse] returns:
    [(x >> (32 - nb)) & (0xFFFFFFFF >> (32 - nb))] after the swaps. *)
Definition reversed (k : int_kind) (x nb : Z) : Z :=
  Z.land (Z.shiftr (reverse32 k x) (32 - nb)) (Z.shiftr 0xFFFFFFFF (32 - nb)).

(** [bitReverse(x, nb)]: the assertion [nb > 0 && 32 > nb], then the swaps
    and the returned expression, converted to the result type. *)
Definition bitReverse (k : int_kind) (x : Z) (nb : Z) : option Z :=
  if (0 <? nb) && (nb <? 32) then Some (wrap k (reversed k x nb)) else None.
End Bits.

(* ================================================================== *)
(** ** fft.h *)
(* ================================================================== *)

Module FFT.
Import Bits.

(** [enum class FFTDirection { Forward = 1, Backward = -1 }] *)
Inductive FFTDirection : Set := Forward | Backward.

Definition direction_value (dir : FFTDirection) : Z :=
  match dir with Forward => 1%Z | Backward => (-1)%Z end.

Section WithT.
Context {T : Type} `{Floating T} `{Elementary T}.

(** The body of the innermost loop:
    [t = w * out[k + m2]; u = out[k]; out[k] = u + t; out[k + m2] = u - t]. *)
Definition butterfly (m2 : nat) (w : complex T) (k : nat)
    (out : list (complex T)) : list (complex T) :=
  let t := cmul w (get czero out (k + m2)) in
  let u := get czero out k in
  set (k + m2) (csub u t) (set k (cadd u t) out).

(** One pass [s] of the transform over a buffer of [size] elements, with the
    rotation [wm] of the pass:
    [m2 = 1 << s; m = m2 << 1; w = 1;
     for (j = 0; j < m2; ++j) {
       for (k = j; k < size; k += m) butterfly;
       w *= wm; }].
    The state of the outer loop is the pair of [w] and the buffer. *)
Definition stage (size : nat) (s : nat) (wm : complex T)
    (out : list (complex T)) : list (complex T) :=
  let m2 := Nat.shiftl 1 s in
  let m := Nat.shiftl m2 1 in
  snd (for_loop m2 (below m2) 1 0
         (fun j st =>
            (cmul (fst st) wm,
             for_loop size (below size) m j (butterfly m2 (fst st)) (snd st)))
         (cone, out)).

(** [detail::fft(in_first, in_last, out, dir)].  [out] is the buffer behind
    the output iterator as the caller hands it over. *)
Definition detail_fft (input out : list (complex T)) (dir : FFTDirection)
    : option (list (complex T)) :=
  let size := length input in
  if isPowerOf2 (Z.of_nat size) then
    match log2OfPowerOf2 (wrap I32 (Z.of_nat size)) with
    | Some log_n =>
        let nrm := fdiv fone (fsqrt (of_int (Z.of_nat size))) in
        match
          for_loop_opt size (below size) 1 0
            (fun i out =>
               match bitReverse U32 (Z.of_nat i) log_n with
               | Some r =>
                   Some (set i (cscale nrm (get czero input (Z.to_nat r))) out)
               | None => None
               end) out
        with
        | Some out =>
            Some (for_loop (Z.to_nat log_n) (below (Z.to_nat log_n)) 1 0
                    (fun s out =>
                       let m2 := Nat.shiftl 1 s in
                       let wm :=
                         polar fone
                           (fdiv (fmul (of_int (direction_value dir)) fpi)
                                 (of_int (Z.of_nat m2))) in
                       stage size s wm out) out)
        | None => None
        end
    | None => None
    end
  else None.

(** [fft(in_first, in_last, out)] and [ifft(in_first, in_last, out)]. *)
Definition fft (input out : list (complex T)) : option (list (complex T)) :=
  detail_fft input out Forward.
Definition ifft (input out : list (complex T)) : option (list (complex T)) :=
  detail_fft input out Backward.

(** [fft(std::vector<std::complex<T>>& data)] and its inverse: the result is
    a fresh vector of [data.size()] elements. *)
Definition fft_vector (data : list (complex T)) : option (list (complex T)) :=
  fft data (repeat czero (length data)).
Definition ifft_vector (data : list (complex T)) : option (list (complex T)) :=
  ifft data (repeat czero (length data)).

(** [FFTCalculator<T, N>]: the members. *)
Record FFTCalculator : Type := mkFFTCalculator {
  N : nat;
  log_n : Z;
  nrm : T;
  butterfly_indices : list Z;
  z : list (complex T)
}.

(** The constructor, for the template argument [n] (an [int]).  The
    [static_assert] and the assertions of [log2OfPowerOf2] and [bitReverse]
    are the ways it can fail. *)
Definition new_FFTCalculator (n : Z) : option FFTCalculator :=
  if isPowerOf2 n then
    match log2OfPowerOf2 n with
    | Some log_n =>
        let size := Z.to_nat n in
        match
          for_loop_opt size (below size) 1 0
            (fun i indices =>
               match bitReverse I32 (Z.of_nat i) log_n with
               | Some r => Some (set i r indices)
               | None => None
               end) (repeat 0%Z size)
        with
        | Some indices =>
            Some {| N := size;
                    log_n := log_n;
                    nrm := fdiv fone (fsqrt (of_int n));
                    butterfly_indices := indices;
                    z := for_loop (Z.to_nat log_n) (below (Z.to_nat log_n)) 1 0
                           (fun s z =>
                              let m2 := Nat.shiftl 1 s in
                              set s (polar fone
                                       (fdiv fpi (of_int (Z.of_nat m2)))) z)
                           (repeat czero (Z.to_nat log_n)) |}
        | None => None
        end
    | None => None
    end
  else None.

(** The two loops shared by the members [fft], [ifft] and [ifft_real]:
    [out[i] = nrm * in[butterfly_indices[i]]] and then the passes.  The
    element type [A] of the input is real or complex; [times] is the
    product [nrm * in[...]] converted to [complex]; [rotation] takes
    [z[s]] to the rotation of pass [s]. *)
Definition transform {A : Type} (c : FFTCalculator) (d : A)
    (times : T -> A -> complex T) (rotation : complex T -> complex T)
    (input : list A) (out : list (complex T)) : list (complex T) :=
  let out :=
    for_loop (N c) (below (N c)) 1 0
      (fun i out =>
         set i (times (nrm c)
                  (get d input (Z.to_nat (get 0%Z (butterfly_indices c) i))))
             out) out in
  for_loop (Z.to_nat (log_n c)) (below (Z.to_nat (log_n c))) 1 0
    (fun s out => stage (N c) s (rotation (get czero (z c) s)) out) out.

(** [FFTCalculator::fft(in, out)] for complex and for real input,
    [FFTCalculator::ifft(in, out)] and [FFTCalculator::ifft_real(in, out)]. *)
Definition calc_fft (c : FFTCalculator) (input out : list (complex T))
    : list (complex T) :=
  transform c czero cscale (fun w => w) input out.

Definition calc_fft_of_real (c : FFTCalculator) (input : list T)
    (out : list (complex T)) : list (complex T) :=
  transform c fzero (fun x v => of_real (fmul x v)) (fun w => w) input out.

Definition calc_ifft (c : FFTCalculator) (input out : list (complex T))
    : list (complex T) :=
  transform c czero cscale cconj input out.

Definition calc_ifft_real (c : FFTCalculator) (input : list (complex T))
    (out : list T) : list T :=
  let ifft := transform c czero cscale cconj input (repeat czero (N c)) in
  for_loop (N c) (below (N c)) 1 0
    (fun i out => set i (real (get czero ifft i)) out) out.

End WithT.
Arguments FFTCalculator T : clear implicits.
End FFT.

(* ================================================================== *)
(** ** fft.h, the second implementation *)
(* ================================================================== *)

(** [detail::fft2] and [FFTCalculator2] go through the butterflies of a
    pass by a counter [j] below [size / 2] and compute the two positions and
    the two rotations of butterfly [j] from [j] with shifts and exclusive
    ors.  The [int] values are integers here; for the sizes the functions
    accept none of the operations leaves the range of [int]. *)
Module FFT2.
Import Bits FFT.

(** [bm = 1 << i] and [bw = 2 << i]. *)
Definition bm (i : nat) : Z := Z.shiftl 1 (Z.of_nat i).
Definition bw (i : nat) : Z := Z.shiftl 2 (Z.of_nat i).

(** [i1 = ((j >> i) << (i + 1)) + j % bm] and [i2 = i1 ^ bm]. *)
Definition index1 (i j : nat) : Z :=
  (Z.shiftl (Z.shiftr (Z.of_nat j) (Z.of_nat i)) (Z.of_nat i + 1)
   + Z.rem (Z.of_nat j) (bm i))%Z.
Definition index2 (i j : nat) : Z := Z.lxor (index1 i j) (bm i).

Section WithT.
Context {T : Type} `{Floating T} `{Elementary T}.

(** [std::polar(T(1), ang * T(k ^ bw))] *)
Definition turn_of (ang : T) (i : nat) (k : Z) : complex T :=
  polar fone (fmul ang (of_int (Z.lxor k (bw i)))).

(** The butterfly of the second implementation:
    [tmp = out[i1]; out[i1] += z1 * out[i2]; out[i2] = tmp + z2 * out[i2]]. *)
Definition butterfly2 (i1 i2 : nat) (z1 z2 : complex T)
    (out : list (complex T)) : list (complex T) :=
  let tmp := get czero out i1 in
  let out := set i1 (cadd (get czero out i1) (cmul z1 (get czero out i2))) out in
  set i2 (cadd tmp (cmul z2 (get czero out i2))) out.

(** [detail::fft2(in_first, in_last, out, dir)] *)
Definition detail_fft2 (input out : list (complex T)) (dir : FFTDirection)
    : option (list (complex T)) :=
  let size := length input in
  if isPowerOf2 (Z.of_nat size) then
    let size_half := size / 2 in
    match log2OfPowerOf2 (wrap I32 (Z.of_nat size)) with
    | Some log_n =>
        let nrm := fdiv fone (fsqrt (of_int (Z.of_nat size))) in
        match
          for_loop_opt size (below size) 1 0
            (fun j out =>
               match bitReverse I32 (Z.of_nat j) log_n with
               | Some r =>
                   Some (set j (cscale nrm (get czero input (Z.to_nat r))) out)
               | None => None
               end) out
        with
        | Some out =>
            Some (for_loop (Z.to_nat log_n) (below (Z.to_nat log_n)) 1 0
                    (fun i out =>
                       let ang :=
                         fdiv (fmul (of_int (direction_value dir)) fpi)
                              (of_int (bm i)) in
                       for_loop size_half (below size_half) 1 0
                         (fun j out =>
                            let i1 := index1 i j in
                            let i2 := index2 i j in
                            let z1 := turn_of ang i i1 in
                            let z2 := turn_of ang i i2 in
                            butterfly2 (Z.to_nat i1) (Z.to_nat i2) z1 z2 out)
                         out) out)
        | None => None
        end
    | None => None
    end
  else None.

(** [FFTCalculator2<T, N>]: the members. *)
Record FFTCalculator2 : Type := mkFFTCalculator2 {
  N : nat;
  log_n : Z;
  n_half : nat;
  nrm : T;
  butterfly_indices : list Z;
  indices1 : list Z;
  indices2 : list Z;
  zs1 : list (complex T);
  zs2 : list (complex T)
}.

(** The four arrays the second loop of the constructor fills. *)
Definition pair_tables : Type :=
  (list Z * list Z * list (complex T) * list (complex T))%type.

(** The body of the inner loop of the constructor, for pass [i] and
    counter [j]:
    [index = i * n_half + j; indices1[index] = i1; indices2[index] = i2;
     zs1[index] = polar(1, ang * T(i1 ^ bw));
     zs2[index] = polar(1, ang * T(i2 ^ bw))]. *)
Definition fill_pair (n_half i j : nat) (st : pair_tables) : pair_tables :=
  let '(a1, a2, b1, b2) := st in
  let ang := fdiv fpi (of_int (bm i)) in
  let index := i * n_half + j in
  let i1 := index1 i j in
  let i2 := index2 i j in
  (set index i1 a1, set index i2 a2,
   set index (turn_of ang i i1) b1, set index (turn_of ang i i2) b2).

(** The constructor, for the template argument [n].  Besides the
    [static_assert] and the assertions of [log2OfPowerOf2] and [bitReverse],
    the length [n_half * log_n] of the four arrays has to be an [int]. *)
Definition new_FFTCalculator2 (n : Z) : option FFTCalculator2 :=
  if isPowerOf2 n then
    match log2OfPowerOf2 n with
    | Some log_n =>
        let size := Z.to_nat n in
        let n_half := Z.to_nat (n / 2) in
        if (n / 2 * log_n <? 2 ^ 31)%Z then
          match
            for_loop_opt size (below size) 1 0
              (fun i indices =>
                 match bitReverse I32 (Z.of_nat i) log_n with
                 | Some r => Some (set i r indices)
                 | None => None
                 end) (repeat 0%Z size)
          with
          | Some indices =>
              let count := n_half * Z.to_nat log_n in
              let '(a1, a2, b1, b2) :=
                for_loop (Z.to_nat log_n) (below (Z.to_nat log_n)) 1 0
                  (fun i st =>
                     for_loop n_half (below n_half) 1 0 (fill_pair n_half i) st)
                  (repeat 0%Z count, repeat 0%Z count,
                   repeat czero count, repeat czero count) in
              Some {| N := size;
                      log_n := log_n;
                      n_half := n_half;
                      nrm := fdiv fone (fsqrt (of_int n));
                      butterfly_indices := indices;
                      indices1 := a1;
                      indices2 := a2;
                      zs1 := b1;
                      zs2 := b2 |}
          | None => None
          end
        else None
    | None => None
    end
  else None.

(** The two loops shared by the members: [out[i] = nrm * in[butterfly_indices[i]]]
    and then the [log_n * n_half] butterflies in the order of the arrays.
    [times] is the product [nrm * in[...]] converted to [complex]; [turn]
    is the identity for [fft] and the conjugation for the inverse. *)
Definition transform2 {A : Type} (c : FFTCalculator2) (d : A)
    (times : T -> A -> complex T) (turn : complex T -> complex T)
    (input : list A) (out : list (complex T)) : list (complex T) :=
  let out :=
    for_loop (N c) (below (N c)) 1 0
      (fun i out =>
         set i (times (nrm c)
                  (get d input (Z.to_nat (get 0%Z (butterfly_indices c) i))))
             out) out in
  let count := Z.to_nat (log_n c) * n_half c in
  for_loop count (below count) 1 0
    (fun i out =>
       let i1 := get 0%Z (indices1 c) i in
       let i2 := get 0%Z (indices2 c) i in
       butterfly2 (Z.to_nat i1) (Z.to_nat i2)
         (turn (get czero (zs1 c) i)) (turn (get czero (zs2 c) i)) out) out.

(** [FFTCalculator2::fft(in, out)] for complex and for real input,
    [FFTCalculator2::ifft(in, out)] and [FFTCalculator2::ifft_real(in, out)]. *)
Definition calc2_fft (c : FFTCalculator2) (input out : list (complex T))
    : list (complex T) :=
  transform2 c czero cscale (fun w => w) input out.

Definition calc2_fft_of_real (c : FFTCalculator2) (input : list T)
    (out : list (complex T)) : list (complex T) :=
  transform2 c fzero (fun x v => of_real (fmul x v)) (fun w => w) input out.

Definition calc2_ifft (c : FFTCalculator2) (input out : list (complex T))
    : list (complex T) :=
  transform2 c czero cscale cconj input out.

Definition calc2_ifft_real (c : FFTCalculator2) (input : list (complex T))
    (out : list T) : list T :=
  let ifft := transform2 c czero cscale cconj input (repeat czero (N c)) in
  for_loop (N c) (below (N c)) 1 0
    (fun i out => set i (real (get czero ifft i)) out) out.

End WithT.
Arguments FFTCalculator2 T : clear implicits.
End FFT2.

(* ================================================================== *)
(** ** antialiase.h *)
(* ================================================================== *)

Module Antialiase.
Import FFT.

Section WithT.
Context {T : Type} `{Floating T} `{Elementary T}.

(** [static_cast<size_t>(std::floor(nyquist / max_playback_frequency)) + 1]
    with [nyquist = samplerate * 0.5] (all in the type [T]: for [double]
    this is the code as it is). *)
Definition cutoff_index (samplerate max_playback_frequency : T) : nat :=
  let nyquist := fmul samplerate fhalf in
  let nyquist_index := fdiv nyquist max_playback_frequency in
  floor_size nyquist_index + 1.

(** [antialiase_dft(first, last, samplerate, max_playback_frequency)], on
    the buffer between [first] and [last]. *)
Definition antialiase_dft (spectrum : list (complex T))
    (samplerate max_playback_frequency : T) : list (complex T) :=
  let size := length spectrum in
  let cutoff_index := cutoff_index samplerate max_playback_frequency in
  if size / 2 <? cutoff_index then spectrum
  else
    let spectrum := set 0 (set_imag (get czero spectrum 0) fzero) spectrum in
    for_loop size (differs (size - cutoff_index + 1)) 1 cutoff_index
      (fun it spectrum => set it czero spectrum) spectrum.

(** The loop of [antialiase] over the frequencies and the output tables:
    [for (; freq_it != freq_last; ++freq_it, ++table_it)].  [fft] is the
    spectrum of the signal, [table_it] the position in [tables]. *)
Fixpoint antialiase_loop (c : FFTCalculator T) (fft : list (complex T))
    (samplerate : T) (freqs : list T) (table_it : nat)
    (tables : list (list T)) : list (list T) :=
  match freqs with
  | [] => tables
  | freq :: freqs' =>
      let copy := fft in
      let copy := antialiase_dft copy samplerate freq in
      let table := calc_ifft_real c copy (get [] tables table_it) in
      antialiase_loop c fft samplerate freqs' (S table_it)
        (set table_it table tables)
  end.

(** [antialiase(signal_first, freq_first, freq_last, out_table_first,
    samplerate, fft_calculator)]; [tables] are the buffers behind the
    output iterator. *)
Definition antialiase (signal : list T) (freqs : list T)
    (tables : list (list T)) (samplerate : T) (c : FFTCalculator T)
    : list (list T) :=
  let fft := calc_fft_of_real c signal (repeat czero (N c)) in
  antialiase_loop c fft samplerate freqs 0 tables.

End WithT.
End Antialiase.

(* ================================================================== *)
(** ** wavetable_oscillator.h *)
(* ================================================================== *)

Module Oscillator.

Section WithT.
Context {T : Type} `{Floating T}.

(** The [Wavetable] template parameter.  The header [wavetable.h] is not
    among the sources; the oscillator uses three members of a table, which
    are the fields here: [size()], [getMaximumPlaybackFrequency()] and the
    interpolating read [operator()(T)]. *)
Record Wavetable : Type := mkWavetable {
  size : nat;
  getMaximumPlaybackFrequency : T;
  lookup : T -> T
}.

(** [ForwardSearchTableSelector::selectTable(begin, end, frequency)].  An
    iterator is its distance from [begin]: [position] is the distance of
    the head of [tables], and the result [position + length tables] is
    [end]. *)
Fixpoint selectTable_from (position : nat) (tables : list Wavetable)
    (frequency : T) : nat :=
  match tables with
  | [] => position
  | table :: tables' =>
      if fle frequency (getMaximumPlaybackFrequency table) then position
      else selectTable_from (S position) tables' frequency
  end.

Definition ForwardSearchTableSelector_selectTable (tables : list Wavetable)
    (frequency : T) : nat :=
  selectTable_from 0 tables frequency.

(** [WavetableOscillator]: the members.  [wavetables] is a pointer to the
    storage ([None] is the null pointer); the storage is not written during
    playback, so the pointer is modelled by what it points to.
    [currentTable] points to an element of the storage and is its index. *)
Record WavetableOscillator : Type := mkWavetableOscillator {
  sampleRateInv : T;
  frequency : T;
  delta : T;
  currentSamplePosition : T;
  value : T;
  wavetables : option (list Wavetable);
  currentTable : option nat;
  currentTableSize : nat;
  topFreq : T;
  bottomFreq : T
}.

(** What a read through a pointer that points to no table yields (the C++
    code has no defined behaviour there). *)
Definition no_table : Wavetable :=
  {| size := 0; getMaximumPlaybackFrequency := fzero; lookup := fun _ => fzero |}.

(** The table [currentTable] points to. *)
Definition current (o : WavetableOscillator) : Wavetable :=
  match wavetables o, currentTable o with
  | Some tables, Some i => nth i tables no_table
  | _, _ => no_table
  end.

(** [WavetableOscillator()] and [WavetableOscillator(sampleRate)] *)
Definition default_oscillator : WavetableOscillator :=
  {| sampleRateInv := fzero; frequency := fzero; delta := fzero;
     currentSamplePosition := fzero; value := fzero;
     wavetables := None; currentTable := None; currentTableSize := 0;
     topFreq := fzero; bottomFreq := fzero |}.

Definition with_sampleRateInv (o : WavetableOscillator) (v : T) :=
  {| sampleRateInv := v; frequency := frequency o; delta := delta o;
     currentSamplePosition := currentSamplePosition o; value := value o;
     wavetables := wavetables o; currentTable := currentTable o;
     currentTableSize := currentTableSize o;
     topFreq := topFreq o; bottomFreq := bottomFreq o |}.

Definition with_frequency (o : WavetableOscillator) (v : T) :=
  {| sampleRateInv := sampleRateInv o; frequency := v; delta := delta o;
     currentSamplePosition := currentSamplePosition o; value := value o;
     wavetables := wavetables o; currentTable := currentTable o;
     currentTableSize := currentTableSize o;
     topFreq := topFreq o; bottomFreq := bottomFreq o |}.

Definition with_delta (o : WavetableOscillator) (v : T) :=
  {| sampleRateInv := sampleRateInv o; frequency := frequency o; delta := v;
     currentSamplePosition := currentSamplePosition o; value := value o;
     wavetables := wavetables o; currentTable := currentTable o;
     currentTableSize := currentTableSize o;
     topFreq := topFreq o; bottomFreq := bottomFreq o |}.

(** Assignment to [currentSamplePosition] followed by the assignment to
    [value] of the current table read at
    [static_cast<T>(currentSamplePosition)]. *)
Definition with_position (o : WavetableOscillator) (v : T) :=
  {| sampleRateInv := sampleRateInv o; frequency := frequency o;
     delta := delta o;
     currentSamplePosition := v; value := lookup (current o) v;
     wavetables := wavetables o; currentTable := currentTable o;
     currentTableSize := currentTableSize o;
     topFreq := topFreq o; bottomFreq := bottomFreq o |}.

Definition oscillator_of_sampleRate (sampleRate : T) : WavetableOscillator :=
  with_sampleRateInv default_oscillator (fdiv fone sampleRate).

(** [static_cast<double>(n)] of a [size_t]. *)
Definition of_size (n : nat) : T := of_int (Z.of_nat n).

(** The private [selectTable()]. *)
Definition selectTable (o : WavetableOscillator) : option WavetableOscillator :=
  if fle (frequency o) (topFreq o) && flt (bottomFreq o) (frequency o) then Some o
  else
    match wavetables o with
    | None => None                                   (* assert(wavetables) *)
    | Some tables =>
        if length tables =? 0 then None              (* assert(size() > 0) *)
        else
          let it := ForwardSearchTableSelector_selectTable tables (frequency o) in
          let it := if it =? length tables then it - 1 else it in
          let newTable := nth it tables no_table in
          let position :=
            if negb (currentTableSize o =? 0) then
              let oldTableSize := currentTableSize o in
              let newTableSize := size newTable in
              let p := fdiv (fmul (currentSamplePosition o) (of_size newTableSize))
                            (of_size oldTableSize) in
              fmax fzero (fmin (fsub (of_size newTableSize) feps7) p)
            else currentSamplePosition o in
          if size newTable =? 0 then None            (* assert(size > 0) *)
          else
            Some {| sampleRateInv := sampleRateInv o;
                    frequency := frequency o;
                    delta := delta o;
                    currentSamplePosition := position;
                    value := lookup newTable position;
                    wavetables := wavetables o;
                    currentTable := Some it;
                    currentTableSize := size newTable;
                    topFreq := getMaximumPlaybackFrequency newTable;
                    bottomFreq :=
                      if it =? 0 then fzero
                      else getMaximumPlaybackFrequency
                             (nth (it - 1) tables no_table) |}
    end.

(** [updateDelta()] *)
Definition updateDelta (o : WavetableOscillator) : WavetableOscillator :=
  with_delta o
    (fmul (fmul (frequency o) (of_size (currentTableSize o))) (sampleRateInv o)).

(** [setFrequency(frequency)] *)
Definition setFrequency (o : WavetableOscillator) (f : T)
    : option WavetableOscillator :=
  let o := with_frequency o f in
  if flt (fmul f (sampleRateInv o)) fone then
    match selectTable o with
    | Some o => Some (updateDelta o)
    | None => None
    end
  else None.

(** [setTable(wavetables)] *)
Definition setTable (o : WavetableOscillator) (tables : list Wavetable)
    : option WavetableOscillator :=
  let o :=
    {| sampleRateInv := sampleRateInv o; frequency := frequency o;
       delta := delta o;
       currentSamplePosition := currentSamplePosition o; value := value o;
       wavetables := Some tables; currentTable := currentTable o;
       currentTableSize := currentTableSize o;
       topFreq := fzero; bottomFreq := fzero |} in
  setFrequency o (frequency o).

(** [setSampleRate(sampleRate)] *)
Definition setSampleRate (o : WavetableOscillator) (sampleRate : T)
    : option WavetableOscillator :=
  let o := with_sampleRateInv o (fdiv fone sampleRate) in
  setFrequency o (frequency o).

(** [WavetableOscillator(wavetables, sampleRate, frequency)] *)
Definition new_oscillator (tables : list Wavetable) (sampleRate f : T)
    : option WavetableOscillator :=
  setTable (with_frequency (oscillator_of_sampleRate sampleRate) f) tables.

(** The two statements shared by both increment operators:
    [currentSamplePosition += delta;
     if (currentSamplePosition >= currentTableSize)
       currentSamplePosition -= currentTableSize;]
    and the read of the table. *)
Definition step (o : WavetableOscillator) : WavetableOscillator :=
  let p := fadd (currentSamplePosition o) (delta o) in
  let p := if fle (of_size (currentTableSize o)) p
           then fsub p (of_size (currentTableSize o)) else p in
  with_position o p.

(** [operator++()]: the result and the oscillator afterwards. *)
Definition pre_increment (o : WavetableOscillator) : T * WavetableOscillator :=
  let o' := step o in (value o', o').

(** [operator++(int)] *)
Definition post_increment (o : WavetableOscillator) : T * WavetableOscillator :=
  let tmp := value o in (tmp, step o).

(** [operator()()] *)
Definition call (o : WavetableOscillator) : T := value o.

(** [retrigger()] *)
Definition retrigger (o : WavetableOscillator) : WavetableOscillator :=
  with_position o fzero.

Definition getSelectedTable (o : WavetableOscillator) : option nat := currentTable o.
Definition getFrequency (o : WavetableOscillator) : T := frequency o.
Definition getSampleRate (o : WavetableOscillator) : T := fdiv fone (sampleRateInv o).

(** [MorpingWavetableOscillator] *)
Record MorpingWavetableOscillator : Type := mkMorpingWavetableOscillator {
  param : T;
  osc1 : WavetableOscillator;
  osc2 : WavetableOscillator
}.



Definition morph_setParam (m : MorpingWavetableOscillator) (p : T) :=
  {| param := p; osc1 := osc1 m; osc2 := osc2 m |}.

(** [operator++()]: [(T(1) - param) * ++osc1 + param * ++osc2] *)
Definition morph_pre_increment (m : MorpingWavetableOscillator)
    : T * MorpingWavetableOscillator :=
  let r1 := pre_increment (osc1 m) in
  let r2 := pre_increment (osc2 m) in
  (fadd (fmul (fsub fone (param m)) (fst r1)) (fmul (param m) (fst r2)),
   {| param := param m; osc1 := snd r1; osc2 := snd r2 |}).

(** [operator++(int)] *)
Definition morph_post_increment (m : MorpingWavetableOscillator)
    : T * MorpingWavetableOscillator :=
  let r1 := post_increment (osc1 m) in
  let r2 := post_increment (osc2 m) in
  (fadd (fmul (fsub fone (param m)) (fst r1)) (fmul (param m) (fst r2)),
   {| param := param m; osc1 := snd r1; osc2 := snd r2 |}).

(** [operator()()] *)
Definition morph_call (m : MorpingWavetableOscillator) : T :=
  fadd (fmul (fsub fone (param m)) (call (osc1 m)))
       (fmul (param m) (call (osc2 m))).

Definition morph_retrigger (m : MorpingWavetableOscillator) :=
  {| param := param m; osc1 := retrigger (osc1 m); osc2 := retrigger (osc2 m) |}.

End WithT.
Arguments Wavetable T : clear implicits.
Arguments WavetableOscillator T : clear implicits.
Arguments MorpingWavetableOscillator T : clear implicits.
End Oscillator.

(* ================================================================== *)
(** ** The two instances of the numeric interface *)
(* ================================================================== *)

(** IEEE 754 binary64, the type [double]. *)
Module Binary64.

(** [static_cast<double>(n)] for an integer of magnitude below 2^63. *)
Definition of_Z (n : Z) : float :=
  match n with
  | Z0 => PrimFloat.zero
  | Zpos _ => PrimFloat.of_uint63 (Uint63.of_Z n)
  | Zneg _ => PrimFloat.opp (PrimFloat.of_uint63 (Uint63.of_Z (- n)))
  end.

(** [static_cast<size_t>(std::floor(x))]; the conversion is defined for the
    values of [x] from 0 up to the range of [size_t], elsewhere the result
    here is 0. *)
Definition floor_to_size (x : float) : nat :=
  match Prim2SF x with
  | S754_finite false m e => Z.to_nat (Z.shiftl (Zpos m) e)
  | _ => 0
  end.

#[global] Instance binary64 : Floating float := {|
  fzero := 0%float;
  fone := 1%float;
  fhalf := 0.5%float;
  feps7 := 0x1.ad7f29abcaf48p-24%float;
  fadd := PrimFloat.add;
  fsub := PrimFloat.sub;
  fmul := PrimFloat.mul;
  fdiv := PrimFloat.div;
  fopp := PrimFloat.opp;
  flt := PrimFloat.ltb;
  fle := PrimFloat.leb;
  of_int := of_Z;
  floor_size := floor_to_size
|}.

End Binary64.

(** The real numbers: the arithmetic of the code without rounding. *)
Module Exact.

Definition Rltb (x y : R) : bool := if Rlt_dec x y then true else false.
Definition Rleb (x y : R) : bool := if Rle_dec x y then true else false.

#[global] Instance exact : Floating R := {|
  fzero := 0%R;
  fone := 1%R;
  fhalf := (/ 2)%R;
  feps7 := (/ 10000000)%R;
  fadd := Rplus;
  fsub := Rminus;
  fmul := Rmult;
  fdiv := Rdiv;
  fopp := Ropp;
  flt := Rltb;
  fle := Rleb;
  of_int := IZR;
  floor_size := fun x => Z.to_nat (Zfloor x)
|}.

#[global] Instance exact_elementary : Elementary R := {|
  fsqrt := R_sqrt.sqrt;
  fcos := cos;
  fsin := sin;
  fpi := PI
|}.

End Exact.

(* ================================================================== *)
(** * Properties *)
(* ================================================================== *)

Module LoopFacts.

Section Buffers.
Context {A : Type}.
Implicit Types (l : list A) (i j : nat) (v d : A).

Lemma length_set i v l : length (set i v l) = length l.
Proof.
  revert i. induction l as [|x l IH]; intros [|i]; cbn; auto.
Qed.

Lemma get_set_eq d i v l : i < length l -> get d (set i v l) i = v.
Proof.
  unfold get. revert i. induction l as [|x l IH]; intros [|i] Hi; cbn in *;
    try lia; auto. apply IH. lia.
Qed.

Lemma get_set_neq d i j v l : i <> j -> get d (set i v l) j = get d l j.
Proof.
  unfold get. revert i j.
  induction l as [|x l IH]; intros [|i] [|j] Hij; cbn; auto; try lia.
Qed.

Lemma get_set d i j v l :
  get d (set i v l) j = if (i =? j) && (i <? length l) then v else get d l j.
Proof.
  destruct (Nat.eqb_spec i j) as [->|Hne]; cbn [andb].
  - destruct (Nat.ltb_spec j (length l)) as [Hlt|Hge].
    + apply get_set_eq; assumption.
    + unfold get. rewrite !nth_overflow; rewrite ?length_set; auto.
  - apply get_set_neq; assumption.
Qed.

Lemma set_middle v x (pre rest : list A) :
  set (length pre) v (pre ++ x :: rest) = pre ++ v :: rest.
Proof.
  induction pre as [|y pre IH]; cbn; [reflexivity|]. f_equal. apply IH.
Qed.

(** Two buffers of one length with the same elements are equal. *)
Lemma buffer_ext d l l' :
  length l = length l' ->
  (forall i, i < length l -> get d l i = get d l' i) -> l = l'.
Proof.
  intros Hlen Hget. apply (nth_ext l l' d d); assumption.
Qed.

End Buffers.

Section Loops.
Context {S : Type}.

(** A loop [for (i = start; i < stop; ++i)] with enough fuel is the fold of
    its body over the indices from [start] up to [stop]. *)
Lemma for_loop_below (body : nat -> S -> S) (stop : nat) :
  forall fuel i s, stop - i <= fuel ->
  for_loop fuel (below stop) 1 i body s
  = fold_left (fun s i => body i s) (seq i (stop - i)) s.
Proof.
  induction fuel as [|fuel IH]; intros i s Hfuel; cbn [for_loop].
  - replace (stop - i) with 0 by lia. reflexivity.
  - unfold below at 1. destruct (Nat.ltb_spec i stop) as [Hlt|Hge].
    + replace (stop - i) with (Datatypes.S (stop - (i + 1))) by lia.
      cbn [seq fold_left]. rewrite IH by lia.
      replace (i + 1) with (Datatypes.S i) by lia. reflexivity.
    + replace (stop - i) with 0 by lia. reflexivity.
Qed.

Lemma for_loop_count (body : nat -> S -> S) (n : nat) (s : S) :
  for_loop n (below n) 1 0 body s
  = fold_left (fun s i => body i s) (seq 0 n) s.
Proof. rewrite for_loop_below by lia. rewrite Nat.sub_0_r. reflexivity. Qed.

(** The loop with a body that can abort, when no iteration aborts. *)
Lemma for_loop_opt_below (body : nat -> S -> option S) (pure : nat -> S -> S)
    (stop : nat) :
  (forall i s, i < stop -> body i s = Some (pure i s)) ->
  forall fuel i s,
  for_loop_opt fuel (below stop) 1 i body s
  = Some (for_loop fuel (below stop) 1 i pure s).
Proof.
  intros Hbody. induction fuel as [|fuel IH]; intros i s;
    cbn [for_loop for_loop_opt]; auto.
  destruct (below stop i) eqn:Hcond; auto.
  apply Nat.ltb_lt in Hcond. rewrite Hbody by assumption. apply IH.
Qed.

(** An aborting iteration aborts the loop. *)
Lemma for_loop_opt_abort (body : nat -> S -> option S) (stop : nat) (s : S) :
  0 < stop -> body 0 s = None ->
  for_loop_opt stop (below stop) 1 0 body s = None.
Proof.
  intros Hstop Hbody. destruct stop as [|stop]; [lia|].
  cbn. rewrite Hbody. reflexivity.
Qed.

End Loops.

(** A loop [for (i = start; i != stop; ++i)] that starts at or before
    [stop], with enough fuel, is the same fold. *)
Lemma for_loop_differs {S : Type} (body : nat -> S -> S) (stop : nat) :
  forall fuel i s, i <= stop -> stop - i <= fuel ->
  for_loop fuel (differs stop) 1 i body s
  = fold_left (fun s i => body i s) (seq i (stop - i)) s.
Proof.
  induction fuel as [|fuel IH]; intros i s Hi Hfuel; cbn [for_loop].
  - replace (stop - i) with 0 by lia. reflexivity.
  - unfold differs at 1. destruct (Nat.eqb_spec i stop) as [Heq|Hne]; cbn [negb].
    + replace (stop - i) with 0 by lia. reflexivity.
    + replace (stop - i) with (Datatypes.S (stop - (i + 1))) by lia.
      cbn [seq fold_left]. rewrite IH by lia.
      replace (i + 1) with (Datatypes.S i) by lia. reflexivity.
Qed.

(** Writing one value [v] to the positions [a], ..., [a + n - 1]. *)
Lemma write_range {A : Type} (d v : A) :
  forall n a (l : list A),
  let l' := fold_left (fun l i => set i v l) (seq a n) l in
  length l' = length l /\
  forall j, get d l' j
            = if (a <=? j) && (j <? a + n) && (j <? length l) then v
              else get d l j.
Proof.
  induction n as [|n IH]; intros a l; cbn [seq fold_left].
  - split; [reflexivity|]. intros j.
    destruct (Nat.leb_spec a j), (Nat.ltb_spec j (a + 0)); cbn; auto; lia.
  - destruct (IH (Datatypes.S a) (set a v l)) as [Hlen Hget].
    cbv zeta. split; [rewrite Hlen; apply length_set|].
    intros j. rewrite Hget, length_set, get_set. clear.
    destruct (Nat.leb_spec (Datatypes.S a) j), (Nat.leb_spec a j),
      (Nat.ltb_spec j (Datatypes.S a + n)),
      (Nat.ltb_spec j (a + Datatypes.S n)),
      (Nat.ltb_spec j (length l)), (Nat.eqb_spec a j),
      (Nat.ltb_spec a (length l)); cbn; auto; lia.
Qed.

(** Filling a buffer front to back: [for (i = 0; i < n; ++i) out[i] = f(i)]. *)
Lemma fill_prefix {A : Type} (f : nat -> A) (out : list A) :
  forall j, j <= length out ->
  fold_left (fun out i => set i (f i) out) (seq 0 j) out
  = map f (seq 0 j) ++ skipn j out.
Proof.
  induction j as [|j IH]; intros Hj.
  - reflexivity.
  - rewrite seq_S, fold_left_app, map_app. cbn [fold_left map Nat.add].
    rewrite IH by lia. clear IH.
    assert (Hlen : length (map f (seq 0 j)) = j)
      by (rewrite length_map, length_seq; reflexivity).
    remember (map f (seq 0 j)) as pre eqn:Hpre. clear Hpre.
    destruct (skipn j out) as [|x rest] eqn:Hskip.
    + exfalso. apply (f_equal (@length A)) in Hskip.
      rewrite length_skipn in Hskip. cbn in Hskip. lia.
    + replace (skipn (Datatypes.S j) out) with rest.
      2:{ change (Datatypes.S j) with (1 + j).
          rewrite <- skipn_skipn, Hskip. reflexivity. }
      rewrite <- app_assoc. cbn [app].
      subst j. apply set_middle.
Qed.

Lemma fill_all {A : Type} (f : nat -> A) (out : list A) (n : nat) :
  length out = n ->
  for_loop n (below n) 1 0 (fun i out => set i (f i) out) out = map f (seq 0 n).
Proof.
  intros Hlen. rewrite for_loop_count, fill_prefix by lia.
  rewrite skipn_all2 by lia. apply app_nil_r.
Qed.

End LoopFacts.

Module BitsFacts.
Import Bits.
Local Open Scope Z_scope.

Example bitReverse_6_3 : bitReverse I32 6 3 = Some 3.
Proof. reflexivity. Qed.

Example bitReverse_1_10 : bitReverse U32 1 10 = Some 512.
Proof. reflexivity. Qed.

Example bitReverse_0_0 : bitReverse U32 0 0 = None.
Proof. reflexivity. Qed.

(** A property of every index below [n] follows from the property of the
    members of the explicit list [0; 1; ...; n-1]. *)
Lemma Z_range_Forall (n : nat) (P : Z -> Prop) :
  Forall P (map Z.of_nat (seq 0 n)) ->
  forall i, 0 <= i < Z.of_nat n -> P i.
Proof.
  intros HF i Hi.
  rewrite Forall_forall in HF. apply HF.
  apply in_map_iff. exists (Z.to_nat i). split; [lia|].
  apply in_seq. lia.
Qed.

(** Conversion to either 32-bit type keeps the low 32 bits. *)
Lemma wrap_mod (k : int_kind) (z : Z) : wrap k z mod 2 ^ 32 = z mod 2 ^ 32.
Proof.
  destruct k; unfold wrap.
  - rewrite Zminus_mod_idemp_l. f_equal. lia.
  - apply Z.mod_mod. lia.
Qed.

Lemma wrap_testbit (k : int_kind) (z i : Z) :
  0 <= i < 32 -> Z.testbit (wrap k z) i = Z.testbit z i.
Proof.
  intros Hi.
  rewrite <- (Z.mod_pow2_bits_low (wrap k z) 32 i) by lia.
  rewrite wrap_mod. apply Z.mod_pow2_bits_low. lia.
Qed.

Lemma wrap_small (k : int_kind) (z : Z) : 0 <= z < 2 ^ 31 -> wrap k z = z.
Proof.
  intros Hz. destruct k; unfold wrap.
  - rewrite Z.mod_small; lia.
  - apply Z.mod_small. lia.
Qed.

Lemma testbit_high (x n i : Z) :
  0 <= x < 2 ^ n -> n <= i -> Z.testbit x i = false.
Proof.
  intros Hx Hi.
  destruct (Z.ltb_spec n 0) as [Hn|Hn].
  - rewrite Z.pow_neg_r in Hx by lia. lia.
  - rewrite <- (Z.mod_small x (2 ^ n)) by lia.
    apply Z.mod_pow2_bits_high. lia.
Qed.

(** Rewriting a bit of an expression built from the operators of the
    swaps down to bits of [x] and of the masks. *)
Ltac bits_of_swap :=
  rewrite wrap_testbit by lia;
  rewrite Z.lor_spec;
  rewrite Z.shiftl_spec by lia;
  rewrite Z.shiftr_spec by lia;
  rewrite ?Z.land_spec.

Ltac each_bit i :=
  pattern i; apply (Z_range_Forall 32); [| assumption];
  cbn [map seq Z.of_nat Pos.of_succ_nat Pos.succ];
  repeat (apply Forall_cons); try apply Forall_nil.

Lemma swap16_bits (k : int_kind) (x i : Z) :
  0 <= x < 2 ^ 32 -> 0 <= i < 32 ->
  Z.testbit (swap16 k x) i = Z.testbit x (Z.lxor i 16).
Proof.
  intros Hx Hi. unfold swap16. bits_of_swap.
  destruct (Z.ltb_spec i 16) as [Hlt|Hge].
  - rewrite (Z.testbit_neg_r x (i - 16)) by lia. cbn [orb].
    f_equal. revert Hlt. each_bit i; intros; try reflexivity; lia.
  - rewrite (testbit_high (n:=32) (i:=i + 16) Hx) by lia.
    rewrite orb_false_r.
    f_equal. revert Hge. each_bit i; intros; try reflexivity; lia.
Qed.

Ltac swap_bits_by_cases x i :=
  let Hi := fresh "Hi" in
  intros Hi; revert x; each_bit i; intros x; bits_of_swap;
  cbn; rewrite ?andb_true_r, ?andb_false_r, ?orb_false_r; reflexivity.

Lemma swap8_bits (k : int_kind) (x i : Z) :
  0 <= i < 32 -> Z.testbit (swap8 k x) i = Z.testbit x (Z.lxor i 8).
Proof. unfold swap8. swap_bits_by_cases x i. Qed.

Lemma swap4_bits (k : int_kind) (x i : Z) :
  0 <= i < 32 -> Z.testbit (swap4 k x) i = Z.testbit x (Z.lxor i 4).
Proof. unfold swap4. swap_bits_by_cases x i. Qed.

Lemma swap2_bits (k : int_kind) (x i : Z) :
  0 <= i < 32 -> Z.testbit (swap2 k x) i = Z.testbit x (Z.lxor i 2).
Proof. unfold swap2. swap_bits_by_cases x i. Qed.

Lemma swap1_bits (k : int_kind) (x i : Z) :
  0 <= i < 32 -> Z.testbit (swap1 k x) i = Z.testbit x (Z.lxor i 1).
Proof. unfold swap1. swap_bits_by_cases x i. Qed.

(** After the five swaps bit [i] holds what was bit [31 - i]. *)
Lemma reverse32_bits (k : int_kind) (x i : Z) :
  0 <= x < 2 ^ 32 -> 0 <= i < 32 ->
  Z.testbit (reverse32 k x) i = Z.testbit x (31 - i).
Proof.
  intros Hx Hi. unfold reverse32.
  revert Hx. each_bit i; intros Hx;
    rewrite swap1_bits, swap2_bits, swap4_bits, swap8_bits, swap16_bits
      by (cbn; lia);
    reflexivity.
Qed.

Lemma mask_ones (nb : Z) :
  1 <= nb <= 32 -> Z.shiftr 0xFFFFFFFF (32 - nb) = Z.ones nb.
Proof.
  intros Hnb.
  replace nb with (32 - (32 - nb)) at 2 by lia.
  assert (Hr : 0 <= 32 - nb < Z.of_nat 32) by lia.
  revert Hr. generalize (32 - nb). intros j Hj.
  each_bit j; reflexivity.
Qed.

(** Bit [i] of the returned expression is bit [nb - 1 - i] of [x] below
    [nb], and no bit is set from [nb] on. *)
Lemma reversed_range (k : int_kind) (x nb : Z) :
  1 <= nb <= 31 -> 0 <= reversed k x nb < 2 ^ nb.
Proof.
  intros Hnb. unfold reversed.
  rewrite mask_ones by lia. rewrite Z.land_ones by lia.
  apply Z.mod_pos_bound. apply Z.pow_pos_nonneg; lia.
Qed.

Lemma reversed_bits (k : int_kind) (x nb i : Z) :
  1 <= nb <= 31 -> 0 <= x < 2 ^ 32 -> 0 <= i ->
  Z.testbit (reversed k x nb) i = (i <? nb) && Z.testbit x (nb - 1 - i).
Proof.
  intros Hnb Hx Hi. unfold reversed.
  rewrite mask_ones by lia.
  rewrite Z.land_spec, Z.shiftr_spec by lia.
  rewrite Z.testbit_ones_nonneg by lia.
  destruct (Z.ltb_spec i nb) as [Hlt|Hge].
  - rewrite andb_true_r, andb_true_l.
    rewrite reverse32_bits by lia. f_equal. lia.
  - apply andb_false_r.
Qed.

Lemma bitReverse_eq (k : int_kind) (x nb : Z) :
  1 <= nb <= 31 -> bitReverse k x nb = Some (reversed k x nb).
Proof.
  intros Hnb. unfold bitReverse.
  replace ((0 <? nb) && (nb <? 32)) with true
    by (symmetry; apply andb_true_iff; split; apply Z.ltb_lt; lia).
  f_equal. apply wrap_small.
  pose proof (reversed_range k x Hnb) as Hr.
  assert (2 ^ nb <= 2 ^ 31) by (apply Z.pow_le_mono_r; lia). lia.
Qed.

Lemma reversed_involutive (k : int_kind) (x nb : Z) :
  1 <= nb <= 31 -> 0 <= x < 2 ^ nb ->
  reversed k (reversed k x nb) nb = x.
Proof.
  intros Hnb Hx.
  assert (H32 : 2 ^ nb <= 2 ^ 32) by (apply Z.pow_le_mono_r; lia).
  pose proof (reversed_range k x Hnb) as Hr.
  apply Z.bits_inj'. intros i Hi.
  rewrite reversed_bits by lia.
  destruct (Z.ltb_spec i nb) as [Hlt|Hge].
  - rewrite andb_true_l. rewrite reversed_bits by lia.
    replace (nb - 1 - i <? nb) with true by (symmetry; apply Z.ltb_lt; lia).
    rewrite andb_true_l. f_equal. lia.
  - rewrite andb_false_l. symmetry. apply (testbit_high (n:=nb)); lia.
Qed.

End BitsFacts.

Module FFTFacts.
Import Bits BitsFacts LoopFacts FFT.

Lemma log2OfPowerOf2_pow2 (n : Z) :
  (0 <= n < 32)%Z ->
  isPowerOf2 (2 ^ n) = true /\ log2OfPowerOf2 (2 ^ n) = Some n.
Proof.
  change 32%Z with (Z.of_nat 32). intros Hn.
  each_bit n; split; reflexivity.
Qed.

Lemma Z_of_nat_pow2 (n : nat) : (2 ^ Z.of_nat n)%Z = Z.of_nat (2 ^ n).
Proof. rewrite Nat2Z.inj_pow. reflexivity. Qed.

Lemma Z_to_nat_pow2 (n : nat) : Z.to_nat (2 ^ Z.of_nat n) = 2 ^ n.
Proof. rewrite Z_of_nat_pow2. apply Nat2Z.id. Qed.

(** The index table the constructor of [FFTCalculator] computes. *)
Lemma new_FFTCalculator_indices {T : Type} `{Floating T} `{Elementary T}
    (n : nat) :
  1 <= n <= 30 ->
  exists c : FFTCalculator T,
    new_FFTCalculator (2 ^ Z.of_nat n) = Some c /\
    N c = 2 ^ n /\ log_n c = Z.of_nat n /\
    nrm c = fdiv fone (fsqrt (of_int (2 ^ Z.of_nat n))) /\
    butterfly_indices c
    = map (fun i => reversed I32 (Z.of_nat i) (Z.of_nat n)) (seq 0 (2 ^ n)) /\
    z c = map (fun s => polar fone
                          (fdiv fpi (of_int (Z.of_nat (Nat.shiftl 1 s)))))
              (seq 0 n).
Proof.
  intros Hn. unfold new_FFTCalculator.
  destruct (log2OfPowerOf2_pow2 (n:=Z.of_nat n)) as [Hp Hl]; [lia|].
  rewrite Hp, Hl, Z_to_nat_pow2, Nat2Z.id.
  rewrite (for_loop_opt_below _
             (fun i indices =>
                set i (reversed I32 (Z.of_nat i) (Z.of_nat n)) indices)).
  2:{ intros i s _. rewrite bitReverse_eq by lia. reflexivity. }
  eexists. split; [reflexivity|]. cbn.
  repeat split.
  - apply fill_all. apply repeat_length.
  - apply (fill_all (fun s => polar fone
                        (fdiv fpi (of_int (Z.of_nat (Nat.shiftl 1 s)))))).
    apply repeat_length.
Qed.

(** Bit reversal permutes the indices below [2 ^ n]. *)
Lemma reversed_permutation (k : int_kind) (n : nat) :
  1 <= n <= 31 ->
  Permutation (map (fun i => reversed k (Z.of_nat i) (Z.of_nat n)) (seq 0 (2 ^ n)))
              (map Z.of_nat (seq 0 (2 ^ n))).
Proof.
  intros Hn.
  assert (Hn' : (1 <= Z.of_nat n <= 31)%Z) by lia.
  set (g := fun x => reversed k x (Z.of_nat n)).
  set (L := map Z.of_nat (seq 0 (2 ^ n))).
  assert (HL : forall x, In x L <-> (0 <= x < 2 ^ Z.of_nat n)%Z).
  { intros x. unfold L. rewrite in_map_iff, (Z_of_nat_pow2 n). split.
    - intros [i [<- Hi]]. apply in_seq in Hi. lia.
    - intros Hx. exists (Z.to_nat x). split; [lia|]. apply in_seq. lia. }
  assert (Hgg : map g (map g L) = L).
  { rewrite map_map. rewrite <- (map_id L) at 2. apply map_ext_in.
    intros x Hx. apply HL in Hx. unfold g.
    apply (@reversed_involutive k x (Z.of_nat n)); [exact Hn'|exact Hx]. }
  assert (HndL : NoDup L).
  { unfold L. apply Finite.Injective_map_NoDup; [|apply seq_NoDup].
    intros a b. apply Nat2Z.inj. }
  change (map (fun i => reversed k (Z.of_nat i) (Z.of_nat n)) (seq 0 (2 ^ n)))
    with (map (fun i => g (Z.of_nat i)) (seq 0 (2 ^ n))).
  rewrite <- (map_map Z.of_nat g). fold L.
  apply NoDup_Permutation.
  - apply (NoDup_map_inv g). rewrite Hgg. exact HndL.
  - exact HndL.
  - intros x. split.
    + rewrite in_map_iff. intros [y [<- Hy]]. apply HL.
      unfold g. exact (reversed_range k y Hn').
    + intros Hx. rewrite <- Hgg in Hx. rewrite in_map_iff in Hx.
      destruct Hx as [y [<- Hy]]. apply in_map.
      rewrite in_map_iff in Hy. destruct Hy as [u [<- Hu]].
      apply HL. unfold g. exact (reversed_range k u Hn').
Qed.

(** C10.  Bit reversal is an involution on the [n]-bit indices, for either
    32-bit type and every bit count [n] from 1 to 31: [bitReverse(i, n)]
    passes its assertion, its result is below [2 ^ n], and reversing the
    result gives [i] back.  Hence the table [butterfly_indices] the
    constructor of [FFTCalculator<T, N>] computes for [N = 2 ^ n] is a
    permutation of [0 .. N-1]. *)
Theorem bitReverse_involution :
  forall (k : int_kind) (n i : Z),
    (1 <= n <= 31)%Z -> (0 <= i < 2 ^ n)%Z ->
    (exists r : Z,
        bitReverse k i n = Some r /\ (0 <= r < 2 ^ n)%Z /\
        bitReverse k r n = Some i) /\
    (forall (T : Type) (F : Floating T) (E : Elementary T),
        (n <= 30)%Z ->
        exists c : FFTCalculator T,
          new_FFTCalculator (2 ^ n) = Some c /\
          Permutation (butterfly_indices c)
                      (map Z.of_nat (seq 0 (Z.to_nat (2 ^ n))))).
Proof.
  intros k n i Hn Hi. split.
  - exists (reversed k i n).
    rewrite !bitReverse_eq by lia.
    split; [reflexivity|]. split; [apply reversed_range; lia|].
    f_equal. apply reversed_involutive; lia.
  - intros T F E Hn30.
    assert (Hm : exists m : nat, n = Z.of_nat m /\ 1 <= m <= 30)
      by (exists (Z.to_nat n); lia).
    destruct Hm as [m [-> Hm]].
    destruct (new_FFTCalculator_indices (T:=T) (n:=m))
      as [c [Hc [_ [_ [_ [Hidx _]]]]]]; [exact Hm|].
    exists c. split; [exact Hc|].
    rewrite Hidx, Z_to_nat_pow2.
    apply reversed_permutation. lia.
Qed.

(** The claim at the 3-bit indices: 6 = 110b reverses to 3 = 011b. *)
Lemma bitReverse_involution_witness :
  (exists r : Z,
      bitReverse I32 6 3 = Some r /\ (0 <= r < 2 ^ 3)%Z /\
      bitReverse I32 r 3 = Some 6%Z) /\
  (forall (T : Type) (F : Floating T) (E : Elementary T),
      (3 <= 30)%Z ->
      exists c : FFTCalculator T,
        new_FFTCalculator (2 ^ 3) = Some c /\
        Permutation (butterfly_indices c)
                    (map Z.of_nat (seq 0 (Z.to_nat (2 ^ 3))))).
Proof.
  apply (@bitReverse_involution I32 3 6); cbn; lia.
Defined.

End FFTFacts.

Module AntialiaseFacts.
Import LoopFacts FFT Antialiase.

Section WithT.
Context {T : Type} `{Floating T}.

(** What [antialiase_dft] does when it truncates: every bin from the cutoff
    index up to its mirror becomes zero, bin 0 keeps its real part and
    loses its imaginary part, and the other bins are kept. *)
Lemma antialiase_dft_truncates (spectrum : list (complex T)) (samplerate f : T) :
  cutoff_index samplerate f <= length spectrum / 2 ->
  length (antialiase_dft spectrum samplerate f) = length spectrum /\
  forall i,
    get czero (antialiase_dft spectrum samplerate f) i
    = if (cutoff_index samplerate f <=? i)
         && (i <? length spectrum - cutoff_index samplerate f + 1)
      then czero
      else if i =? 0 then set_imag (get czero spectrum 0) fzero
      else get czero spectrum i.
Proof.
  intros Hc. unfold antialiase_dft.
  assert (Hc1 : 1 <= cutoff_index samplerate f)
    by (unfold cutoff_index; lia).
  set (c := cutoff_index samplerate f) in *.
  set (n := length spectrum) in *.
  assert (Hdiv : 2 * (n / 2) <= n).
  { pose proof (Nat.div_mod_eq n 2). lia. }
  replace (n / 2 <? c) with false by (symmetry; apply Nat.ltb_ge; lia).
  rewrite for_loop_differs by lia.
  pose proof (write_range czero czero (n - c + 1 - c) c
                (set 0 (set_imag (get czero spectrum 0) fzero) spectrum))
    as Hw.
  cbv zeta in Hw. destruct Hw as [Hlen Hget].
  rewrite length_set in Hlen, Hget. fold n in Hlen, Hget.
  split; [exact Hlen|].
  intros i. rewrite Hget, get_set. fold n.
  replace (c + (n - c + 1 - c)) with (n - c + 1) by lia.
  destruct (Nat.leb_spec c i), (Nat.ltb_spec i (n - c + 1)),
    (Nat.ltb_spec i n), (Nat.eqb_spec 0 i), (Nat.eqb_spec i 0),
    (Nat.ltb_spec 0 n); cbn; auto; lia.
Qed.

End WithT.

(** C2.  When the cutoff index [floor((samplerate / 2) / f) + 1] is at most
    half the length [N] of the spectrum, [antialiase_dft] leaves every bin
    with an index in [[cutoff, N - cutoff + 1)] exactly zero, and the
    imaginary part of bin 0 exactly zero.  The length is kept. *)
Theorem antialiase_dft_zeroes :
  forall (T : Type) (F : Floating T) (spectrum : list (complex T))
         (samplerate max_playback_frequency : T),
    cutoff_index samplerate max_playback_frequency <= length spectrum / 2 ->
    length (antialiase_dft spectrum samplerate max_playback_frequency)
    = length spectrum /\
    (forall i,
        cutoff_index samplerate max_playback_frequency <= i ->
        i < length spectrum - cutoff_index samplerate max_playback_frequency + 1 ->
        nth_error (antialiase_dft spectrum samplerate max_playback_frequency) i
        = Some czero) /\
    option_map imag
      (nth_error (antialiase_dft spectrum samplerate max_playback_frequency) 0)
    = Some fzero.
Proof.
  intros T F spectrum sr f Hc.
  destruct (antialiase_dft_truncates spectrum sr f Hc) as [Hlen Hget].
  assert (Hc1 : 1 <= cutoff_index sr f) by (unfold cutoff_index; lia).
  assert (Hdiv : 2 * (length spectrum / 2) <= length spectrum).
  { pose proof (Nat.div_mod_eq (length spectrum) 2). lia. }
  split; [exact Hlen|]. split.
  - intros i Hlo Hhi.
    rewrite (nth_error_nth' _ czero) by lia.
    f_equal. change (get czero (antialiase_dft spectrum sr f) i = czero).
    rewrite Hget.
    replace (cutoff_index sr f <=? i) with true
      by (symmetry; apply Nat.leb_le; lia).
    replace (i <? length spectrum - cutoff_index sr f + 1) with true
      by (symmetry; apply Nat.ltb_lt; lia).
    reflexivity.
  - rewrite (nth_error_nth' _ czero) by lia. cbn [option_map].
    f_equal. change (imag (get czero (antialiase_dft spectrum sr f) 0) = fzero).
    rewrite Hget.
    replace (cutoff_index sr f <=? 0) with false
      by (symmetry; apply Nat.leb_gt; lia).
    reflexivity.
Qed.

(** An 8-bin spectrum of doubles, sample rate 8 and maximum playback
    frequency 2: the cutoff index is 3, bins 3, 4 and 5 become zero. *)
Definition spectrum8 : list (complex float) :=
  map (fun x => mkComplex x x) [1; 2; 3; 4; 5; 6; 7; 8]%float.

Lemma antialiase_dft_zeroes_witness :
  length (antialiase_dft spectrum8 8%float 2%float) = length spectrum8 /\
  (forall i,
      cutoff_index 8%float 2%float <= i ->
      i < length spectrum8 - cutoff_index 8%float 2%float + 1 ->
      nth_error (antialiase_dft spectrum8 8%float 2%float) i = Some czero) /\
  option_map imag (nth_error (antialiase_dft spectrum8 8%float 2%float) 0)
  = Some fzero.
Proof.
  apply (@antialiase_dft_zeroes float Binary64.binary64 spectrum8 8%float 2%float).
  vm_compute. lia.
Defined.

Example antialiase_dft_spectrum8 :
  antialiase_dft spectrum8 8%float 2%float
  = [mkComplex 1 0; mkComplex 2 2; mkComplex 3 3; czero; czero; czero;
     mkComplex 7 7; mkComplex 8 8]%float.
Proof. vm_compute. reflexivity. Qed.

(** C6.  When the cutoff index is greater than half the length of the
    spectrum, [antialiase_dft] returns the spectrum as it was. *)
Theorem antialiase_dft_unchanged :
  forall (T : Type) (F : Floating T) (spectrum : list (complex T))
         (samplerate max_playback_frequency : T),
    length spectrum / 2 < cutoff_index samplerate max_playback_frequency ->
    antialiase_dft spectrum samplerate max_playback_frequency = spectrum.
Proof.
  intros T F spectrum sr f Hc. unfold antialiase_dft.
  apply Nat.ltb_lt in Hc. rewrite Hc. reflexivity.
Qed.

Lemma antialiase_dft_unchanged_witness :
  antialiase_dft spectrum8 44100%float 20%float = spectrum8.
Proof.
  apply (@antialiase_dft_unchanged float Binary64.binary64).
  vm_compute. lia.
Defined.

Section Builder.
Context {T : Type} `{Floating T}.

(** The loop of [antialiase] writes table [table_it + i] from frequency [i]
    and from the spectrum [fft] it was given, and keeps the other tables. *)
Lemma antialiase_loop_tables (c : FFTCalculator T) (fft : list (complex T))
    (samplerate : T) :
  forall (freqs : list T) (table_it : nat) (tables : list (list T)),
  table_it + length freqs <= length tables ->
  length (antialiase_loop c fft samplerate freqs table_it tables)
  = length tables /\
  forall j,
    get [] (antialiase_loop c fft samplerate freqs table_it tables) j
    = if (table_it <=? j) && (j <? table_it + length freqs)
      then calc_ifft_real c
             (antialiase_dft fft samplerate (nth (j - table_it) freqs fzero))
             (get [] tables j)
      else get [] tables j.
Proof.
  induction freqs as [|freq freqs IH]; intros k tables Hlen;
    cbn [antialiase_loop length] in *.
  - split; [reflexivity|]. intros j.
    destruct (Nat.leb_spec k j), (Nat.ltb_spec j (k + 0)); cbn; auto; lia.
  - destruct (IH (S k)
                (set k (calc_ifft_real c (antialiase_dft fft samplerate freq)
                          (get [] tables k)) tables)) as [IHlen IHget].
    { rewrite length_set. lia. }
    rewrite length_set in IHlen. split; [exact IHlen|].
    intros j. rewrite IHget. clear IH IHlen IHget.
    rewrite get_set.
    destruct (Nat.leb_spec (S k) j) as [Hlo|Hlo]; cbn [andb].
    + replace (k <=? j) with true by (symmetry; apply Nat.leb_le; lia).
      replace (k =? j) with false by (symmetry; apply Nat.eqb_neq; lia).
      replace (j <? k + S (length freqs)) with (j <? S k + length freqs)
        by (f_equal; lia).
      cbn [andb]. destruct (j <? S k + length freqs); [|reflexivity].
      replace (j - k) with (S (j - S k)) by lia. reflexivity.
    + destruct (Nat.eqb_spec k j) as [->|Hne]; cbn [andb].
      * replace (j <=? j) with true by (symmetry; apply Nat.leb_le; lia).
        replace (j <? length tables) with true
          by (symmetry; apply Nat.ltb_lt; lia).
        replace (j <? j + S (length freqs)) with true
          by (symmetry; apply Nat.ltb_lt; lia).
        rewrite Nat.sub_diag. reflexivity.
      * replace (k <=? j) with false by (symmetry; apply Nat.leb_gt; lia).
        reflexivity.
Qed.

End Builder.

(** C5.  [antialiase] transforms the signal once; table [i] of its output
    is the real inverse transform of [antialiase_dft] applied to a copy of
    that one spectrum with frequency [i], whatever the frequencies before
    it were; the tables come in the order of the frequencies, and the
    buffers after them are not written. *)
Theorem antialiase_tables_independent :
  forall (T : Type) (F : Floating T) (c : FFTCalculator T)
         (signal freqs : list T) (tables : list (list T)) (samplerate : T),
    length freqs <= length tables ->
    length (antialiase signal freqs tables samplerate c) = length tables /\
    (forall i, i < length freqs ->
       nth_error (antialiase signal freqs tables samplerate c) i
       = Some (calc_ifft_real c
                 (antialiase_dft
                    (calc_fft_of_real c signal (repeat czero (N c)))
                    samplerate (nth i freqs fzero))
                 (nth i tables []))) /\
    (forall i, length freqs <= i ->
       nth_error (antialiase signal freqs tables samplerate c) i
       = nth_error tables i).
Proof.
  intros T F c signal freqs tables sr Hlen. unfold antialiase.
  destruct (antialiase_loop_tables c
              (calc_fft_of_real c signal (repeat czero (N c))) sr
              freqs 0 tables Hlen) as [Hl Hget].
  split; [exact Hl|]. split.
  - intros i Hi. rewrite (nth_error_nth' _ []) by lia. f_equal.
    change (nth i ?l []) with (get [] l i). rewrite Hget.
    replace (i <? 0 + length freqs) with true
      by (symmetry; apply Nat.ltb_lt; lia).
    cbn [Nat.leb andb]. rewrite Nat.sub_0_r. reflexivity.
  - intros i Hi.
    destruct (Nat.ltb_spec i (length tables)) as [Hlt|Hge].
    + rewrite !(nth_error_nth' _ []) by lia. f_equal.
      change (nth i ?l []) with (get [] l i). rewrite Hget.
      replace (i <? 0 + length freqs) with false
        by (symmetry; apply Nat.ltb_ge; lia).
      rewrite andb_false_r. reflexivity.
    + transitivity (@None (list T)); [|symmetry];
        apply nth_error_None; lia.
Qed.

(** The calculator for four doubles, and a signal of four samples. *)
Definition calculator4 : FFTCalculator float :=
  {| N := 4; log_n := 2; nrm := 0.5%float;
     butterfly_indices := [0; 2; 1; 3]%Z;
     z := [mkComplex (-1) 0; mkComplex 0 1]%float |}.

Definition signal4 : list float := [1; -1; 1; -1]%float.

Definition zeros4 : list (list float) :=
  [[0; 0; 0; 0]; [0; 0; 0; 0]; [0; 0; 0; 0]]%float.

Lemma antialiase_tables_independent_witness :
  length (antialiase signal4 [1; 3]%float zeros4 8%float calculator4)
  = length zeros4 /\
  (forall i, i < length [1; 3]%float ->
     nth_error (antialiase signal4 [1; 3]%float zeros4 8%float calculator4) i
     = Some (calc_ifft_real calculator4
               (antialiase_dft
                  (calc_fft_of_real calculator4 signal4
                     (repeat czero (N calculator4)))
                  8%float (nth i [1; 3]%float fzero))
               (nth i zeros4 []))) /\
  (forall i, length [1; 3]%float <= i ->
     nth_error (antialiase signal4 [1; 3]%float zeros4 8%float calculator4) i
     = nth_error zeros4 i).
Proof.
  apply (@antialiase_tables_independent float _ calculator4 signal4
           [1; 3]%float zeros4 8%float).
  cbn. lia.
Defined.

(** The members of the calculator on doubles: the transform of 1, 2, 3, 4
    (scaled by 1/2, with the rotation by +pi/2 in the forward direction)
    and its inverse. *)
Example calc_fft_1234 :
  calc_fft calculator4 (map of_real [1; 2; 3; 4]%float) (repeat czero 4)
  = [mkComplex 5 0; mkComplex (-1) (-1); mkComplex (-1) 0; mkComplex (-1) 1]%float.
Proof. vm_compute. reflexivity. Qed.

Example calc_ifft_fft_1234 :
  calc_ifft calculator4
    (calc_fft calculator4 (map of_real [1; 2; 3; 4]%float) (repeat czero 4))
    (repeat czero 4)
  = map of_real [1; 2; 3; 4]%float.
Proof. vm_compute. reflexivity. Qed.

Example antialiase_signal4 :
  antialiase signal4 [1; 3]%float zeros4 8%float calculator4
  = [[1; -1; 1; -1]; [0; 0; 0; 0]; [0; 0; 0; 0]]%float.
Proof. vm_compute. reflexivity. Qed.

End AntialiaseFacts.

Module OscillatorFacts.
Import Oscillator.

Section Selection.
Context {T : Type} `{Floating T}.

(** The forward search stops at the first table whose bound is not below
    the frequency, and at [end] when there is none. *)
Lemma selectTable_from_first (tables : list (Wavetable T)) (f : T) :
  forall position,
  let it := selectTable_from position tables f in
  position <= it <= position + length tables /\
  (forall j, j < it - position ->
     fle f (getMaximumPlaybackFrequency (nth j tables no_table)) = false) /\
  (it < position + length tables ->
     fle f (getMaximumPlaybackFrequency (nth (it - position) tables no_table))
     = true).
Proof.
  induction tables as [|t tables IH]; intros position; cbn [selectTable_from length].
  - cbv zeta. split; [lia|]. split; intros; lia.
  - destruct (fle f (getMaximumPlaybackFrequency t)) eqn:Hle; cbv zeta.
    + split; [lia|]. split.
      * intros j Hj. lia.
      * intros _. rewrite Nat.sub_diag. exact Hle.
    + specialize (IH (S position)). cbv zeta in IH.
      destruct IH as [Hrange [Hbefore Hat]].
      split; [lia|]. split.
      * intros [|j] Hj; cbn [nth]; [exact Hle|]. apply Hbefore. lia.
      * intros Hlt.
        replace (selectTable_from (S position) tables f - position)
          with (S (selectTable_from (S position) tables f - S position)) by lia.
        cbn [nth]. apply Hat. lia.
Qed.

(** The index the private [selectTable] settles on when it searches: the
    forward search, and the last table when the search ends at [end]. *)
Definition selected_index (tables : list (Wavetable T)) (f : T) : nat :=
  let it := ForwardSearchTableSelector_selectTable tables f in
  if it =? length tables then it - 1 else it.

Lemma selected_index_spec (tables : list (Wavetable T)) (f : T) :
  tables <> [] ->
  selected_index tables f < length tables /\
  (forall j, j < selected_index tables f ->
     fle f (getMaximumPlaybackFrequency (nth j tables no_table)) = false) /\
  (fle f (getMaximumPlaybackFrequency
            (nth (selected_index tables f) tables no_table)) = true
   \/ (selected_index tables f = length tables - 1 /\
       forall j, j < length tables ->
         fle f (getMaximumPlaybackFrequency (nth j tables no_table)) = false)).
Proof.
  intros Hne.
  assert (Hlen : 0 < length tables) by (destruct tables; cbn; [congruence|lia]).
  unfold selected_index, ForwardSearchTableSelector_selectTable.
  pose proof (selectTable_from_first tables f 0) as Hs. cbv zeta in Hs.
  destruct Hs as [Hrange [Hbefore Hat]].
  rewrite Nat.sub_0_r in Hbefore, Hat.
  destruct (Nat.eqb_spec (selectTable_from 0 tables f) (length tables))
    as [Heq|Hneq].
  - split; [lia|]. split.
    + intros j Hj. apply Hbefore. lia.
    + right. split; [lia|]. intros j Hj. apply Hbefore. lia.
  - split; [lia|]. split.
    + exact Hbefore.
    + left. apply Hat. lia.
Qed.

(** When the frequency is outside the cached interval, [selectTable]
    searches, and the table it selects is [selected_index]. *)
Lemma selectTable_searches (o : WavetableOscillator T) (tables : list (Wavetable T)) :
  wavetables o = Some tables ->
  tables <> [] ->
  (forall t, In t tables -> 0 < size t) ->
  fle (frequency o) (topFreq o) && flt (bottomFreq o) (frequency o) = false ->
  exists o',
    selectTable o = Some o' /\
    currentTable o' = Some (selected_index tables (frequency o)) /\
    current o' = nth (selected_index tables (frequency o)) tables no_table /\
    currentTableSize o' = size (current o') /\
    topFreq o' = getMaximumPlaybackFrequency (current o') /\
    wavetables o' = Some tables /\
    frequency o' = frequency o /\
    sampleRateInv o' = sampleRateInv o.
Proof.
  intros Hw Hne Hsizes Hmiss. unfold selectTable. rewrite Hmiss, Hw.
  destruct (selected_index_spec (frequency o) Hne) as [Hlt _].
  assert (Hlen : (length tables =? 0) = false)
    by (apply Nat.eqb_neq; destruct tables; cbn; [congruence|lia]).
  rewrite Hlen. fold (selected_index tables (frequency o)).
  set (it := selected_index tables (frequency o)) in *.
  assert (Hsz : 0 < size (nth it tables no_table))
    by (apply Hsizes, nth_In, Hlt).
  replace (size (nth it tables no_table) =? 0) with false
    by (symmetry; apply Nat.eqb_neq; lia).
  eexists. split; [reflexivity|].
  unfold current. cbn. repeat split; reflexivity.
Qed.

End Selection.

(** Three tables of 1024 samples for the bounds 500, 2000 and 8000 Hz, in
    doubles.  The samples play no part in the selection: the read of a
    table is the identity here. *)
Definition table_of (bound : float) : Wavetable float :=
  {| size := 1024; getMaximumPlaybackFrequency := bound; lookup := fun x => x |}.

Definition tables_500_2000_8000 : list (Wavetable float) :=
  map table_of [500; 2000; 8000]%float.

(** The table selected after [setFrequency(f)] on an oscillator built over
    the three tables at 44100 Hz with the frequency [f0]. *)
Definition selected_after (f0 f : float) : option (option nat) :=
  match new_oscillator tables_500_2000_8000 44100%float f0 with
  | Some o => option_map getSelectedTable (setFrequency o f)
  | None => None
  end.

(** C3, the claim as stated: 3000 Hz would select the table of index 1.
    The bound of that table is 2000 Hz, below 3000 Hz; the first table whose
    bound is at least 3000 Hz is the one of index 2. *)
Lemma setFrequency_3000_not_index_1 :
  selected_after 400%float 3000%float <> Some (Some 1).
Proof. vm_compute. discriminate. Qed.

(** C3, amended.  When [selectTable] searches (the frequency is outside the
    cached interval) over a set that is not empty and has no empty table, it
    returns, and the table it selects is the first one whose
    [maximumPlaybackFrequency] is greater than or equal to the frequency;
    when no table qualifies it is the last table of the set.  Over the
    bounds [500, 2000, 8000], [setFrequency(400)] selects index 0,
    [setFrequency(3000)] index 2 and [setFrequency(20000)] index 2. *)
Theorem table_selection :
  (forall (T : Type) (F : Floating T) (o : WavetableOscillator T)
          (tables : list (Wavetable T)),
      wavetables o = Some tables ->
      tables <> [] ->
      (forall t, In t tables -> 0 < size t) ->
      fle (frequency o) (topFreq o) && flt (bottomFreq o) (frequency o) = false ->
      exists o' it,
        selectTable o = Some o' /\
        getSelectedTable o' = Some it /\
        it < length tables /\
        (forall j, j < it ->
           fle (frequency o)
               (getMaximumPlaybackFrequency (nth j tables no_table)) = false) /\
        (fle (frequency o)
             (getMaximumPlaybackFrequency (nth it tables no_table)) = true
         \/ (it = length tables - 1 /\
             forall j, j < length tables ->
               fle (frequency o)
                   (getMaximumPlaybackFrequency (nth j tables no_table))
               = false))) /\
  (forall f0, In f0 [400; 3000; 20000]%float ->
      selected_after f0 400%float = Some (Some 0) /\
      selected_after f0 3000%float = Some (Some 2) /\
      selected_after f0 20000%float = Some (Some 2)).
Proof.
  split.
  - intros T F o tables Hw Hne Hsizes Hmiss.
    destruct (selectTable_searches o Hw Hne Hsizes Hmiss)
      as [o' [Hsel [Hcur _]]].
    exists o', (selected_index tables (frequency o)).
    destruct (selected_index_spec (frequency o) Hne) as [Hlt [Hbefore Hat]].
    repeat split; assumption.
  - intros f0 [<-|[<-|[<-|[]]]]; repeat split; vm_compute; reflexivity.
Qed.

Section Retuning.
Context {T : Type} `{Floating T}.

(** The oscillator [o] with the frequency [f] and the increment that goes
    with it, and every other member as it is in [o]. *)
Definition retuned (o : WavetableOscillator T) (f : T) : WavetableOscillator T :=
  {| sampleRateInv := sampleRateInv o;
     frequency := f;
     delta := fmul (fmul f (of_size (currentTableSize o))) (sampleRateInv o);
     currentSamplePosition := currentSamplePosition o;
     value := value o;
     wavetables := wavetables o;
     currentTable := currentTable o;
     currentTableSize := currentTableSize o;
     topFreq := topFreq o;
     bottomFreq := bottomFreq o |}.

(** Inside the cached interval [setFrequency] does not search. *)
Lemma setFrequency_cached (o : WavetableOscillator T) (f : T) :
  flt (bottomFreq o) f = true -> fle f (topFreq o) = true ->
  setFrequency o f
  = if flt (fmul f (sampleRateInv o)) fone then Some (retuned o f) else None.
Proof.
  intros Hlo Hhi. unfold setFrequency, selectTable. cbn.
  rewrite Hlo, Hhi. cbn. reflexivity.
Qed.

End Retuning.

(** C7.  A call of [setFrequency] with a value in the cached interval
    [(bottomFreq, topFreq]] does not search for a table: it returns the
    oscillator with the new frequency and the increment that goes with it,
    and every other member, the selected table among them, as it was.  So
    after two calls with values of that interval the selected table is the
    one selected before.  (The assertion on the frequency comes before the
    test of the interval; a call whose frequency fails it aborts, which is
    the only other outcome.) *)
Theorem setFrequency_keeps_table :
  forall (T : Type) (F : Floating T) (o : WavetableOscillator T) (f1 f2 : T),
    flt (bottomFreq o) f1 = true -> fle f1 (topFreq o) = true ->
    flt (bottomFreq o) f2 = true -> fle f2 (topFreq o) = true ->
    match setFrequency o f1 with
    | Some o1 =>
        o1 = retuned o f1 /\
        getSelectedTable o1 = getSelectedTable o /\
        match setFrequency o1 f2 with
        | Some o2 =>
            o2 = retuned o f2 /\ getSelectedTable o2 = getSelectedTable o
        | None => flt (fmul f2 (sampleRateInv o)) fone = false
        end
    | None => flt (fmul f1 (sampleRateInv o)) fone = false
    end.
Proof.
  intros T F o f1 f2 Hlo1 Hhi1 Hlo2 Hhi2.
  rewrite (setFrequency_cached o f1 Hlo1 Hhi1).
  destruct (flt (fmul f1 (sampleRateInv o)) fone); [|reflexivity].
  split; [reflexivity|]. split; [reflexivity|].
  rewrite (setFrequency_cached (retuned o f1) f2 Hlo2 Hhi2). cbn.
  destruct (flt (fmul f2 (sampleRateInv o)) fone); [|reflexivity].
  split; reflexivity.
Qed.

(** The oscillator over the three tables at 600 Hz: table 1 is selected,
    the cached interval is (500, 2000]. *)
Definition tuned_600 : WavetableOscillator float :=
  match new_oscillator tables_500_2000_8000 44100%float 600%float with
  | Some o => o
  | None => default_oscillator
  end.

Example tuned_600_interval :
  getSelectedTable tuned_600 = Some 1 /\
  bottomFreq tuned_600 = 500%float /\ topFreq tuned_600 = 2000%float.
Proof. repeat split; vm_compute; reflexivity. Qed.

(** [tuned_600] retuned to 700 Hz and then to 1900 Hz. *)
Lemma setFrequency_keeps_table_witness :
  match setFrequency tuned_600 700%float with
  | Some o1 =>
      o1 = retuned tuned_600 700%float /\
      getSelectedTable o1 = getSelectedTable tuned_600 /\
      match setFrequency o1 1900%float with
      | Some o2 =>
          o2 = retuned tuned_600 1900%float /\
          getSelectedTable o2 = getSelectedTable tuned_600
      | None => flt (fmul 1900%float (sampleRateInv tuned_600)) fone = false
      end
  | None => flt (fmul 700%float (sampleRateInv tuned_600)) fone = false
  end.
Proof.
  apply (@setFrequency_keeps_table float _ tuned_600 700%float 1900%float);
    vm_compute; reflexivity.
Defined.

Example retuned_twice_selects_1 :
  match setFrequency tuned_600 700%float with
  | Some o1 => option_map getSelectedTable (setFrequency o1 1900%float)
  | None => None
  end = Some (Some 1).
Proof. vm_compute. reflexivity. Qed.


(** A morphing oscillator over the three tables at 64 Hz and a sample rate
    of 32768 Hz (an increment of 2 samples), the second child one step
    ahead of the first, a quarter of the way to the second child: the
    children move to 2 and to 4 and the result is 0.75 * 2 + 0.25 * 4. *)
Example morphing_oscillator_tick :
  match new_oscillator tables_500_2000_8000 32768%float 64%float with
  | Some o =>
      let r := morph_pre_increment
                 {| param := 0.25%float; osc1 := o; osc2 := snd (pre_increment o) |} in
      (fst r, currentSamplePosition (osc1 (snd r)),
       currentSamplePosition (osc2 (snd r)))
  | None => (0, 0, 0)%float
  end = (2.5, 2, 4)%float.
Proof. vm_compute. reflexivity. Qed.

(** *** The assertion of [setFrequency] *)

(** The largest double below 105. *)
Definition below_105 : float := PrimFloat.next_down 105%float.

(** C8.  The failing inputs, in doubles.  The assertion compares the
    product of the frequency with the member [sampleRateInv], the rounded
    reciprocal [1.0 / sampleRate], and not the frequency with the sample
    rate.  At a sample rate of 49 Hz the frequency 49 Hz, which is not
    below the sample rate, passes: 49 times the rounded reciprocal rounds
    to the double before 1, and the constructor and [setFrequency]
    return.  At a sample rate of 105 Hz the largest double below 105, which
    is below the sample rate, fails: the product rounds to 1, and the
    constructor and [setFrequency] abort. *)
Theorem setFrequency_49_at_49_passes :
  (flt 49%float 49%float = false /\
   flt (fmul 49%float (sampleRateInv (oscillator_of_sampleRate 49%float))) fone
   = true /\
   new_oscillator tables_500_2000_8000 49%float 49%float <> None /\
   (exists o, new_oscillator tables_500_2000_8000 49%float 1%float = Some o /\
      setFrequency o 49%float <> None)) /\
  (flt below_105 105%float = true /\
   fmul below_105 (sampleRateInv (oscillator_of_sampleRate 105%float)) = fone /\
   new_oscillator tables_500_2000_8000 105%float below_105 = None /\
   (exists o, new_oscillator tables_500_2000_8000 105%float 1%float = Some o /\
      setFrequency o below_105 = None)).
Proof.
  split; repeat split; try (vm_compute; reflexivity).
  - vm_compute. discriminate.
  - destruct (new_oscillator tables_500_2000_8000 49%float 1%float)
      as [o|] eqn:Ho; [|vm_compute in Ho; discriminate].
    exists o. split; [reflexivity|].
    vm_compute in Ho. injection Ho as <-. vm_compute. discriminate.
  - destruct (new_oscillator tables_500_2000_8000 105%float 1%float)
      as [o|] eqn:Ho; [|vm_compute in Ho; discriminate].
    exists o. split; [reflexivity|].
    vm_compute in Ho. injection Ho as <-. vm_compute. reflexivity.
Qed.

Lemma Rltb_true (x y : R) : Exact.Rltb x y = true <-> (x < y)%R.
Proof.
  unfold Exact.Rltb. destruct (Rlt_dec x y); split; intros; auto; discriminate.
Qed.

Lemma Rleb_true (x y : R) : Exact.Rleb x y = true <-> (x <= y)%R.
Proof.
  unfold Exact.Rleb. destruct (Rle_dec x y); split; intros; auto; discriminate.
Qed.

Lemma Rltb_false (x y : R) : Exact.Rltb x y = false <-> (y <= x)%R.
Proof.
  unfold Exact.Rltb. destruct (Rlt_dec x y); split; intros; auto;
    try discriminate; lra.
Qed.

Lemma Rleb_false (x y : R) : Exact.Rleb x y = false <-> (y < x)%R.
Proof.
  unfold Exact.Rleb. destruct (Rle_dec x y); split; intros; auto;
    try discriminate; lra.
Qed.

(** In exact arithmetic the product with the reciprocal of a positive
    sample rate is below 1 exactly for the frequencies below the rate. *)
Lemma below_sample_rate (sampleRate f : R) :
  (0 < sampleRate)%R ->
  (f * (1 / sampleRate) < 1)%R <-> (f < sampleRate)%R.
Proof.
  intros Hs.
  replace (f * (1 / sampleRate))%R with (f / sampleRate)%R
    by (field; lra).
  split; intros Hlt.
  - apply (Rmult_lt_reg_r (/ sampleRate)); [apply Rinv_0_lt_compat, Hs|].
    rewrite Rinv_r by lra. exact Hlt.
  - apply (Rmult_lt_compat_r (/ sampleRate)) in Hlt;
      [|apply Rinv_0_lt_compat, Hs].
    rewrite Rinv_r in Hlt by lra. exact Hlt.
Qed.

(** An oscillator over the three tables at 3000 Hz, before it has selected
    a table. *)
Definition unselected_3000 : WavetableOscillator float :=
  {| sampleRateInv := (1 / 44100)%float; frequency := 3000%float;
     delta := 0%float; currentSamplePosition := 0%float; value := 0%float;
     wavetables := Some tables_500_2000_8000;
     currentTable := None; currentTableSize := 0;
     topFreq := 0%float; bottomFreq := 0%float |}.

Lemma table_selection_witness :
  exists o' it,
    selectTable unselected_3000 = Some o' /\
    getSelectedTable o' = Some it /\
    it < length tables_500_2000_8000 /\
    (forall j, j < it ->
       fle (frequency unselected_3000)
           (getMaximumPlaybackFrequency (nth j tables_500_2000_8000 no_table))
       = false) /\
    (fle (frequency unselected_3000)
         (getMaximumPlaybackFrequency (nth it tables_500_2000_8000 no_table))
     = true
     \/ (it = length tables_500_2000_8000 - 1 /\
         forall j, j < length tables_500_2000_8000 ->
           fle (frequency unselected_3000)
               (getMaximumPlaybackFrequency
                  (nth j tables_500_2000_8000 no_table))
           = false)).
Proof.
  apply (proj1 table_selection float _ unselected_3000 tables_500_2000_8000).
  - reflexivity.
  - discriminate.
  - intros t [<-|[<-|[<-|[]]]]; cbn; lia.
  - vm_compute. reflexivity.
Defined.

(** *** The sample position *)

(** A negative frequency is below the sample rate and passes the
    assertion, its increment is below the table length, and the first
    advance takes the position below 0: the advance wraps at the end of the
    table only.  One table of 4 samples, a sample rate of 8 Hz and a
    frequency of -1 Hz, in doubles: the increment is -0.5. *)
Lemma negative_frequency_leaves_table :
  exists o,
    new_oscillator [{| size := 4; getMaximumPlaybackFrequency := 1000%float;
                       lookup := fun x => x |}] 8%float (-1)%float = Some o /\
    currentTableSize o = 4 /\
    flt (frequency o) 8%float = true /\
    flt (delta o) (of_size (currentTableSize o)) = true /\
    fle fzero (currentSamplePosition o) = true /\
    flt (currentSamplePosition o) (of_size (currentTableSize o)) = true /\
    currentSamplePosition (snd (pre_increment o)) = (-0.5)%float /\
    flt (currentSamplePosition (snd (pre_increment o))) fzero = true.
Proof.
  eexists. split; [vm_compute; reflexivity|].
  repeat split; vm_compute; reflexivity.
Qed.

(** One table of 5 samples, and the two doubles before 10. *)
Definition table_of_5 : Wavetable float :=
  {| size := 5; getMaximumPlaybackFrequency := 1000%float;
     lookup := fun x => x |}.
Definition below_10 : float := PrimFloat.next_down 10%float.
Definition below_below_10 : float := PrimFloat.next_down below_10.

(** C4.  The failing input, in doubles, through the public interface: one
    table of 5 samples and a sample rate of 10 Hz.  The oscillator is
    constructed at the second double below 10, advanced once, retuned with
    [setFrequency] to the double below 10, and advanced again.  Every call
    returns, both frequencies are in [[0, sampleRate)], the table length
    [L] is 5 throughout; the increment after the retuning is
    [f * 5 * (1.0 / 10)] rounded, which is 5 = [L] and not below [L]; the
    position before the last advance is inside the table, the sum
    [position + delta] rounds to 10, and the single subtraction of [L]
    leaves the position at 5 = [L], outside [[0, L)]. *)
Theorem position_reaches_table_length :
  exists o0 o2,
    new_oscillator [table_of_5] 10%float below_below_10 = Some o0 /\
    setFrequency (snd (pre_increment o0)) below_10 = Some o2 /\
    (fle fzero below_below_10 = true /\ flt below_below_10 10%float = true) /\
    (fle fzero below_10 = true /\ flt below_10 10%float = true) /\
    (currentTableSize o0 = 5 /\ currentTableSize o2 = 5 /\
     currentTableSize (snd (pre_increment o2)) = 5) /\
    (fle fzero (currentSamplePosition o0) = true /\
     flt (currentSamplePosition o0) (of_size 5) = true) /\
    (fle fzero (currentSamplePosition o2) = true /\
     flt (currentSamplePosition o2) (of_size 5) = true) /\
    delta o2 = 5%float /\
    flt (delta o2) (of_size 5) = false /\
    currentSamplePosition (snd (pre_increment o2)) = 5%float /\
    flt (currentSamplePosition (snd (pre_increment o2))) (of_size 5) = false.
Proof.
  eexists. eexists.
  split; [vm_compute; reflexivity|].
  split; [vm_compute; reflexivity|].
  repeat split; vm_compute; reflexivity.
Qed.

(** The position is inside the selected table. *)
Definition in_table (o : WavetableOscillator R) : Prop :=
  (0 <= currentSamplePosition o < of_size (currentTableSize o))%R.

Lemma of_size_positive (n : nat) : 0 < n -> (1 <= of_size (T:=R) n)%R.
Proof.
  intros Hn. unfold of_size. cbn. apply IZR_le. lia.
Qed.

(** [std::max(0., std::min(top, p))] is between 0 and [top]. *)
Lemma clamp_bounds (top p : R) :
  (0 <= top)%R -> (0 <= fmax fzero (fmin top p) <= top)%R.
Proof.
  intros Htop. unfold fmax, fmin. cbn. unfold Exact.Rltb.
  destruct (Rlt_dec p top); destruct (Rlt_dec 0 _); lra.
Qed.

Lemma increment_bounds (f L inv : R) :
  (0 <= f)%R -> (0 < L)%R -> (0 <= inv)%R -> (f * inv < 1)%R ->
  (0 <= f * L * inv < L)%R.
Proof.
  intros Hf HL Hinv Hlt.
  replace (f * L * inv)%R with (L * (f * inv))%R by ring.
  assert (0 <= f * inv)%R by (apply Rmult_le_pos; assumption).
  split.
  - apply Rmult_le_pos; lra.
  - rewrite <- (Rmult_1_r L) at 2. apply Rmult_lt_compat_l; assumption.
Qed.

Lemma step_in_table (o : WavetableOscillator R) :
  (0 <= delta o < of_size (currentTableSize o))%R ->
  in_table o -> in_table (step o).
Proof.
  unfold in_table, step, with_position, of_size. cbn.
  intros Hd Hp. unfold Exact.Rleb.
  destruct (Rle_dec _ _); lra.
Qed.

End OscillatorFacts.

(* ================================================================== *)
(** * The transform in exact arithmetic *)
(* ================================================================== *)

(** The complex numbers over the reals, with the operations of the
    embedding, are a commutative ring. *)
Module ComplexRing.

Abbreviation C := (complex R).

Definition copp (a : C) : C := mkComplex (- real a)%R (- imag a)%R.

Lemma complex_eq (a b : C) : real a = real b -> imag a = imag b -> a = b.
Proof. destruct a, b. cbn. intros -> ->. reflexivity. Qed.

Ltac by_parts :=
  intros; apply complex_eq; cbn; ring.

Lemma C_ring : ring_theory (czero : C) cone cadd cmul csub copp eq.
Proof.
  constructor; by_parts.
Qed.

Add Ring complex_ring : C_ring.

Declare Scope cplx_scope.
Delimit Scope cplx_scope with C.
Notation "0" := (czero : C) : cplx_scope.
Notation "1" := (cone : C) : cplx_scope.
Infix "+" := (cadd (T:=R)) : cplx_scope.
Infix "-" := (csub (T:=R)) : cplx_scope.
Infix "*" := (cmul (T:=R)) : cplx_scope.
Notation "- x" := (copp x) : cplx_scope.

Local Open Scope cplx_scope.

(** Powers by a natural number. *)
Fixpoint cpow (w : C) (n : nat) : C :=
  match n with
  | O => 1
  | S n' => cpow w n' * w
  end.

Lemma cpow_add (w : C) (n m : nat) : cpow w (n + m) = cpow w n * cpow w m.
Proof.
  induction m as [|m IH].
  - rewrite Nat.add_0_r. cbn. ring.
  - rewrite Nat.add_succ_r. cbn. rewrite IH. ring.
Qed.

Lemma cpow_mul (w : C) (n m : nat) : cpow w (n * m) = cpow (cpow w n) m.
Proof.
  induction m as [|m IH].
  - rewrite Nat.mul_0_r. reflexivity.
  - rewrite Nat.mul_succ_r, cpow_add, IH. reflexivity.
Qed.

Lemma cpow_1_l (n : nat) : cpow 1 n = 1.
Proof. induction n as [|n IH]; cbn; [reflexivity|]. rewrite IH. ring. Qed.

Lemma cpow_mul_l (a b : C) (n : nat) : cpow (a * b) n = cpow a n * cpow b n.
Proof. induction n as [|n IH]; cbn; [ring|]. rewrite IH. ring. Qed.

Lemma cpow_neg1_even (n : nat) : cpow (- (1)) (2 * n) = 1.
Proof.
  rewrite cpow_mul. replace (cpow (- (1)) 2) with 1 by (cbn; ring).
  apply cpow_1_l.
Qed.

Lemma cpow_neg1_odd (n : nat) : cpow (- (1)) (2 * n + 1) = - (1).
Proof. rewrite cpow_add, cpow_neg1_even. cbn. ring. Qed.

(** Finite sums: [csum n f] is [f 0 + ... + f (n - 1)]. *)
Fixpoint csum (n : nat) (f : nat -> C) : C :=
  match n with
  | O => 0
  | S n' => csum n' f + f n'
  end.

Lemma csum_ext (n : nat) (f g : nat -> C) :
  (forall i, i < n -> f i = g i) -> csum n f = csum n g.
Proof.
  induction n as [|n IH]; intros Hfg; cbn; [reflexivity|].
  rewrite IH, Hfg by (intros; auto with arith). reflexivity.
Qed.

Lemma csum_zero (n : nat) : csum n (fun _ => 0) = 0.
Proof. induction n as [|n IH]; cbn; [reflexivity|]. rewrite IH. ring. Qed.

Lemma csum_add (n : nat) (f g : nat -> C) :
  csum n (fun i => f i + g i) = csum n f + csum n g.
Proof. induction n as [|n IH]; cbn; [ring|]. rewrite IH. ring. Qed.

Lemma csum_sub (n : nat) (f g : nat -> C) :
  csum n (fun i => f i - g i) = csum n f - csum n g.
Proof. induction n as [|n IH]; cbn; [ring|]. rewrite IH. ring. Qed.

Lemma csum_scale (n : nat) (c : C) (f : nat -> C) :
  csum n (fun i => c * f i) = c * csum n f.
Proof. induction n as [|n IH]; cbn; [ring|]. rewrite IH. ring. Qed.

(** A sum over [2 n] indices splits into its even and its odd indices. *)
Lemma csum_even_odd (n : nat) (f : nat -> C) :
  csum (2 * n) f
  = csum n (fun j => f (2 * j)%nat) + csum n (fun j => f (2 * j + 1)%nat).
Proof.
  induction n as [|n IH]; [cbn; ring|].
  replace (2 * S n)%nat with (S (S (2 * n))) by lia.
  cbn [csum]. rewrite IH.
  replace (S (2 * n)) with (2 * n + 1)%nat by lia. ring.
Qed.

(** A sum over [n + m] indices splits at [n]. *)
Lemma csum_app (n m : nat) (f : nat -> C) :
  csum (n + m) f = csum n f + csum m (fun j => f (n + j)%nat).
Proof.
  induction m as [|m IH].
  - rewrite Nat.add_0_r. cbn. ring.
  - rewrite Nat.add_succ_r. cbn [csum]. rewrite IH. ring.
Qed.

(** The order of two sums can be exchanged. *)
Lemma csum_swap (n m : nat) (f : nat -> nat -> C) :
  csum n (fun i => csum m (fun j => f i j))
  = csum m (fun j => csum n (fun i => f i j)).
Proof.
  induction n as [|n IH]; cbn [csum].
  - rewrite csum_zero. reflexivity.
  - rewrite IH, <- csum_add. reflexivity.
Qed.

(** A sum with one term that is not zero. *)
Lemma csum_single (n k : nat) (f : nat -> C) :
  k < n -> (forall i, i < n -> i <> k -> f i = 0) -> csum n f = f k.
Proof.
  induction n as [|n IH]; intros Hk Hz; [lia|]. cbn [csum].
  destruct (Nat.eq_dec k n) as [->|Hne].
  - rewrite (@csum_ext n f (fun _ => 0)), csum_zero by (intros; apply Hz; lia).
    ring.
  - rewrite IH, (Hz n) by (try lia; intros; apply Hz; lia). ring.
Qed.

End ComplexRing.

(** The rotations of the passes are roots of unity. *)
Module Roots.
Import ComplexRing FFT.
Local Open Scope cplx_scope.

(** The rotation [wm] of pass [s] in [detail::fft]:
    [std::polar(T(1), T(dir) * pi / T(m2))] with [m2 = 1 << s]. *)
Definition rotation (dir : FFTDirection) (s : nat) : C :=
  polar fone
    (fdiv (fmul (of_int (direction_value dir)) fpi)
          (of_int (Z.of_nat (Nat.shiftl 1 s)))).

Lemma cscale_cmul (x : R) (a : C) : cscale x a = of_real x * a.
Proof. apply complex_eq; cbn; ring. Qed.

Lemma IZR_pow2 (s : nat) : IZR (Z.of_nat (Nat.shiftl 1 s)) = (2 ^ s)%R.
Proof.
  rewrite Nat.shiftl_1_l, Nat2Z.inj_pow. change (Z.of_nat 2) with 2%Z.
  rewrite <- pow_IZR. reflexivity.
Qed.

Lemma pow2_pos (s : nat) : (0 < 2 ^ s)%R.
Proof. apply pow_lt. lra. Qed.

Lemma direction_cases (dir : FFTDirection) :
  IZR (direction_value dir) = 1%R \/ IZR (direction_value dir) = (-1)%R.
Proof. destruct dir; cbn; auto. Qed.

(** The rotation of the first pass is -1. *)
Lemma rotation_0 (dir : FFTDirection) : rotation dir 0 = - (1).
Proof.
  unfold rotation, polar. cbn -[cos sin PI].
  replace (IZR (direction_value dir) * PI / 1)%R
    with (IZR (direction_value dir) * PI)%R by field.
  apply complex_eq; cbn -[cos sin PI];
    destruct (direction_cases dir) as [-> | ->];
    rewrite ?Rmult_1_l;
    replace (-1 * PI)%R with (- PI)%R by ring;
    rewrite ?cos_neg, ?sin_neg, ?cos_PI, ?sin_PI; ring.
Qed.

(** The square of the rotation of a pass is the rotation of the pass
    before. *)
Lemma rotation_square (dir : FFTDirection) (s : nat) :
  rotation dir (S s) * rotation dir (S s) = rotation dir s.
Proof.
  unfold rotation, polar. cbn -[cos sin PI Nat.shiftl].
  rewrite !IZR_pow2.
  set (a := (IZR (direction_value dir) * PI / 2 ^ S s)%R).
  replace (IZR (direction_value dir) * PI / 2 ^ s)%R with (2 * a)%R.
  2:{ unfold a. cbn [pow]. field. apply Rgt_not_eq, pow2_pos. }
  rewrite cos_2a, sin_2a.
  apply complex_eq; cbn -[cos sin PI]; ring.
Qed.

Lemma cpow_square (w : C) (n : nat) : cpow (w * w) n = cpow w (2 * n).
Proof.
  rewrite (cpow_mul w 2 n). f_equal. cbn. ring.
Qed.

(** The rotation of pass [s] is a [2^(s+1)]-th root of unity whose
    [2^s]-th power is -1. *)
Lemma rotation_pow (dir : FFTDirection) (s : nat) :
  cpow (rotation dir s) (2 ^ s) = - (1).
Proof.
  induction s as [|s IH].
  - cbn. rewrite rotation_0. ring.
  - cbn [Nat.pow]. rewrite <- cpow_square, rotation_square. exact IH.
Qed.

(** The rotations of the two directions are inverses of each other, and
    the backward one is the conjugate of the forward one. *)
Lemma rotation_conj (s : nat) : rotation Backward s = cconj (rotation Forward s).
Proof.
  unfold rotation, polar, cconj. cbn -[cos sin PI Nat.shiftl].
  set (m := IZR (Z.of_nat (Nat.shiftl 1 s))).
  replace (-1 * PI / m)%R with (- (1 * PI / m))%R
    by (unfold Rdiv; ring).
  rewrite cos_neg, sin_neg. apply complex_eq; cbn -[cos sin PI]; ring.
Qed.

Lemma rotation_inverse (s : nat) : rotation Forward s * rotation Backward s = 1.
Proof.
  rewrite rotation_conj. unfold rotation, polar, cconj.
  cbn -[cos sin PI Nat.shiftl].
  set (a := (1 * PI / IZR (Z.of_nat (Nat.shiftl 1 s)))%R).
  pose proof (sin2_cos2 a) as Hsc. unfold Rsqr in Hsc.
  apply complex_eq; cbn -[cos sin PI]; [|ring].
  replace 1%R with (sin a * sin a + cos a * cos a)%R at 5 by exact Hsc.
  ring.
Qed.

(** The entry [z[s]] of the table of [FFTCalculator]:
    [std::polar(T(1), pi / m2)]. *)
Lemma rotation_forward (s : nat) :
  polar fone (fdiv fpi (of_int (Z.of_nat (Nat.shiftl 1 s))))
  = rotation Forward s.
Proof.
  unfold rotation. cbn -[cos sin PI Nat.shiftl].
  rewrite Rmult_1_l. reflexivity.
Qed.

(** A geometric sum over all [2^(L+1)] powers of a root [v] with
    [v^(2^L) = -1] vanishes for every exponent step [d] between 0 and
    [2^(L+1)]. *)
Lemma geometric_sum_zero :
  forall (L : nat) (v : C) (d : nat),
  cpow v (2 ^ L) = - (1) -> 0 < d < 2 ^ S L ->
  csum (2 ^ S L) (fun q => cpow v (d * q)) = 0.
Proof.
  induction L as [|L IH]; intros v d Hv Hd.
  - assert (d = 1)%nat as -> by (cbn in Hd; lia).
    cbn in Hv. cbn. rewrite Hv. ring.
  - replace (2 ^ S (S L)) with (2 ^ S L + 2 ^ S L)%nat by (cbn; lia).
    rewrite csum_app.
    rewrite (@csum_ext _ (fun j => cpow v (d * (2 ^ S L + j)))
               (fun j => cpow (- (1)) d * cpow v (d * j))).
    2:{ intros j _. rewrite Nat.mul_add_distr_l, cpow_add. f_equal.
        rewrite Nat.mul_comm, cpow_mul, Hv. reflexivity. }
    rewrite csum_scale.
    destruct (Nat.Even_or_Odd d) as [[e ->]|[e ->]].
    + rewrite cpow_neg1_even.
      rewrite (@csum_ext _ (fun q => cpow v (2 * e * q))
                 (fun q => cpow (v * v) (e * q))).
      2:{ intros q _. rewrite cpow_square. f_equal. lia. }
      rewrite IH; [ring| |cbn in *; lia].
      rewrite cpow_square. exact Hv.
    + rewrite cpow_neg1_odd. ring.
Qed.

(** The number [n] as a complex number. *)
Definition of_nat (n : nat) : C := of_real (INR n).

Lemma csum_ones (n : nat) : csum n (fun _ => 1) = of_nat n.
Proof.
  induction n as [|n IH]; [reflexivity|].
  cbn [csum]. rewrite IH. unfold of_nat, of_real. rewrite S_INR.
  apply complex_eq; cbn; ring.
Qed.

(** Orthogonality of the powers of a root and of its inverse. *)
Lemma roots_orthogonal (L : nat) (w w' : C) (j k : nat) :
  w * w' = 1 -> cpow w (2 ^ L) = - (1) -> cpow w' (2 ^ L) = - (1) ->
  j < 2 ^ S L -> k < 2 ^ S L ->
  csum (2 ^ S L) (fun q => cpow w (j * q) * cpow w' (q * k))
  = if j =? k then of_nat (2 ^ S L) else 0.
Proof.
  intros Hinv Hw Hw' Hj Hk.
  assert (Hone : forall n, cpow w n * cpow w' n = 1).
  { intros n. rewrite <- cpow_mul_l, Hinv. apply cpow_1_l. }
  destruct (Nat.eqb_spec j k) as [->|Hne].
  - rewrite <- csum_ones. apply csum_ext. intros q _.
    rewrite (Nat.mul_comm q k). apply Hone.
  - destruct (Nat.lt_ge_cases k j) as [Hlt|Hge].
    + rewrite <- (@geometric_sum_zero L w (j - k) Hw) by lia.
      apply csum_ext. intros q _.
      replace (j * q)%nat with ((j - k) * q + q * k)%nat by nia.
      rewrite cpow_add. generalize (cpow w ((j - k) * q)). intros c.
      pose proof (Hone (q * k)%nat) as H1.
      transitivity (c * (cpow w (q * k) * cpow w' (q * k))); [ring|].
      rewrite H1. ring.
    + rewrite <- (@geometric_sum_zero L w' (k - j) Hw') by lia.
      apply csum_ext. intros q _.
      replace (q * k)%nat with ((k - j) * q + j * q)%nat by nia.
      rewrite cpow_add. generalize (cpow w' ((k - j) * q)). intros c.
      pose proof (Hone (j * q)%nat) as H1.
      transitivity (c * (cpow w (j * q) * cpow w' (j * q))); [ring|].
      rewrite H1. ring.
Qed.

End Roots.

(** What one pass does to the buffer. *)
Module StageFacts.
Import ComplexRing LoopFacts FFT.
Local Open Scope cplx_scope.

Abbreviation G := (get (czero : C)).

(** A loop with stride [m] from [j + b0 * m] up to [nb * m] visits the
    blocks [b0], [b0 + 1], ... once each. *)
Lemma for_loop_stride {St : Type} (body : nat -> St -> St) (m nb j : nat) :
  (0 < m)%nat -> (j < m)%nat ->
  forall (cnt b0 fuel : nat) (s : St),
  (b0 + cnt = nb)%nat -> (cnt <= fuel)%nat ->
  for_loop fuel (below (nb * m)) m (j + b0 * m) body s
  = fold_left (fun s b => body (j + b * m)%nat s) (seq b0 cnt) s.
Proof.
  intros Hm Hj. induction cnt as [|cnt IH]; intros b0 fuel s Hb Hfuel.
  - cbn [seq fold_left]. destruct fuel as [|fuel]; [reflexivity|].
    cbn [for_loop]. unfold below.
    replace (j + b0 * m <? nb * m) with false; [reflexivity|].
    symmetry. apply Nat.ltb_ge. nia.
  - destruct fuel as [|fuel]; [lia|].
    cbn [for_loop seq fold_left]. unfold below at 1.
    replace (j + b0 * m <? nb * m) with true
      by (symmetry; apply Nat.ltb_lt; nia).
    replace (j + b0 * m + m)%nat with (j + S b0 * m)%nat by lia.
    apply IH; lia.
Qed.

(** Positions are given by a block [b] and an offset [c] below the block
    length [m]; the two determine the position. *)
Lemma position_inj (m c c' b b' : nat) :
  (c < m)%nat -> (c' < m)%nat -> (c + b * m = c' + b' * m)%nat ->
  c = c' /\ b = b'.
Proof.
  intros Hc Hc' Heq.
  destruct (Nat.lt_trichotomy b b') as [Hlt|[->|Hgt]]; [nia|lia|nia].
Qed.

(** The positions of two different offsets below [m2], in whatever blocks
    of length [2 * m2], and the positions [m2] after them, are four
    different positions. *)
Lemma offsets_apart (m2 q q' b b' : nat) :
  (q < m2)%nat -> (q' < m2)%nat -> q <> q' ->
  (q + b * (2 * m2) <> q' + b' * (2 * m2))%nat /\
  (q + b * (2 * m2) <> q' + b' * (2 * m2) + m2)%nat /\
  (q + b * (2 * m2) + m2 <> q' + b' * (2 * m2))%nat /\
  (q + b * (2 * m2) + m2 <> q' + b' * (2 * m2) + m2)%nat.
Proof.
  intros Hq Hq' Hne.
  repeat split; intros Heq.
  - destruct (@position_inj (2 * m2) q q' b b'); lia.
  - destruct (@position_inj (2 * m2) q (q' + m2) b b'); lia.
  - destruct (@position_inj (2 * m2) (q + m2) q' b b'); lia.
  - destruct (@position_inj (2 * m2) (q + m2) (q' + m2) b b'); lia.
Qed.

Lemma butterfly_length (m2 : nat) (w : C) (k : nat) (out : list C) :
  length (butterfly m2 w k out) = length out.
Proof. unfold butterfly. rewrite !length_set. reflexivity. Qed.

Lemma butterfly_get (m2 : nat) (w : C) (k : nat) (out : list C) (i : nat) :
  (0 < m2)%nat -> (k + m2 < length out)%nat ->
  G (butterfly m2 w k out) i
  = if i =? k + m2 then G out k - w * G out (k + m2)%nat
    else if i =? k then G out k + w * G out (k + m2)%nat
    else G out i.
Proof.
  intros Hm2 Hk. unfold butterfly. rewrite !get_set, length_set.
  rewrite (Nat.eqb_sym (k + m2) i), (Nat.eqb_sym k i).
  replace (k + m2 <? length out) with true by (symmetry; apply Nat.ltb_lt; lia).
  replace (k <? length out) with true by (symmetry; apply Nat.ltb_lt; lia).
  rewrite !andb_true_r. reflexivity.
Qed.

Section Pass.
Variables (m2 nb : nat) (wm : C).
Hypothesis Hm2 : (0 < m2)%nat.

Let m : nat := (2 * m2)%nat.

(** The inner loop for the offset [j] and the factor [w]: after [cnt]
    blocks, the two positions of each of these blocks hold the sum and the
    difference, and every other position is as before. *)
Lemma inner_loop_blocks (j : nat) (w : C) (out0 : list C) :
  (j < m2)%nat -> length out0 = (nb * m)%nat ->
  forall cnt, (cnt <= nb)%nat ->
  let r := fold_left (fun out b => butterfly m2 w (j + b * m) out)
                     (seq 0 cnt) out0 in
  length r = length out0 /\
  (forall b, (b < cnt)%nat ->
     G r (j + b * m)%nat
     = G out0 (j + b * m)%nat + w * G out0 (j + b * m + m2)%nat /\
     G r (j + b * m + m2)%nat
     = G out0 (j + b * m)%nat - w * G out0 (j + b * m + m2)%nat) /\
  (forall i, (forall b, (b < cnt)%nat ->
                i <> (j + b * m)%nat /\ i <> (j + b * m + m2)%nat) ->
     G r i = G out0 i).
Proof.
  intros Hj Hlen. induction cnt as [|cnt IH]; intros Hcnt; cbv zeta.
  - cbn. split; [reflexivity|]. split; [intros; lia|reflexivity].
  - rewrite seq_S, fold_left_app. cbn [fold_left Nat.add].
    specialize (IH ltac:(lia)). cbv zeta in IH.
    set (r := fold_left (fun out b => butterfly m2 w (j + b * m) out)
                (seq 0 cnt) out0) in *.
    destruct IH as [IHlen [IHblocks IHrest]].
    assert (Hk : (j + cnt * m + m2 < length r)%nat)
      by (rewrite IHlen, Hlen; unfold m; nia).
    assert (Hfresh : G r (j + cnt * m)%nat = G out0 (j + cnt * m)%nat /\
                     G r (j + cnt * m + m2)%nat = G out0 (j + cnt * m + m2)%nat).
    { split; apply IHrest; intros b Hb; unfold m; split; nia. }
    destruct Hfresh as [Hf1 Hf2].
    split; [rewrite butterfly_length; exact IHlen|]. split.
    + intros b Hb. rewrite !butterfly_get by assumption.
      destruct (Nat.eq_dec b cnt) as [->|Hne].
      * rewrite Nat.eqb_refl.
        replace (j + cnt * m =? j + cnt * m + m2) with false
          by (symmetry; apply Nat.eqb_neq; lia).
        rewrite Nat.eqb_refl, Hf1, Hf2. split; reflexivity.
      * replace (j + b * m =? j + cnt * m + m2) with false
          by (symmetry; apply Nat.eqb_neq; unfold m; nia).
        replace (j + b * m =? j + cnt * m) with false
          by (symmetry; apply Nat.eqb_neq; unfold m; nia).
        replace (j + b * m + m2 =? j + cnt * m + m2) with false
          by (symmetry; apply Nat.eqb_neq; unfold m; nia).
        replace (j + b * m + m2 =? j + cnt * m) with false
          by (symmetry; apply Nat.eqb_neq; unfold m; nia).
        apply IHblocks. lia.
    + intros i Hi. rewrite butterfly_get by assumption.
      destruct (Hi cnt ltac:(lia)) as [Hi1 Hi2].
      replace (i =? j + cnt * m + m2) with false
        by (symmetry; apply Nat.eqb_neq; lia).
      replace (i =? j + cnt * m) with false
        by (symmetry; apply Nat.eqb_neq; lia).
      apply IHrest. intros b Hb. apply Hi. lia.
Qed.

(** The body of the outer loop of a pass over [nb] blocks of [m]. *)
Definition pass_body (j : nat) (st : C * list C) : C * list C :=
  (fst st * wm,
   for_loop (nb * m) (below (nb * m)) m j (butterfly m2 (fst st)) (snd st)).

(** The outer loop: after the offsets below [cnt], the factor is the
    power [wm ^ cnt], the two positions of every block at each of these
    offsets hold the sum and the difference with the factor [wm ^ q], and
    the other positions are as before. *)
Lemma outer_loop_offsets (out0 : list C) :
  length out0 = (nb * m)%nat ->
  forall cnt, (cnt <= m2)%nat ->
  let st := fold_left (fun st j => pass_body j st) (seq 0 cnt) (cone, out0) in
  fst st = cpow wm cnt /\
  length (snd st) = length out0 /\
  (forall q b, (q < cnt)%nat -> (b < nb)%nat ->
     G (snd st) (q + b * m)%nat
     = G out0 (q + b * m)%nat + cpow wm q * G out0 (q + b * m + m2)%nat /\
     G (snd st) (q + b * m + m2)%nat
     = G out0 (q + b * m)%nat - cpow wm q * G out0 (q + b * m + m2)%nat) /\
  (forall i, (forall q b, (q < cnt)%nat -> (b < nb)%nat ->
                i <> (q + b * m)%nat /\ i <> (q + b * m + m2)%nat) ->
     G (snd st) i = G out0 i).
Proof.
  intros Hlen. induction cnt as [|cnt IH]; intros Hcnt; cbv zeta.
  - cbn. split; [reflexivity|]. split; [reflexivity|].
    split; [intros; lia|reflexivity].
  - rewrite seq_S, fold_left_app. cbn [fold_left Nat.add].
    specialize (IH ltac:(lia)). cbv zeta in IH.
    set (st := fold_left (fun st j => pass_body j st) (seq 0 cnt) (cone, out0))
      in *.
    destruct IH as [IHw [IHlen [IHdone IHrest]]].
    unfold pass_body. cbn [fst snd].
    pose proof (@for_loop_stride _ (butterfly m2 (fst st)) m nb cnt
                  ltac:(unfold m; lia) ltac:(unfold m; lia) nb 0 (nb * m)
                  (snd st) ltac:(lia) ltac:(unfold m; nia)) as Hloop.
    cbn [Nat.mul] in Hloop. rewrite Nat.add_0_r in Hloop. rewrite Hloop.
    clear Hloop.
    pose proof (@inner_loop_blocks cnt (fst st) (snd st) ltac:(lia)
                  ltac:(rewrite IHlen; exact Hlen) nb (Nat.le_refl nb))
      as Hinner.
    cbv zeta in Hinner.
    set (r := fold_left (fun out b => butterfly m2 (fst st) (cnt + b * m) out)
                (seq 0 nb) (snd st)) in *.
    destruct Hinner as [Hrlen [Hrblocks Hrrest]].
    split; [rewrite IHw; reflexivity|].
    split; [rewrite Hrlen; exact IHlen|]. split.
    + intros q b Hq Hb.
      destruct (Nat.eq_dec q cnt) as [->|Hne].
      * destruct (Hrblocks b Hb) as [H1 H2]. rewrite H1, H2, IHw.
        rewrite !IHrest; [split; reflexivity| |];
          intros q' b' Hq' Hb';
          pose proof (@offsets_apart m2 cnt q' b b' ltac:(lia) ltac:(lia)
                        ltac:(lia));
          unfold m; lia.
      * destruct (IHdone q b ltac:(lia) Hb) as [H1 H2].
        rewrite <- H1, <- H2.
        split; apply Hrrest; intros b' Hb';
          pose proof (@offsets_apart m2 q cnt b b' ltac:(lia) ltac:(lia)
                        ltac:(lia));
          unfold m; lia.
    + intros i Hi. rewrite Hrrest.
      * apply IHrest. intros q b Hq Hb. apply Hi; lia.
      * intros b Hb. apply Hi; lia.
Qed.

End Pass.

(** One pass over a buffer of [nb] blocks of [2 * 2^s] elements: in every
    block the element at offset [q] and the element at offset [q + 2^s]
    become their sum and their difference, the second one rotated by
    [wm ^ q] first.  This is every element of the buffer. *)
Lemma stage_spec (s nb : nat) (wm : C) (out : list C) :
  length out = (nb * (2 * 2 ^ s))%nat ->
  length (stage (nb * (2 * 2 ^ s)) s wm out) = length out /\
  forall q b, (q < 2 ^ s)%nat -> (b < nb)%nat ->
    G (stage (nb * (2 * 2 ^ s)) s wm out) (q + b * (2 * 2 ^ s))%nat
    = G out (q + b * (2 * 2 ^ s))%nat
      + cpow wm q * G out (q + b * (2 * 2 ^ s) + 2 ^ s)%nat /\
    G (stage (nb * (2 * 2 ^ s)) s wm out) (q + b * (2 * 2 ^ s) + 2 ^ s)%nat
    = G out (q + b * (2 * 2 ^ s))%nat
      - cpow wm q * G out (q + b * (2 * 2 ^ s) + 2 ^ s)%nat.
Proof.
  intros Hlen. unfold stage.
  rewrite !Nat.shiftl_mul_pow2.
  replace (1 * 2 ^ s * 2 ^ 1)%nat with (2 * 2 ^ s)%nat by (cbn; lia).
  replace (1 * 2 ^ s)%nat with (2 ^ s)%nat by lia.
  rewrite for_loop_count.
  assert (Hpos : (0 < 2 ^ s)%nat) by (apply Nat.neq_0_lt_0, Nat.pow_nonzero; lia).
  pose proof (@outer_loop_offsets (2 ^ s) nb wm Hpos out Hlen (2 ^ s)
                (Nat.le_refl _)) as Houter.
  cbv zeta in Houter. unfold pass_body in Houter.
  destruct Houter as [_ [Hl [Hdone _]]].
  split; [exact Hl|exact Hdone].
Qed.

End StageFacts.

(** Bit reversal by recursion on the number of bits. *)
Module Reversal.
Import Bits BitsFacts.

(** The [n]-bit reversal of [b]: the lowest bit of [b] becomes the bit
    [n - 1], above the reversal of the [n - 1] bits that remain. *)
Fixpoint revbits (n : nat) (b : nat) : nat :=
  match n with
  | O => 0
  | S n' => (b mod 2) * 2 ^ n' + revbits n' (b / 2)
  end.

Lemma revbits_lt (n b : nat) : revbits n b < 2 ^ n.
Proof.
  revert b. induction n as [|n IH]; intros b; cbn [revbits Nat.pow]; [lia|].
  specialize (IH (b / 2)).
  pose proof (Nat.mod_upper_bound b 2 ltac:(lia)) as Hmod.
  nia.
Qed.

Lemma revbits_even (n b : nat) : revbits (S n) (2 * b) = revbits n b.
Proof.
  cbn [revbits].
  replace ((2 * b) mod 2) with 0.
  2:{ symmetry. rewrite Nat.mul_comm. apply Nat.Div0.mod_mul. }
  replace (2 * b / 2) with b.
  2:{ symmetry. rewrite Nat.mul_comm. apply Nat.div_mul. lia. }
  lia.
Qed.

Lemma revbits_odd (n b : nat) : revbits (S n) (2 * b + 1) = 2 ^ n + revbits n b.
Proof.
  cbn [revbits].
  replace ((2 * b + 1) mod 2) with 1.
  2:{ symmetry. rewrite Nat.add_comm, Nat.mul_comm, Nat.Div0.mod_add.
      reflexivity. }
  replace ((2 * b + 1) / 2) with b.
  2:{ symmetry. rewrite Nat.add_comm, Nat.mul_comm, Nat.div_add by lia.
      reflexivity. }
  lia.
Qed.

Local Open Scope Z_scope.

(** The bits of [revbits n b]. *)
Lemma revbits_bits (n : nat) :
  forall (b : nat) (i : Z), 0 <= i ->
  Z.testbit (Z.of_nat (revbits n b)) i
  = (i <? Z.of_nat n) && Z.testbit (Z.of_nat b) (Z.of_nat n - 1 - i).
Proof.
  induction n as [|n IH]; intros b i Hi.
  - cbn [revbits]. rewrite Z.testbit_0_l.
    replace (i <? Z.of_nat 0) with false by (symmetry; apply Z.ltb_ge; lia).
    reflexivity.
  - cbn [revbits].
    pose proof (revbits_lt n (b / 2)) as Hlt.
    pose proof (Nat.mod_upper_bound b 2 ltac:(lia)) as Hmod.
    set (c := (b mod 2)%nat) in *. set (v := revbits n (b / 2)) in *.
    assert (Hv : 0 <= Z.of_nat v < 2 ^ Z.of_nat n).
    { rewrite FFTFacts.Z_of_nat_pow2. lia. }
    assert (Hval : Z.of_nat (c * 2 ^ n + v)
                   = Z.of_nat c * 2 ^ Z.of_nat n + Z.of_nat v).
    { rewrite Nat2Z.inj_add, Nat2Z.inj_mul, Nat2Z.inj_pow. reflexivity. }
    rewrite Hval.
    assert (Hp : 0 < 2 ^ Z.of_nat n) by (apply Z.pow_pos_nonneg; lia).
    destruct (Z.lt_trichotomy i (Z.of_nat n)) as [Hlo|[Heq|Hhi]].
    + (* a bit of the reversed rest *)
      rewrite <- (Z.mod_pow2_bits_low _ (Z.of_nat n)) by lia.
      rewrite Z.add_comm, Z.mod_add, Z.mod_small by lia.
      unfold v. rewrite IH by lia.
      replace (i <? Z.of_nat n) with true by (symmetry; apply Z.ltb_lt; lia).
      replace (i <? Z.of_nat (S n)) with true by (symmetry; apply Z.ltb_lt; lia).
      rewrite !andb_true_l.
      rewrite Nat2Z.inj_div. change (Z.of_nat 2) with (2 ^ 1).
      rewrite Z.div_pow2_bits by lia. f_equal. lia.
    + (* the top bit: the lowest bit of [b] *)
      subst i.
      replace (Z.of_nat n <? Z.of_nat (S n)) with true
        by (symmetry; apply Z.ltb_lt; lia).
      rewrite andb_true_l.
      replace (Z.of_nat (S n) - 1 - Z.of_nat n) with 0 by lia.
      replace (Z.of_nat n) with (0 + Z.of_nat n) at 2 by lia.
      rewrite <- Z.div_pow2_bits by lia.
      rewrite Z.div_add_l, Z.div_small, Z.add_0_r by lia.
      unfold c. rewrite Nat2Z.inj_mod. change (Z.of_nat 2) with (2 ^ 1).
      apply Z.mod_pow2_bits_low. lia.
    + (* above the top bit *)
      replace (i <? Z.of_nat (S n)) with false by (symmetry; apply Z.ltb_ge; lia).
      rewrite andb_false_l.
      apply (testbit_high (n:=Z.of_nat (S n))); [|lia].
      rewrite Nat2Z.inj_succ, Z.pow_succ_r by lia. nia.
Qed.

(** [bitReverse] computes [revbits], for both 32-bit types. *)
Lemma reversed_revbits (k : int_kind) (n b : nat) :
  (1 <= n <= 31)%nat -> (b < 2 ^ n)%nat ->
  reversed k (Z.of_nat b) (Z.of_nat n) = Z.of_nat (revbits n b).
Proof.
  intros Hn Hb.
  assert (Hb' : 0 <= Z.of_nat b < 2 ^ 32).
  { split; [lia|]. apply Z.lt_le_trans with (2 ^ Z.of_nat n).
    - rewrite FFTFacts.Z_of_nat_pow2. lia.
    - apply Z.pow_le_mono_r; lia. }
  apply Z.bits_inj'. intros i Hi.
  rewrite reversed_bits, revbits_bits by lia. reflexivity.
Qed.

Lemma bitReverse_revbits (k : int_kind) (n b : nat) :
  (1 <= n <= 31)%nat -> (b < 2 ^ n)%nat ->
  bitReverse k (Z.of_nat b) (Z.of_nat n) = Some (Z.of_nat (revbits n b)).
Proof.
  intros Hn Hb. rewrite bitReverse_eq by lia.
  rewrite reversed_revbits by assumption. reflexivity.
Qed.

End Reversal.

(** The passes compute the discrete Fourier transform. *)
Module Fourier.
Import ComplexRing Roots StageFacts Reversal LoopFacts FFT.
Local Open Scope cplx_scope.

(** The root of unity of the blocks of [2^s] elements: 1 for single
    elements, and the rotation of the pass that built the blocks. *)
Definition omega (dir : FFTDirection) (s : nat) : C :=
  match s with
  | O => 1
  | S s' => rotation dir s'
  end.

Lemma omega_square (dir : FFTDirection) (s : nat) :
  omega dir (S s) * omega dir (S s) = omega dir s.
Proof.
  destruct s as [|s]; cbn [omega].
  - rewrite rotation_0. ring.
  - apply rotation_square.
Qed.

Lemma omega_half (dir : FFTDirection) (s : nat) :
  cpow (omega dir (S s)) (2 ^ s) = - (1).
Proof. apply rotation_pow. Qed.

(** The transform of the [2^s] input elements that end up in block [b]
    after [s] passes, at the frequency [q]. *)
Definition block_dft (dir : FFTDirection) (x : list C) (L s b q : nat) : C :=
  csum (2 ^ s)
    (fun j => G x (j * 2 ^ (L - s) + revbits (L - s) b)%nat
              * cpow (omega dir s) (j * q)).

(** The transform of [x] with the root [w], scaled by [nrm]. *)
Definition dft (w : C) (nrm : R) (x : list C) : list C :=
  map (fun q => of_real nrm
                * csum (length x) (fun j => G x j * cpow w (j * q)))
      (seq 0 (length x)).

Lemma get_map_seq (f : nat -> C) (n i : nat) :
  (i < n)%nat -> G (map f (seq 0 n)) i = f i.
Proof.
  intros Hi. unfold get.
  rewrite (nth_indep _ czero (f 0%nat)) by (rewrite length_map, length_seq; lia).
  rewrite (map_nth f), seq_nth by lia. reflexivity.
Qed.

(** A power of the root at the frequency [q + 2^s] is the power at the
    frequency [q], up to the sign of the exponent's parity. *)
Lemma cpow_half_turn (dir : FFTDirection) (s j q : nat) :
  cpow (omega dir (S s)) (j * (q + 2 ^ s))
  = cpow (omega dir (S s)) (j * q) * cpow (- (1)) j.
Proof.
  rewrite Nat.mul_add_distr_l, cpow_add. f_equal.
  rewrite Nat.mul_comm, cpow_mul, omega_half. reflexivity.
Qed.

(** The butterfly on transforms: a block of [2 * 2^s] elements from the
    two blocks of [2^s] elements it is made of. *)
Lemma block_dft_step (dir : FFTDirection) (x : list C) (L s b q : nat) :
  (s < L)%nat ->
  block_dft dir x L (S s) b q
  = block_dft dir x L s (2 * b) q
    + cpow (omega dir (S s)) q * block_dft dir x L s (2 * b + 1) q /\
  block_dft dir x L (S s) b (q + 2 ^ s)
  = block_dft dir x L s (2 * b) q
    - cpow (omega dir (S s)) q * block_dft dir x L s (2 * b + 1) q.
Proof.
  intros Hs. unfold block_dft.
  replace (L - s)%nat with (S (L - S s)) by lia.
  set (n := (L - S s)%nat).
  rewrite revbits_even, revbits_odd.
  set (r := revbits n b).
  set (w := omega dir (S s)).
  rewrite <- (omega_square dir s). fold w.
  change (2 ^ S s)%nat with (2 * 2 ^ s)%nat.
  rewrite !csum_even_odd, <- !csum_scale.
  assert (Heven : forall j, (2 * j * 2 ^ n + r = j * 2 ^ S n + r)%nat)
    by (intros; cbn [Nat.pow]; lia).
  assert (Hodd : forall j, ((2 * j + 1) * 2 ^ n + r
                            = j * 2 ^ S n + (2 ^ n + r))%nat)
    by (intros; cbn [Nat.pow]; lia).
  split.
  - f_equal; apply csum_ext; intros j _.
    + rewrite Heven, cpow_square. do 2 f_equal. lia.
    + rewrite Hodd, cpow_square.
      replace ((2 * j + 1) * q)%nat with (q + 2 * (j * q))%nat by lia.
      rewrite cpow_add. ring.
  - rewrite <- csum_sub.
    rewrite <- csum_add. apply csum_ext. intros j _.
    unfold w. rewrite !cpow_half_turn. fold w.
    rewrite cpow_neg1_even, cpow_neg1_odd.
    rewrite Heven, Hodd, !cpow_square.
    replace ((2 * j + 1) * q)%nat with (q + 2 * (j * q))%nat by lia.
    replace (2 * j * q)%nat with (2 * (j * q))%nat by lia.
    rewrite cpow_add. ring.
Qed.

Lemma pow2_split (L s : nat) :
  (s < L)%nat -> (2 ^ L = 2 ^ (L - S s) * (2 * 2 ^ s))%nat.
Proof.
  intros Hs. replace L with ((L - S s) + S s)%nat at 1 by lia.
  rewrite Nat.pow_add_r. reflexivity.
Qed.

Section Passes.
Variables (dir : FFTDirection) (nrm : R) (x : list C) (L : nat).
Variable wm : nat -> C.
Hypothesis Hwm : forall s, (s < L)%nat -> wm s = rotation dir s.

(** The buffer after the first loop: the input in bit-reversed order,
    scaled. *)
Definition permuted : list C :=
  map (fun i => cscale nrm (G x (revbits L i))) (seq 0 (2 ^ L)).

(** The buffer after the passes [0], ..., [s - 1]. *)
Definition after_passes (s : nat) : list C :=
  fold_left (fun out s => stage (2 ^ L) s (wm s) out) (seq 0 s) permuted.

(** After [s] passes, block [b] of [2^s] elements holds the scaled
    transform of the input elements that went into it. *)
Lemma passes_invariant :
  forall s, (s <= L)%nat ->
  length (after_passes s) = (2 ^ L)%nat /\
  forall b q, (b < 2 ^ (L - s))%nat -> (q < 2 ^ s)%nat ->
    G (after_passes s) (q + b * 2 ^ s)%nat
    = of_real nrm * block_dft dir x L s b q.
Proof.
  induction s as [|s IH]; intros Hs.
  - unfold after_passes. cbn [seq fold_left]. unfold permuted. split.
    + rewrite length_map, length_seq. reflexivity.
    + intros b q Hb Hq. cbn in Hq. assert (q = 0)%nat as -> by lia.
      rewrite Nat.sub_0_r in Hb.
      replace (0 + b * 2 ^ 0)%nat with b by (cbn; lia).
      rewrite get_map_seq by assumption.
      unfold block_dft. cbn [Nat.pow csum omega cpow Nat.mul Nat.add].
      rewrite Nat.sub_0_r, cscale_cmul. ring.
  - destruct (IH ltac:(lia)) as [IHlen IHblocks]. clear IH.
    unfold after_passes in *. rewrite seq_S, fold_left_app.
    cbn [fold_left Nat.add].
    set (out := fold_left (fun out s => stage (2 ^ L) s (wm s) out)
                  (seq 0 s) permuted) in *.
    assert (Hstage : stage (2 ^ L) s (wm s) out
                     = stage (2 ^ (L - S s) * (2 * 2 ^ s)) s (wm s) out)
      by (rewrite <- (pow2_split Hs); reflexivity).
    rewrite Hstage. clear Hstage.
    rewrite (pow2_split Hs) in IHlen.
    destruct (@stage_spec s (2 ^ (L - S s)) (wm s) out IHlen)
      as [Hlen Hblocks].
    rewrite <- (pow2_split Hs) in IHlen.
    split; [rewrite Hlen; exact IHlen|].
    intros b q Hb Hq.
    assert (Hpos : (0 < 2 ^ s)%nat)
      by (apply Nat.neq_0_lt_0, Nat.pow_nonzero; lia).
    assert (Hblk : (2 ^ (L - s) = 2 * 2 ^ (L - S s))%nat).
    { replace (L - s)%nat with (S (L - S s)) by lia. reflexivity. }
    assert (Heven : forall q0, (q0 + b * (2 * 2 ^ s) = q0 + 2 * b * 2 ^ s)%nat)
      by (intros; lia).
    assert (Hodd : forall q0, (q0 + b * (2 * 2 ^ s) + 2 ^ s
                               = q0 + (2 * b + 1) * 2 ^ s)%nat)
      by (intros; lia).
    change (2 ^ S s)%nat with (2 * 2 ^ s)%nat in *.
    assert (Hw : wm s = rotation dir s) by (apply Hwm; lia).
    rewrite Hw in Hblocks |- *.
    destruct (Nat.lt_ge_cases q (2 ^ s)) as [Hlo|Hhi].
    + destruct (Hblocks q b Hlo Hb) as [Hsum _].
      rewrite Hsum, Hodd, Heven, !IHblocks by lia.
      destruct (@block_dft_step dir x L s b q ltac:(lia)) as [-> _].
      cbn [omega]. ring.
    + assert (Hq' : exists q', (q = q' + 2 ^ s /\ q' < 2 ^ s)%nat)
        by (exists (q - 2 ^ s)%nat; lia).
      destruct Hq' as [q' [-> Hq']].
      destruct (Hblocks q' b Hq' Hb) as [_ Hdiff].
      replace (q' + 2 ^ s + b * (2 * 2 ^ s))%nat
        with (q' + b * (2 * 2 ^ s) + 2 ^ s)%nat by lia.
      rewrite Hdiff, Hodd, Heven, !IHblocks by lia.
      destruct (@block_dft_step dir x L s b q' ltac:(lia)) as [_ ->].
      cbn [omega]. ring.
Qed.

(** All the passes: the transform of the input. *)
Lemma passes_dft :
  length x = (2 ^ L)%nat ->
  after_passes L = dft (omega dir L) nrm x.
Proof.
  intros Hx.
  destruct (passes_invariant (Nat.le_refl L)) as [Hlen Hblocks].
  apply (buffer_ext czero).
  - unfold dft. rewrite Hlen, length_map, length_seq. symmetry. exact Hx.
  - intros q Hq. rewrite Hlen in Hq.
    specialize (Hblocks 0%nat q).
    rewrite Nat.sub_diag in Hblocks. cbn [Nat.pow Nat.mul Nat.add] in Hblocks.
    rewrite Nat.add_0_r in Hblocks. rewrite Hblocks by lia.
    unfold dft. rewrite Hx, get_map_seq by assumption.
    unfold block_dft. f_equal. apply csum_ext. intros j _.
    rewrite Nat.sub_diag. cbn [Nat.pow revbits].
    do 2 f_equal. lia.
Qed.

End Passes.

End Fourier.

(** The inverse transform undoes the transform. *)
Module RoundTrip.
Import ComplexRing Roots StageFacts Reversal LoopFacts FFT Fourier.
Import Bits BitsFacts FFTFacts.
Local Open Scope cplx_scope.

Lemma csum_scale_r (n : nat) (c : C) (f : nat -> C) :
  csum n (fun i => f i * c) = csum n f * c.
Proof. induction n as [|n IH]; cbn; [ring|]. rewrite IH. ring. Qed.

Lemma dft_length (w : C) (nrm : R) (x : list C) :
  length (dft w nrm x) = length x.
Proof. unfold dft. rewrite length_map, length_seq. reflexivity. Qed.

Lemma dft_get (w : C) (nrm : R) (x : list C) (q : nat) :
  (q < length x)%nat ->
  G (dft w nrm x) q
  = of_real nrm * csum (length x) (fun j => G x j * cpow w (j * q)).
Proof. intros Hq. unfold dft. rewrite get_map_seq by assumption. reflexivity. Qed.

(** Two transforms with roots that are inverses of each other, each scaled
    by [nrm] with [nrm * nrm * N = 1], compose to the identity. *)
Lemma dft_inverse (L : nat) (w w' : C) (nrm : R) (x : list C) :
  length x = (2 ^ S L)%nat ->
  w * w' = 1 -> cpow w (2 ^ L) = - (1) -> cpow w' (2 ^ L) = - (1) ->
  of_real nrm * of_real nrm * of_nat (2 ^ S L) = 1 ->
  dft w' nrm (dft w nrm x) = x.
Proof.
  intros Hx Hinv Hw Hw' Hnrm.
  apply (buffer_ext czero); [rewrite !dft_length; reflexivity|].
  intros k Hk. rewrite !dft_length in Hk.
  rewrite dft_get by (rewrite dft_length; exact Hk).
  rewrite dft_length, Hx. rewrite Hx in Hk.
  transitivity
    (of_real nrm
     * (of_real nrm
        * csum (2 ^ S L)
            (fun j => G x j * (if j =? k then of_nat (2 ^ S L) else 0)))).
  - f_equal.
    rewrite (@csum_ext _ _
               (fun q => of_real nrm
                         * csum (2 ^ S L)
                             (fun j => G x j
                                       * (cpow w (j * q) * cpow w' (q * k))))).
    2:{ intros q Hq. rewrite dft_get by (rewrite Hx; exact Hq).
        rewrite Hx.
        transitivity
          (of_real nrm
           * (csum (2 ^ S L) (fun j => G x j * cpow w (j * q))
              * cpow w' (q * k)));
          [ring|].
        f_equal. rewrite <- csum_scale_r.
        apply csum_ext. intros j _. ring. }
    rewrite csum_scale. f_equal.
    rewrite csum_swap. apply csum_ext. intros j Hj.
    rewrite csum_scale. f_equal.
    apply roots_orthogonal; assumption.
  - rewrite (@csum_single (2 ^ S L) k) by
      (try assumption; intros i _ Hne;
       replace (i =? k) with false by (symmetry; apply Nat.eqb_neq; exact Hne);
       ring).
    rewrite Nat.eqb_refl.
    transitivity (G x k * (of_real nrm * of_real nrm * of_nat (2 ^ S L)));
      [ring|].
    rewrite Hnrm. ring.
Qed.

(** The scale factor [1 / sqrt N]. *)
Definition normalization (N : nat) : R := (1 / R_sqrt.sqrt (IZR (Z.of_nat N)))%R.

Lemma normalization_square (N : nat) :
  (0 < N)%nat ->
  of_real (normalization N) * of_real (normalization N) * of_nat N = 1.
Proof.
  intros HN. unfold normalization, of_nat, of_real.
  assert (Hpos : (0 < IZR (Z.of_nat N))%R) by (apply IZR_lt; lia).
  assert (Hsqrt : (R_sqrt.sqrt (IZR (Z.of_nat N)) * R_sqrt.sqrt (IZR (Z.of_nat N))
                   = IZR (Z.of_nat N))%R) by (apply sqrt_sqrt; lra).
  assert (Hne : (R_sqrt.sqrt (IZR (Z.of_nat N)) <> 0)%R).
  { intros H0. rewrite H0 in Hsqrt. lra. }
  rewrite INR_IZR_INZ.
  apply complex_eq; cbn; [|ring].
  set (r := R_sqrt.sqrt (IZR (Z.of_nat N))) in *.
  rewrite <- Hsqrt. field. exact Hne.
Qed.

Lemma get_map_seq_any {A : Type} (d : A) (f : nat -> A) (n i : nat) :
  (i < n)%nat -> get d (map f (seq 0 n)) i = f i.
Proof.
  intros Hi. unfold get.
  rewrite (nth_indep _ d (f 0%nat)) by (rewrite length_map, length_seq; lia).
  rewrite (map_nth f), seq_nth by lia. reflexivity.
Qed.

(** [detail::fft] on [2^L] elements, [1 <= L <= 30]: the assertions hold
    and the result is the transform with the root of the direction. *)
Lemma detail_fft_dft (L : nat) (x out : list C) (dir : FFTDirection) :
  (1 <= L <= 30)%nat -> length x = (2 ^ L)%nat -> length out = (2 ^ L)%nat ->
  detail_fft x out dir
  = Some (dft (omega dir L) (normalization (2 ^ L)) x).
Proof.
  intros HL Hx Hout. unfold detail_fft. rewrite Hx.
  rewrite <- Z_of_nat_pow2.
  destruct (@log2OfPowerOf2_pow2 (Z.of_nat L) ltac:(lia)) as [Hp Hlog].
  rewrite Hp, wrap_small, Hlog.
  2:{ split; [apply Z.pow_nonneg; lia|].
      apply Z.pow_lt_mono_r; lia. }
  rewrite (for_loop_opt_below _
             (fun i out =>
                set i (cscale (normalization (2 ^ L)) (G x (revbits L i))) out)).
  2:{ intros i s Hi. rewrite bitReverse_revbits, Nat2Z.id by lia.
      unfold normalization. rewrite <- Z_of_nat_pow2. reflexivity. }
  f_equal. rewrite Nat2Z.id, for_loop_count.
  rewrite (fill_all (fun i => cscale (normalization (2 ^ L))
                                (G x (revbits L i)))) by exact Hout.
  apply (@passes_dft dir (normalization (2 ^ L)) x L (rotation dir));
    [reflexivity|exact Hx].
Qed.

(** The members [fft] and [ifft] of a calculator built for [2^L] elements
    are the same two transforms. *)
Lemma transform_dft (L : nat) (c : FFTCalculator R) (x out : list C)
    (turn : C -> C) (dir : FFTDirection) :
  (1 <= L <= 30)%nat ->
  N c = (2 ^ L)%nat -> log_n c = Z.of_nat L ->
  nrm c = normalization (2 ^ L) ->
  butterfly_indices c
  = map (fun i => reversed I32 (Z.of_nat i) (Z.of_nat L)) (seq 0 (2 ^ L)) ->
  z c = map (fun s => rotation Forward s) (seq 0 L) ->
  (forall s, turn (rotation Forward s) = rotation dir s) ->
  length x = (2 ^ L)%nat -> length out = (2 ^ L)%nat ->
  transform c czero cscale turn x out
  = dft (omega dir L) (normalization (2 ^ L)) x.
Proof.
  intros HL HN Hlog Hnrm Hidx Hz Hturn Hx Hout.
  unfold transform. rewrite HN, Hlog, Hnrm, Nat2Z.id, Hidx, Hz.
  rewrite (fill_all _ out Hout), !for_loop_count.
  rewrite <- (@passes_dft dir (normalization (2 ^ L)) x L
                (fun s => turn (get czero
                                  (map (fun s => rotation Forward s) (seq 0 L))
                                  s))).
  - unfold after_passes, permuted. f_equal.
    apply map_ext_in. intros i Hi. apply in_seq in Hi.
    rewrite get_map_seq_any by lia.
    rewrite reversed_revbits, Nat2Z.id by lia. reflexivity.
  - intros s Hs. rewrite get_map_seq_any by assumption. apply Hturn.
  - exact Hx.
Qed.

(** The two transforms of the code, on [2^L] elements, undo each other. *)
Lemma dft_round_trip (L : nat) (x : list C) :
  (1 <= L)%nat -> length x = (2 ^ L)%nat ->
  dft (omega Backward L) (normalization (2 ^ L))
    (dft (omega Forward L) (normalization (2 ^ L)) x) = x.
Proof.
  intros HL Hx. destruct L as [|L]; [lia|]. cbn [omega].
  apply (@dft_inverse L); try assumption.
  - apply rotation_inverse.
  - apply rotation_pow.
  - apply rotation_pow.
  - apply normalization_square.
    apply Nat.neq_0_lt_0, Nat.pow_nonzero. lia.
Qed.

(** C1.  The failing input: a signal of one sample.  Its length 1 is a
    power of two and passes the assertion [isPowerOf2(size)] of
    [detail::fft], whose message asks for no more than a power of 2;
    [log2OfPowerOf2(1)] is 0, and the first iteration of the first loop
    calls [bitReverse(0, 0)], which fails its assertion [nb > 0].  So
    [fft] and [ifft] abort on every signal of one sample, into whatever
    output buffer and in whatever arithmetic (doubles included), and so
    does the constructor of [FFTCalculator<T, 1>]; no round trip is
    computed at this length. *)
Theorem fft_of_one_sample_aborts :
  forall (T : Type) (F : Floating T) (E : Elementary T)
         (a : complex T) (out : list (complex T)),
    (isPowerOf2 (Z.of_nat (length [a])) = true) /\
    (log2OfPowerOf2 (wrap I32 (Z.of_nat (length [a]))) = Some 0%Z) /\
    (bitReverse U32 0%Z 0%Z = None) /\
    (fft [a] out = None) /\
    (ifft [a] out = None) /\
    (fft_vector [a] = None) /\
    (ifft_vector [a] = None) /\
    (new_FFTCalculator (T:=T) 1%Z = None).
Proof. intros T F E a out. repeat split. Qed.

(** X24.  The round trip in exact arithmetic.  For every signal [x] of
    [2^n] complex samples with [1 <= n <= 30] (the lengths both the
    assertion of [bitReverse] and the type [int] admit), the forward
    transform returns, the inverse transform of its result returns, and
    that result is [x]: for the free functions [fft] and [ifft], on vectors
    and on any output buffers of the length of the signal, and for the
    members [fft] and [ifft] of the [FFTCalculator] built for that length.
    Both directions scale by the same [1 / sqrt N]. *)
Theorem fft_round_trip :
  forall (n : nat) (x : list C),
    (1 <= n <= 30)%nat -> length x = (2 ^ n)%nat ->
    (exists y, fft_vector x = Some y /\ ifft_vector y = Some x) /\
    (forall out out' : list C,
        length out = (2 ^ n)%nat -> length out' = (2 ^ n)%nat ->
        exists y, fft x out = Some y /\ ifft y out' = Some x) /\
    (exists c : FFTCalculator R,
        new_FFTCalculator (2 ^ Z.of_nat n) = Some c /\
        nrm c = normalization (2 ^ n) /\
        forall out out' : list C,
          length out = (2 ^ n)%nat -> length out' = (2 ^ n)%nat ->
          calc_ifft c (calc_fft c x out) out' = x).
Proof.
  intros n x Hn Hx.
  assert (Hfree : forall out out' : list C,
             length out = (2 ^ n)%nat -> length out' = (2 ^ n)%nat ->
             exists y, fft x out = Some y /\ ifft y out' = Some x).
  { intros out out' Hout Hout'.
    exists (dft (omega Forward n) (normalization (2 ^ n)) x).
    unfold fft, ifft. split.
    - apply detail_fft_dft; assumption.
    - rewrite (@detail_fft_dft n) by (rewrite ?dft_length; assumption).
      f_equal. apply dft_round_trip; [lia|exact Hx]. }
  split; [|split].
  - destruct (Hfree (repeat czero (2 ^ n)) (repeat czero (2 ^ n)))
      as [y [Hy Hxy]]; try apply repeat_length.
    exists y. unfold fft_vector, ifft_vector. rewrite Hx. split; [exact Hy|].
    replace (length y) with (2 ^ n)%nat; [exact Hxy|].
    unfold fft in Hy. rewrite (@detail_fft_dft n) in Hy
      by (rewrite ?repeat_length; auto).
    injection Hy as <-. rewrite dft_length. symmetry. exact Hx.
  - exact Hfree.
  - destruct (new_FFTCalculator_indices (T:=R) (n:=n))
      as [c [Hc [HN [Hlog [Hnrm [Hidx Hz]]]]]]; [exact Hn|].
    exists c. split; [exact Hc|].
    assert (Hnrm' : nrm c = normalization (2 ^ n)).
    { rewrite Hnrm. unfold normalization. rewrite Z_of_nat_pow2. reflexivity. }
    assert (Hz' : z c = map (fun s => rotation Forward s) (seq 0 n)).
    { rewrite Hz. apply map_ext. intros s. apply rotation_forward. }
    split; [exact Hnrm'|].
    intros out out' Hout Hout'. unfold calc_ifft, calc_fft.
    rewrite (@transform_dft n c x out (fun w => w) Forward) by auto.
    rewrite (@transform_dft n c _ out' cconj Backward);
      auto; try (rewrite dft_length; assumption).
    + apply dft_round_trip; [lia|exact Hx].
    + intros s. symmetry. apply rotation_conj.
Qed.

(** The signal 1, 0 of two samples. *)
Lemma fft_round_trip_witness :
  (exists y, fft_vector [(cone : C); czero] = Some y
             /\ ifft_vector y = Some [(cone : C); czero]) /\
  (forall out out' : list C,
      length out = (2 ^ 1)%nat -> length out' = (2 ^ 1)%nat ->
      exists y, fft [(cone : C); czero] out = Some y
                /\ ifft y out' = Some [(cone : C); czero]) /\
  (exists c : FFTCalculator R,
      new_FFTCalculator (2 ^ Z.of_nat 1) = Some c /\
      nrm c = normalization (2 ^ 1) /\
      forall out out' : list C,
        length out = (2 ^ 1)%nat -> length out' = (2 ^ 1)%nat ->
        calc_ifft c (calc_fft c [(cone : C); czero] out) out'
        = [(cone : C); czero]).
Proof.
  apply (@fft_round_trip 1 [(cone : C); czero]).
  - lia.
  - reflexivity.
Defined.

End RoundTrip.

(* ================================================================== *)
(** * Further properties of optimized_math.h *)
(* ================================================================== *)

Module BitsMore.
Import Bits BitsFacts FFTFacts.
Local Open Scope Z_scope.

Lemma land_pow2_pred (n : Z) : 0 <= n -> Z.land (2 ^ n) (2 ^ n - 1) = 0.
Proof.
  intros Hn. apply Z.bits_inj'. intros i Hi.
  rewrite Z.land_spec, Z.bits_0, Z.pow2_bits_eqb by lia.
  replace (2 ^ n - 1) with (Z.ones n) by (rewrite Z.ones_equiv; lia).
  rewrite Z.testbit_ones_nonneg by lia.
  destruct (Z.eqb_spec n i) as [->|Hne]; [|reflexivity].
  replace (i <? i) with false by (symmetry; apply Z.ltb_irrefl).
  reflexivity.
Qed.

Lemma top_bit (y n : Z) : 0 <= n -> 2 ^ n <= y < 2 ^ (n + 1) -> Z.testbit y n = true.
Proof.
  intros Hn Hy.
  assert (Hpos : 0 < 2 ^ n) by (apply Z.pow_pos_nonneg; lia).
  assert (Hlog : Z.log2 y = n)
    by (apply Z.log2_unique; [lia|rewrite <- Z.add_1_r; lia]).
  rewrite <- Hlog. apply Z.bit_log2. lia.
Qed.

Lemma isPowerOf2_powers (x : Z) :
  isPowerOf2 x = true <-> exists n : Z, 0 <= n /\ x = 2 ^ n.
Proof.
  unfold isPowerOf2. rewrite andb_true_iff, Z.eqb_eq, Z.ltb_lt.
  split.
  - intros [Hland Hpos].
    exists (Z.log2 x). split; [apply Z.log2_nonneg|].
    pose proof (Z.log2_spec x Hpos) as [Hlo Hhi].
    rewrite <- Z.add_1_r in Hhi.
    destruct (Z.eq_dec x (2 ^ Z.log2 x)) as [Heq|Hne]; [exact Heq|exfalso].
    assert (Hbit : Z.testbit (Z.land x (x - 1)) (Z.log2 x) = true).
    { rewrite Z.land_spec.
      rewrite (@top_bit x (Z.log2 x)), (@top_bit (x - 1) (Z.log2 x));
        try reflexivity; try apply Z.log2_nonneg; lia. }
    rewrite Hland, Z.bits_0 in Hbit. discriminate.
  - intros [n [Hn ->]]. split; [apply land_pow2_pred, Hn|].
    apply Z.pow_pos_nonneg; lia.
Qed.

(** X1.  [isPowerOf2(x)] holds exactly for the powers of two
    [1, 2, 4, ...]; 0 and the negative numbers are rejected. *)
Theorem isPowerOf2_iff :
  forall x : Z, isPowerOf2 x = true <-> exists n : Z, 0 <= n /\ x = 2 ^ n.
Proof. exact isPowerOf2_powers. Qed.

(** X2.  For a 32-bit argument, [log2OfPowerOf2(x)] passes its assertion
    exactly when [x] is a power of two, and what it returns then is the
    exponent: the de Bruijn table lookup is the inverse of [n |-> 2^n] for
    the exponents 0 to 31. *)
Theorem log2OfPowerOf2_exponent :
  forall x : Z,
    0 <= x < 2 ^ 32 ->
    (forall n, log2OfPowerOf2 x = Some n <-> (0 <= n < 32 /\ x = 2 ^ n)) /\
    (log2OfPowerOf2 x = None <-> ~ exists n : Z, 0 <= n /\ x = 2 ^ n).
Proof.
  intros x Hx.
  assert (Hsome : forall n, 0 <= n < 32 -> log2OfPowerOf2 (2 ^ n) = Some n)
    by (intros n Hn; apply (log2OfPowerOf2_pow2 Hn)).
  assert (Hsmall : forall n, 0 <= n -> 2 ^ n < 2 ^ 32 -> n < 32).
  { intros n Hn Hlt. apply (Z.pow_lt_mono_r_iff 2); lia. }
  split.
  - intros n. split.
    + intros Hlog.
      assert (Hp : isPowerOf2 x = true).
      { unfold log2OfPowerOf2 in Hlog.
        destruct (isPowerOf2 x); [reflexivity|discriminate]. }
      apply isPowerOf2_powers in Hp. destruct Hp as [m [Hm ->]].
      rewrite Hsome in Hlog by (split; [lia|apply Hsmall; lia]).
      injection Hlog as <-. split; [split; [lia|apply Hsmall; lia]|reflexivity].
    + intros [Hn ->]. apply Hsome, Hn.
  - rewrite <- isPowerOf2_powers. unfold log2OfPowerOf2.
    destruct (isPowerOf2 x); split; intros H; try discriminate;
      try reflexivity; congruence.
Qed.

Lemma log2OfPowerOf2_exponent_witness :
  (forall n, log2OfPowerOf2 1024 = Some n <-> (0 <= n < 32 /\ 1024 = 2 ^ n)) /\
  (log2OfPowerOf2 1024 = None <-> ~ exists n : Z, 0 <= n /\ 1024 = 2 ^ n).
Proof. apply (@log2OfPowerOf2_exponent 1024). lia. Defined.

(** The values of the two types. *)
Definition representable (k : int_kind) (x : Z) : Prop :=
  match k with
  | U32 => 0 <= x < 2 ^ 32
  | I32 => - 2 ^ 31 <= x < 2 ^ 31
  end.

(** The first swap on any integer: the shift to the right of an [int] is
    arithmetic, so for a negative [x] the upper half receives the sign. *)
Lemma swap16_bits_any (k : int_kind) (x i : Z) :
  0 <= i < 32 ->
  Z.testbit (swap16 k x) i = Z.testbit x (i - 16) || Z.testbit x (i + 16).
Proof. intros Hi. unfold swap16. bits_of_swap. reflexivity. Qed.

Lemma reverse32_bits_any (k : int_kind) (x i : Z) :
  0 <= i < 32 ->
  Z.testbit (reverse32 k x) i
  = if i <? 16 then Z.testbit x (31 - i)
    else Z.testbit x (31 - i) || Z.testbit x (63 - i).
Proof.
  intros Hi. unfold reverse32.
  change 32 with (Z.of_nat 32) in Hi.
  each_bit i;
    rewrite swap1_bits, swap2_bits, swap4_bits, swap8_bits, swap16_bits_any
      by (cbn; lia);
    reflexivity.
Qed.

(** The bits above the width of the type are copies of the sign. *)
Lemma high_bit_sign (k : int_kind) (x j : Z) :
  representable k x -> 32 <= j -> Z.testbit x j = (x <? 0).
Proof.
  intros Hx Hj.
  assert (Hrange : - 2 ^ 31 <= x < 2 ^ 32) by (destruct k; cbn in Hx; lia).
  destruct (Z.ltb_spec x 0) as [Hneg|Hpos].
  - replace x with (- (- x)) by lia.
    rewrite Z.bits_opp by lia.
    rewrite (@testbit_high (Z.pred (- x)) 31 j) by lia. reflexivity.
  - apply (@testbit_high x 32 j); lia.
Qed.

Lemma reversed_bits_any (k : int_kind) (x nb i : Z) :
  1 <= nb <= 31 -> representable k x -> 0 <= i ->
  Z.testbit (reversed k x nb) i
  = (i <? nb)
    && (Z.testbit x (nb - 1 - i) || ((x <? 0) && (nb - 1 - i <? 16))).
Proof.
  intros Hnb Hx Hi. unfold reversed.
  rewrite mask_ones by lia.
  rewrite Z.land_spec, Z.shiftr_spec by lia.
  rewrite Z.testbit_ones_nonneg by lia.
  destruct (Z.ltb_spec i nb) as [Hlt|Hge]; [|apply andb_false_r].
  rewrite andb_true_r, andb_true_l.
  rewrite reverse32_bits_any by lia.
  replace (31 - (i + (32 - nb))) with (nb - 1 - i) by lia.
  destruct (Z.ltb_spec (i + (32 - nb)) 16) as [Hlow|Hhigh].
  - replace (nb - 1 - i <? 16) with false by (symmetry; apply Z.ltb_ge; lia).
    rewrite andb_false_r, orb_false_r. reflexivity.
  - replace (nb - 1 - i <? 16) with true by (symmetry; apply Z.ltb_lt; lia).
    rewrite andb_true_r.
    rewrite (@high_bit_sign k x (63 - (i + (32 - nb)))) by (try assumption; lia).
    reflexivity.
Qed.

(** X3.  [bitReverse(x, nb)] on every value [x] of the type, for
    [unsigned int] and for [int]: the call aborts exactly when [nb] is
    outside 1..31; otherwise the result is below [2^nb].  For [x >= 0] bit
    [i] of the result is bit [nb - 1 - i] of [x], and the bits of [x] from
    [nb] on play no part.  For a negative [int] the result is not the
    reversal of the bits: the first swap shifts the sign into the upper
    half, and every bit of the result that should come from the bits 0 to
    15 of [x] is 1; with [nb <= 16] the result is [2^nb - 1] whatever [x]
    is. *)
Theorem bitReverse_bits :
  forall (k : int_kind) (x nb : Z),
    representable k x ->
    (bitReverse k x nb = None <-> ~ (1 <= nb <= 31)) /\
    (1 <= nb <= 31 ->
     exists r,
       bitReverse k x nb = Some r /\ 0 <= r < 2 ^ nb /\
       (forall i, 0 <= i ->
          Z.testbit r i
          = (i <? nb)
            && (Z.testbit x (nb - 1 - i)
                || ((x <? 0) && (nb - 1 - i <? 16)))) /\
       (0 <= x ->
        (forall i, 0 <= i ->
           Z.testbit r i = (i <? nb) && Z.testbit x (nb - 1 - i)) /\
        bitReverse k (x mod 2 ^ nb) nb = Some r) /\
       (x < 0 -> nb <= 16 -> r = 2 ^ nb - 1)).
Proof.
  intros k x nb Hx. split.
  - unfold bitReverse.
    destruct (Z.ltb_spec 0 nb), (Z.ltb_spec nb 32); cbn [andb];
      split; intros H1; try discriminate; try reflexivity; lia.
  - intros Hnb. exists (reversed k x nb).
    assert (Hp : 0 < 2 ^ nb) by (apply Z.pow_pos_nonneg; lia).
    assert (H31 : 2 ^ nb <= 2 ^ 31) by (apply Z.pow_le_mono_r; lia).
    pose proof (Z.mod_pos_bound x (2 ^ nb) Hp) as Hmod.
    rewrite !bitReverse_eq by lia.
    split; [reflexivity|]. split; [apply reversed_range, Hnb|].
    split; [intros i Hi; apply reversed_bits_any; assumption|].
    split.
    + intros Hpos.
      assert (Hsign : (x <? 0) = false) by (apply Z.ltb_ge; exact Hpos).
      split.
      * intros i Hi. rewrite reversed_bits_any by assumption.
        rewrite Hsign, andb_false_l, orb_false_r. reflexivity.
      * f_equal. apply Z.bits_inj'. intros i Hi.
        assert (Hx' : representable k (x mod 2 ^ nb))
          by (destruct k; cbn in *; lia).
        rewrite !reversed_bits_any by assumption.
        rewrite Hsign.
        replace (x mod 2 ^ nb <? 0) with false by (symmetry; apply Z.ltb_ge; lia).
        rewrite !andb_false_l, !orb_false_r.
        destruct (Z.ltb_spec i nb) as [Hlt|Hge]; [|reflexivity].
        rewrite !andb_true_l. apply Z.mod_pow2_bits_low. lia.
    + intros Hneg H16.
      replace (2 ^ nb - 1) with (Z.ones nb) by (rewrite Z.ones_equiv; lia).
      apply Z.bits_inj'. intros i Hi.
      rewrite reversed_bits_any by assumption.
      rewrite Z.testbit_ones_nonneg by lia.
      destruct (Z.ltb_spec i nb) as [Hlt|Hge]; [|reflexivity].
      replace (x <? 0) with true by (symmetry; apply Z.ltb_lt; exact Hneg).
      replace (nb - 1 - i <? 16) with true by (symmetry; apply Z.ltb_lt; lia).
      rewrite orb_true_r. reflexivity.
Qed.

(** The negative [int] -16 and 4 bits: the result is 15, while the four
    low bits of -16 are 0. *)
Lemma bitReverse_bits_witness :
  (bitReverse I32 (-16) 4 = None <-> ~ (1 <= 4 <= 31)) /\
  (1 <= 4 <= 31 ->
   exists r,
     bitReverse I32 (-16) 4 = Some r /\ 0 <= r < 2 ^ 4 /\
     (forall i, 0 <= i ->
        Z.testbit r i
        = (i <? 4)
          && (Z.testbit (-16) (4 - 1 - i)
              || ((-16 <? 0) && (4 - 1 - i <? 16)))) /\
     (0 <= -16 ->
      (forall i, 0 <= i ->
         Z.testbit r i = (i <? 4) && Z.testbit (-16) (4 - 1 - i)) /\
      bitReverse I32 (-16 mod 2 ^ 4) 4 = Some r) /\
     (-16 < 0 -> 4 <= 16 -> r = 2 ^ 4 - 1)).
Proof. apply (@bitReverse_bits I32 (-16) 4). cbn. lia. Defined.

Example bitReverse_negative_int : bitReverse I32 (-16) 4 = Some 15.
Proof. reflexivity. Qed.

Example bitReverse_unsigned_F6 : bitReverse U32 0xF6 3 = Some 3.
Proof. reflexivity. Qed.

End BitsMore.

(* ================================================================== *)
(** * Further properties of fft.h *)
(* ================================================================== *)

Module FourierMore.
Import ComplexRing Roots StageFacts Reversal LoopFacts FFT Fourier RoundTrip.
Import Bits BitsFacts FFTFacts.
Local Open Scope cplx_scope.

(** The point of the unit circle at the angle [a]. *)
Definition cis (a : R) : C := mkComplex (cos a) (sin a).

(** De Moivre: powers of a point of the unit circle. *)
Lemma cpow_cis (a : R) (k : nat) : cpow (cis a) k = cis (INR k * a)%R.
Proof.
  induction k as [|k IH].
  - cbn [cpow INR]. unfold cis. rewrite Rmult_0_l, cos_0, sin_0. reflexivity.
  - cbn [cpow]. rewrite IH, S_INR. unfold cis.
    replace ((INR k + 1) * a)%R with (INR k * a + a)%R by ring.
    rewrite cos_plus, sin_plus. apply complex_eq; cbn; ring.
Qed.

Lemma rotation_cis (dir : FFTDirection) (s : nat) :
  rotation dir s = cis (IZR (direction_value dir) * PI / 2 ^ s)%R.
Proof.
  unfold rotation, polar, cis. cbn -[cos sin PI Nat.shiftl].
  rewrite IZR_pow2, !Rmult_1_l. reflexivity.
Qed.

(** The powers of the root of the whole transform of [2^n] elements. *)
Lemma omega_pow_cis (dir : FFTDirection) (n k : nat) :
  (1 <= n)%nat ->
  cpow (omega dir n) k
  = cis (IZR (direction_value dir) * 2 * PI * INR k / INR (2 ^ n))%R.
Proof.
  intros Hn. destruct n as [|n]; [lia|]. cbn [omega].
  rewrite rotation_cis, cpow_cis. f_equal.
  rewrite pow_INR. change (INR 2) with 2%R. cbn [pow].
  field. apply Rgt_not_eq, pow2_pos.
Qed.

Lemma normalization_INR (N : nat) : normalization N = (1 / R_sqrt.sqrt (INR N))%R.
Proof. unfold normalization. rewrite INR_IZR_INZ. reflexivity. Qed.

(** X4.  On a signal of [N = 2^n] samples, [1 <= n <= 30], [detail::fft]
    returns, and element [q] of its result is
    [1/sqrt N * sum_j x_j * e^(dir * 2 pi i j q / N)]: the discrete Fourier
    transform, with the positive sign in the exponent for the forward
    direction and the negative sign for the backward direction. *)
Theorem detail_fft_is_dft :
  forall (n : nat) (x out : list C) (dir : FFTDirection),
    (1 <= n <= 30)%nat -> length x = (2 ^ n)%nat ->
    length out = (2 ^ n)%nat ->
    exists y,
      detail_fft x out dir = Some y /\ length y = (2 ^ n)%nat /\
      forall q, (q < 2 ^ n)%nat ->
        G y q
        = cscale (1 / R_sqrt.sqrt (INR (2 ^ n)))%R
            (csum (2 ^ n)
               (fun j => G x j
                         * cis (IZR (direction_value dir) * 2 * PI
                                * INR (j * q) / INR (2 ^ n))%R)).
Proof.
  intros n x out dir Hn Hx Hout.
  exists (dft (omega dir n) (normalization (2 ^ n)) x).
  split; [apply detail_fft_dft; assumption|].
  split; [rewrite dft_length; exact Hx|].
  intros q Hq. rewrite dft_get, Hx by (rewrite Hx; exact Hq).
  rewrite cscale_cmul, normalization_INR. f_equal.
  apply csum_ext. intros j _. rewrite omega_pow_cis by lia. reflexivity.
Qed.

Lemma detail_fft_is_dft_witness :
  exists y,
    detail_fft [(cone : C); czero] [(czero : C); czero] Backward = Some y /\
    length y = (2 ^ 1)%nat /\
    forall q, (q < 2 ^ 1)%nat ->
      G y q
      = cscale (1 / R_sqrt.sqrt (INR (2 ^ 1)))%R
          (csum (2 ^ 1)
             (fun j => G [(cone : C); czero] j
                       * cis (IZR (direction_value Backward) * 2 * PI
                              * INR (j * q) / INR (2 ^ 1))%R)).
Proof.
  apply (@detail_fft_is_dft 1 [(cone : C); czero] [(czero : C); czero] Backward).
  - lia.
  - reflexivity.
  - reflexivity.
Defined.

(** The calculator the constructor builds for [2^n] elements, with what
    its members compute. *)
Lemma calculator_dft (n : nat) :
  (1 <= n <= 30)%nat ->
  exists c : FFTCalculator R,
    new_FFTCalculator (2 ^ Z.of_nat n) = Some c /\ N c = (2 ^ n)%nat /\
    forall x out : list C,
      length x = (2 ^ n)%nat -> length out = (2 ^ n)%nat ->
      calc_fft c x out = dft (omega Forward n) (normalization (2 ^ n)) x /\
      calc_ifft c x out = dft (omega Backward n) (normalization (2 ^ n)) x.
Proof.
  intros Hn.
  destruct (new_FFTCalculator_indices (T:=R) (n:=n))
    as [c [Hc [HN [Hlog [Hnrm [Hidx Hz]]]]]]; [exact Hn|].
  exists c. split; [exact Hc|]. split; [exact HN|].
  assert (Hnrm' : nrm c = normalization (2 ^ n)).
  { rewrite Hnrm. unfold normalization. rewrite Z_of_nat_pow2. reflexivity. }
  assert (Hz' : z c = map (fun s => rotation Forward s) (seq 0 n)).
  { rewrite Hz. apply map_ext. intros s. apply rotation_forward. }
  intros x out Hx Hout. unfold calc_fft, calc_ifft. split.
  - apply (@transform_dft n c x out (fun w => w) Forward); auto.
  - apply (@transform_dft n c x out cconj Backward); auto.
    intros s. symmetry. apply rotation_conj.
Qed.

(** X5.  The members [fft] and [ifft] of the [FFTCalculator] built for
    [N = 2^n] elements return what the free functions [fft] and [ifft]
    return on signals of [N] samples: the precomputed index table and
    rotations change nothing in the result. *)
Theorem calculator_agrees_with_functions :
  forall n : nat,
    (1 <= n <= 30)%nat ->
    exists c : FFTCalculator R,
      new_FFTCalculator (2 ^ Z.of_nat n) = Some c /\
      forall x out out' : list C,
        length x = (2 ^ n)%nat -> length out = (2 ^ n)%nat ->
        length out' = (2 ^ n)%nat ->
        fft x out = Some (calc_fft c x out') /\
        ifft x out = Some (calc_ifft c x out').
Proof.
  intros n Hn. destruct (calculator_dft Hn) as [c [Hc [_ Hdft]]].
  exists c. split; [exact Hc|].
  intros x out out' Hx Hout Hout'.
  destruct (Hdft x out' Hx Hout') as [-> ->].
  unfold fft, ifft. split; apply detail_fft_dft; assumption.
Qed.

Lemma calculator_agrees_with_functions_witness :
  exists c : FFTCalculator R,
    new_FFTCalculator (2 ^ Z.of_nat 2) = Some c /\
    forall x out out' : list C,
      length x = (2 ^ 2)%nat -> length out = (2 ^ 2)%nat ->
      length out' = (2 ^ 2)%nat ->
      fft x out = Some (calc_fft c x out') /\
      ifft x out = Some (calc_ifft c x out').
Proof. apply (@calculator_agrees_with_functions 2). lia. Defined.

End FourierMore.

(** Sums, conjugates and roots: what the properties of spectra need. *)
Module Spectra.
Import ComplexRing Roots StageFacts LoopFacts FFT Fourier RoundTrip.
Local Open Scope cplx_scope.

(** The other direction. *)
Definition flip (dir : FFTDirection) : FFTDirection :=
  match dir with Forward => Backward | Backward => Forward end.

Lemma csum_shift (n : nat) (f : nat -> C) :
  csum (S n) f = f 0%nat + csum n (fun j => f (S j)).
Proof.
  induction n as [|n IH]; [cbn; ring|].
  cbn [csum] in *. rewrite IH. ring.
Qed.

Lemma csum_rev (n : nat) (f : nat -> C) :
  csum n f = csum n (fun j => f (n - 1 - j)%nat).
Proof.
  induction n as [|n IH]; [reflexivity|].
  rewrite (csum_shift n (fun j => f (S n - 1 - j)%nat)).
  cbn [csum]. rewrite IH.
  replace (S n - 1 - 0)%nat with n by lia.
  rewrite (@csum_ext n (fun j => f (S n - 1 - S j)%nat)
             (fun j => f (n - 1 - j)%nat))
    by (intros j Hj; f_equal; lia).
  ring.
Qed.

(** A sum over all indices below [n] in the order
    [0, n - 1, n - 2, ..., 1]. *)
Lemma csum_reflect (n : nat) (f : nat -> C) :
  csum n f = csum n (fun q => f ((n - q) mod n)%nat).
Proof.
  destruct n as [|m]; [reflexivity|].
  rewrite !csum_shift.
  replace ((S m - 0) mod S m)%nat with 0%nat
    by (rewrite Nat.sub_0_r, Nat.Div0.mod_same; reflexivity).
  f_equal. rewrite (csum_rev m (fun j => f (S j))).
  apply csum_ext. intros j Hj.
  rewrite Nat.mod_small by lia. f_equal. lia.
Qed.

Lemma csum_product (n m : nat) (f g : nat -> C) :
  csum n f * csum m g = csum n (fun j => csum m (fun l => f j * g l)).
Proof.
  induction n as [|n IH]; cbn [csum]; [ring|].
  rewrite <- IH, csum_scale. ring.
Qed.

Lemma cconj_add (a b : C) : cconj (a + b) = cconj a + cconj b.
Proof. apply complex_eq; cbn; ring. Qed.

Lemma cconj_mul (a b : C) : cconj (a * b) = cconj a * cconj b.
Proof. apply complex_eq; cbn; ring. Qed.

Lemma cconj_of_real (r : R) : cconj (of_real r) = of_real r.
Proof. apply complex_eq; cbn; ring. Qed.

Lemma cconj_involutive (a : C) : cconj (cconj a) = a.
Proof. apply complex_eq; cbn; ring. Qed.

Lemma cconj_csum (n : nat) (f : nat -> C) :
  cconj (csum n f) = csum n (fun j => cconj (f j)).
Proof.
  induction n as [|n IH]; cbn [csum].
  - apply complex_eq; cbn; ring.
  - rewrite cconj_add, IH. reflexivity.
Qed.

Lemma cconj_cpow (w : C) (k : nat) : cconj (cpow w k) = cpow (cconj w) k.
Proof.
  induction k as [|k IH]; cbn [cpow].
  - apply complex_eq; cbn; ring.
  - rewrite cconj_mul, IH. reflexivity.
Qed.

(** A number is real exactly when it is its own conjugate. *)
Lemma cconj_fixed (a : C) : cconj a = a <-> imag a = 0%R.
Proof.
  split.
  - intros Heq. apply (f_equal imag) in Heq. cbn in Heq. lra.
  - intros Him. apply complex_eq; cbn; [reflexivity|]. rewrite Him. ring.
Qed.

Lemma omega_conj (dir : FFTDirection) (n : nat) :
  cconj (omega dir n) = omega (flip dir) n.
Proof.
  destruct n as [|n]; cbn [omega].
  - apply complex_eq; cbn; ring.
  - destruct dir; cbn [flip].
    + symmetry. apply rotation_conj.
    + rewrite rotation_conj. apply cconj_involutive.
Qed.

Lemma omega_inverse (dir : FFTDirection) (n : nat) :
  omega dir n * omega (flip dir) n = 1.
Proof.
  destruct n as [|n]; cbn [omega]; [ring|].
  destruct dir; cbn [flip]; [apply rotation_inverse|].
  rewrite <- (rotation_inverse n). ring.
Qed.

Lemma pow2_positive (n : nat) : (0 < 2 ^ n)%nat.
Proof. apply Nat.neq_0_lt_0, Nat.pow_nonzero. lia. Qed.

Lemma omega_full (dir : FFTDirection) (n : nat) :
  cpow (omega dir n) (2 ^ n) = 1.
Proof.
  destruct n as [|n]; [cbn; ring|].
  replace (2 ^ S n)%nat with (2 ^ n * 2)%nat by (cbn; lia).
  rewrite cpow_mul, omega_half. cbn. ring.
Qed.

Lemma omega_pow_inverse (dir : FFTDirection) (n k : nat) :
  cpow (omega dir n) k * cpow (omega (flip dir) n) k = 1.
Proof. rewrite <- cpow_mul_l, omega_inverse. apply cpow_1_l. Qed.

(** Exponents count modulo [2^n]. *)
Lemma omega_pow_mod (dir : FFTDirection) (n d : nat) :
  cpow (omega dir n) d = cpow (omega dir n) (d mod 2 ^ n).
Proof.
  pose proof (pow2_positive n) as Hpos.
  rewrite (Nat.div_mod_eq d (2 ^ n)) at 1.
  rewrite cpow_add, cpow_mul, omega_full, cpow_1_l. ring.
Qed.

(** The power at the mirrored index is the power of the inverse root. *)
Lemma omega_pow_mirror (dir : FFTDirection) (n q k : nat) :
  (q < 2 ^ n)%nat ->
  cpow (omega dir n) ((2 ^ n - q) mod 2 ^ n * k)
  = cpow (omega (flip dir) n) (q * k).
Proof.
  intros Hq.
  set (m := ((2 ^ n - q) mod 2 ^ n)%nat).
  assert (Hm : exists t, (m + q = t * 2 ^ n)%nat).
  { unfold m. destruct q as [|q].
    - exists 0%nat. rewrite Nat.sub_0_r, Nat.Div0.mod_same. lia.
    - exists 1%nat. rewrite Nat.mod_small by lia. lia. }
  destruct Hm as [t Ht].
  transitivity (cpow (omega dir n) (m * k)
                * (cpow (omega dir n) (q * k)
                   * cpow (omega (flip dir) n) (q * k))).
  - rewrite omega_pow_inverse. ring.
  - transitivity (cpow (omega dir n) (m * k + q * k)
                  * cpow (omega (flip dir) n) (q * k)).
    + rewrite cpow_add. ring.
    + replace (m * k + q * k)%nat with (2 ^ n * (t * k))%nat by nia.
      rewrite cpow_mul, omega_full, cpow_1_l. ring.
Qed.

(** The sum of the powers [w ^ (d q)] over a whole period. *)
Lemma omega_pow_sum (dir : FFTDirection) (n d : nat) :
  (1 <= n)%nat ->
  csum (2 ^ n) (fun q => cpow (omega dir n) (d * q))
  = if d mod 2 ^ n =? 0 then of_nat (2 ^ n) else 0.
Proof.
  intros Hn. pose proof (pow2_positive n) as Hpos.
  rewrite (@csum_ext _ _ (fun q => cpow (omega dir n) (d mod 2 ^ n * q))).
  2:{ intros q _. rewrite (cpow_mul _ d q), (omega_pow_mod dir n d).
      rewrite <- cpow_mul. reflexivity. }
  pose proof (Nat.mod_upper_bound d (2 ^ n) ltac:(lia)) as Hmod.
  destruct (Nat.eqb_spec (d mod 2 ^ n) 0) as [->|Hne].
  - rewrite <- csum_ones. apply csum_ext. intros q _. reflexivity.
  - destruct n as [|n]; [lia|]. cbn [omega].
    apply geometric_sum_zero; [apply rotation_pow|lia].
Qed.

Section Transforms.
Variables (dir : FFTDirection) (n : nat) (nrm : R).
Hypothesis Hn : (1 <= n)%nat.
Hypothesis Hnrm : of_real nrm * of_real nrm * of_nat (2 ^ n) = 1.

(** The transform applied twice is the signal in mirrored order. *)
Lemma dft_twice (x : list C) (k : nat) :
  length x = (2 ^ n)%nat -> (k < 2 ^ n)%nat ->
  G (dft (omega dir n) nrm (dft (omega dir n) nrm x)) k
  = G x ((2 ^ n - k) mod 2 ^ n)%nat.
Proof.
  intros Hx Hk. pose proof (pow2_positive n) as Hpos.
  rewrite dft_get by (rewrite dft_length, Hx; exact Hk).
  rewrite dft_length, Hx.
  set (k' := ((2 ^ n - k) mod 2 ^ n)%nat).
  assert (Hk' : (k' < 2 ^ n)%nat) by (apply Nat.mod_upper_bound; lia).
  transitivity
    (of_real nrm
     * (of_real nrm
        * csum (2 ^ n)
            (fun j => G x j * (if j =? k' then of_nat (2 ^ n) else 0)))).
  - f_equal.
    rewrite (@csum_ext _ _
               (fun q => of_real nrm
                         * csum (2 ^ n)
                             (fun j => G x j * cpow (omega dir n) ((j + k) * q)))).
    2:{ intros q Hq. rewrite dft_get by (rewrite Hx; exact Hq). rewrite Hx.
        transitivity
          (of_real nrm
           * (csum (2 ^ n) (fun j => G x j * cpow (omega dir n) (j * q))
              * cpow (omega dir n) (q * k)));
          [ring|].
        f_equal. rewrite <- csum_scale_r. apply csum_ext. intros j _.
        replace ((j + k) * q)%nat with (j * q + q * k)%nat by lia.
        rewrite cpow_add. ring. }
    rewrite csum_scale. f_equal.
    rewrite csum_swap. apply csum_ext. intros j Hj.
    rewrite csum_scale. f_equal.
    rewrite omega_pow_sum by exact Hn.
    assert (Hiff : ((j + k) mod 2 ^ n =? 0) = (j =? k')).
    { unfold k'. destruct (Nat.eqb_spec j ((2 ^ n - k) mod 2 ^ n)) as [->|Hne].
      - apply Nat.eqb_eq. destruct k as [|k].
        + rewrite Nat.sub_0_r, Nat.Div0.mod_same. cbn [Nat.add].
          apply Nat.Div0.mod_0_l.
        + rewrite (Nat.mod_small (2 ^ n - S k)) by lia.
          replace (2 ^ n - S k + S k)%nat with (2 ^ n)%nat by lia.
          apply Nat.Div0.mod_same.
      - apply Nat.eqb_neq. intros Hmod. apply Hne.
        destruct k as [|k].
        + rewrite Nat.sub_0_r, Nat.Div0.mod_same.
          rewrite Nat.add_0_r, Nat.mod_small in Hmod by lia. exact Hmod.
        + rewrite (Nat.mod_small (2 ^ n - S k)) by lia.
          destruct (Nat.lt_ge_cases (j + S k) (2 ^ n)) as [Hlt|Hge].
          * rewrite Nat.mod_small in Hmod by lia. lia.
          * replace (j + S k)%nat with ((j + S k - 2 ^ n) + 1 * 2 ^ n)%nat
              in Hmod by lia.
            rewrite Nat.Div0.mod_add, Nat.mod_small in Hmod by lia. lia. }
    rewrite Hiff. reflexivity.
  - rewrite (@csum_single (2 ^ n) k') by
      (try assumption; intros i _ Hne;
       replace (i =? k') with false by (symmetry; apply Nat.eqb_neq; exact Hne);
       ring).
    rewrite Nat.eqb_refl.
    transitivity (G x k' * (of_real nrm * of_real nrm * of_nat (2 ^ n)));
      [ring|].
    rewrite Hnrm. ring.
Qed.

(** The squared magnitudes of the transform add up to those of the
    signal. *)
Lemma dft_energy (x : list C) :
  length x = (2 ^ n)%nat ->
  csum (2 ^ n)
    (fun q => G (dft (omega dir n) nrm x) q
              * cconj (G (dft (omega dir n) nrm x) q))
  = csum (2 ^ n) (fun j => G x j * cconj (G x j)).
Proof.
  intros Hx.
  rewrite (@csum_ext _ _
             (fun q =>
                of_real nrm * of_real nrm
                * csum (2 ^ n)
                    (fun j =>
                       csum (2 ^ n)
                         (fun l =>
                            G x j * cconj (G x l)
                            * (cpow (omega dir n) (j * q)
                               * cpow (omega (flip dir) n) (q * l)))))).
  2:{ intros q Hq. rewrite dft_get by (rewrite Hx; exact Hq). rewrite Hx.
      rewrite cconj_mul, cconj_of_real, cconj_csum.
      transitivity
        (of_real nrm * of_real nrm
         * (csum (2 ^ n) (fun j => G x j * cpow (omega dir n) (j * q))
            * csum (2 ^ n)
                (fun l => cconj (G x l * cpow (omega dir n) (l * q)))));
        [ring|].
      f_equal. rewrite csum_product.
      apply csum_ext. intros j _. apply csum_ext. intros l _.
      rewrite cconj_mul, cconj_cpow, omega_conj, (Nat.mul_comm l q). ring. }
  rewrite csum_scale, csum_swap.
  rewrite (@csum_ext _ _
             (fun j => G x j * cconj (G x j) * of_nat (2 ^ n))).
  2:{ intros j Hj. rewrite csum_swap.
      rewrite (@csum_ext _ _
                 (fun l => G x j * cconj (G x l)
                           * (if j =? l then of_nat (2 ^ n) else 0))).
      2:{ intros l Hl. rewrite csum_scale. f_equal.
          destruct n as [|n']; [lia|]. cbn [omega flip].
          apply roots_orthogonal; try assumption.
          - destruct dir; cbn [flip]; [apply rotation_inverse|].
            rewrite <- (rotation_inverse n'). ring.
          - apply rotation_pow.
          - apply rotation_pow. }
      rewrite (@csum_single (2 ^ n) j) by
        (try assumption; intros i _ Hne;
         replace (j =? i) with false
           by (symmetry; apply Nat.eqb_neq; auto);
         ring).
      rewrite Nat.eqb_refl. reflexivity. }
  rewrite csum_scale_r.
  transitivity (csum (2 ^ n) (fun j => G x j * cconj (G x j))
                * (of_real nrm * of_real nrm * of_nat (2 ^ n))); [ring|].
  rewrite Hnrm. ring.
Qed.

(** A spectrum is Hermitian when every bin is the conjugate of its mirror
    bin; bin 0 is its own mirror, and real. *)
Definition hermitian (y : list C) : Prop :=
  forall k, (k < length y)%nat ->
    G y ((length y - k) mod length y)%nat = cconj (G y k).

Definition real_valued (x : list C) : Prop :=
  forall j, imag (G x j) = 0%R.

(** The transform of a real signal is Hermitian. *)
Lemma dft_of_real_hermitian (x : list C) :
  length x = (2 ^ n)%nat -> real_valued x ->
  hermitian (dft (omega dir n) nrm x).
Proof.
  intros Hx Hreal k Hk. rewrite dft_length, Hx in *.
  pose proof (pow2_positive n) as Hpos.
  rewrite !dft_get by (rewrite Hx; try apply Nat.mod_upper_bound; lia).
  rewrite Hx, cconj_mul, cconj_of_real, cconj_csum. f_equal.
  apply csum_ext. intros j _.
  rewrite cconj_mul, cconj_cpow, omega_conj.
  rewrite (proj2 (cconj_fixed (G x j)) (Hreal j)). f_equal.
  rewrite (Nat.mul_comm j), omega_pow_mirror by exact Hk.
  f_equal. lia.
Qed.

(** The transform of a Hermitian spectrum is real. *)
Lemma dft_of_hermitian_real (y : list C) :
  length y = (2 ^ n)%nat -> hermitian y ->
  real_valued (dft (omega dir n) nrm y).
Proof.
  intros Hy Hherm k. pose proof (pow2_positive n) as Hpos.
  destruct (Nat.lt_ge_cases k (2 ^ n)) as [Hk|Hk].
  2:{ unfold get. rewrite nth_overflow by (rewrite dft_length, Hy; exact Hk).
      reflexivity. }
  apply cconj_fixed.
  rewrite dft_get by (rewrite Hy; exact Hk). rewrite Hy.
  rewrite cconj_mul, cconj_of_real, cconj_csum. f_equal.
  rewrite (csum_reflect (2 ^ n)
             (fun q => G y q * cpow (omega dir n) (q * k))).
  apply csum_ext. intros q Hq.
  rewrite cconj_mul, cconj_cpow, omega_conj.
  rewrite <- Hherm by (rewrite Hy; exact Hq). rewrite Hy. f_equal.
  rewrite omega_pow_mirror by exact Hq.
  destruct dir; reflexivity.
Qed.

End Transforms.

End Spectra.

(** What the transforms of the code do to signals: real signals, energy,
    the transform applied twice. *)
Module Signals.
Import ComplexRing Roots StageFacts LoopFacts FFT Fourier RoundTrip.
Import FourierMore Spectra.
Local Open Scope cplx_scope.

Lemma get_of_real (l : list R) (k : nat) :
  G (map of_real l) k = of_real (get 0%R l k).
Proof.
  unfold get. change (czero : C) with (of_real 0%R : C). apply map_nth.
Qed.

Lemma map_get_seq {A : Type} (d : A) (l : list A) :
  map (fun i => get d l i) (seq 0 (length l)) = l.
Proof.
  apply (nth_ext _ _ d d).
  - rewrite length_map, length_seq. reflexivity.
  - intros i Hi. rewrite length_map, length_seq in Hi.
    change (get d (map (fun i => get d l i) (seq 0 (length l))) i = get d l i).
    apply get_map_seq_any. exact Hi.
Qed.

(** [fft] of a real signal is [fft] of the signal converted to complex. *)
Lemma calc_fft_of_real_complex (c : FFTCalculator R) (signal : list R)
    (out : list C) :
  length out = N c ->
  calc_fft_of_real c signal out = calc_fft c (map of_real signal) out.
Proof.
  intros Hout. unfold calc_fft_of_real, calc_fft, transform.
  rewrite !(fill_all _ out Hout). f_equal.
  apply map_ext. intros i. rewrite get_of_real.
  apply complex_eq; cbn; ring.
Qed.

(** [ifft_real] keeps the real parts of [ifft]. *)
Lemma calc_ifft_real_parts (c : FFTCalculator R) (y : list C) (out : list R) :
  length out = N c ->
  calc_ifft_real c y out
  = map (fun i => real (G (calc_ifft c y (repeat czero (N c))) i))
        (seq 0 (N c)).
Proof. intros Hout. unfold calc_ifft_real. apply fill_all. exact Hout. Qed.

(** The calculator for [2^n] elements, with what its four transforms
    compute. *)
Lemma real_calculator (n : nat) :
  (1 <= n <= 30)%nat ->
  exists c : FFTCalculator R,
    new_FFTCalculator (2 ^ Z.of_nat n) = Some c /\ N c = (2 ^ n)%nat /\
    (forall x out : list C,
        length x = (2 ^ n)%nat -> length out = (2 ^ n)%nat ->
        calc_fft c x out = dft (omega Forward n) (normalization (2 ^ n)) x /\
        calc_ifft c x out = dft (omega Backward n) (normalization (2 ^ n)) x) /\
    (forall (signal : list R) (out : list C),
        length signal = (2 ^ n)%nat -> length out = (2 ^ n)%nat ->
        calc_fft_of_real c signal out
        = dft (omega Forward n) (normalization (2 ^ n)) (map of_real signal)) /\
    (forall (y : list C) (out : list R),
        length y = (2 ^ n)%nat -> length out = (2 ^ n)%nat ->
        calc_ifft_real c y out
        = map (fun i => real (G (dft (omega Backward n)
                                   (normalization (2 ^ n)) y) i))
              (seq 0 (2 ^ n))).
Proof.
  intros Hn. destruct (calculator_dft Hn) as [c [Hc [HN Hdft]]].
  exists c. split; [exact Hc|]. split; [exact HN|]. split; [exact Hdft|].
  split.
  - intros signal out Hs Hout.
    rewrite calc_fft_of_real_complex by (rewrite HN; exact Hout).
    apply Hdft; [rewrite length_map; exact Hs|exact Hout].
  - intros y out Hy Hout.
    rewrite calc_ifft_real_parts by (rewrite HN; exact Hout).
    rewrite HN.
    rewrite (proj2 (Hdft y (repeat czero (2 ^ n)) Hy (repeat_length _ _))).
    reflexivity.
Qed.

Lemma normalization_pow2 (n : nat) :
  of_real (normalization (2 ^ n)) * of_real (normalization (2 ^ n))
  * of_nat (2 ^ n) = 1.
Proof. apply normalization_square, pow2_positive. Qed.

(** The two transforms undo each other in the other order too. *)
Lemma dft_round_trip_back (n : nat) (y : list C) :
  (1 <= n)%nat -> length y = (2 ^ n)%nat ->
  dft (omega Forward n) (normalization (2 ^ n))
    (dft (omega Backward n) (normalization (2 ^ n)) y) = y.
Proof.
  intros Hn Hy. destruct n as [|n]; [lia|]. cbn [omega].
  apply (@dft_inverse n); try assumption.
  - rewrite <- (rotation_inverse n). ring.
  - apply rotation_pow.
  - apply rotation_pow.
  - apply normalization_pow2.
Qed.

(** The sum of the squared magnitudes of a buffer. *)
Definition norm2 (a : C) : R := (real a * real a + imag a * imag a)%R.

Definition energy (x : list C) : R := fold_right Rplus 0%R (map norm2 x).

Lemma energy_csum (x : list C) :
  csum (length x) (fun j => G x j * cconj (G x j)) = of_real (energy x).
Proof.
  induction x as [|a x IH]; [reflexivity|].
  cbn [length]. rewrite csum_shift.
  change (G (a :: x) 0) with a.
  rewrite (@csum_ext _ _ (fun j => G x j * cconj (G x j)))
    by (intros; reflexivity).
  rewrite IH. unfold energy. cbn [map fold_right].
  apply complex_eq; cbn; unfold norm2; ring.
Qed.

(** X6.  [detail::fft] applied twice in the same direction to a signal of
    [N = 2^n] samples, [1 <= n <= 30], gives the signal back in mirrored
    order: element [k] of the result is element [(N - k) mod N] of the
    signal. *)
Theorem fft_twice_mirrors :
  forall (n : nat) (x out out' : list C) (dir : FFTDirection),
    (1 <= n <= 30)%nat -> length x = (2 ^ n)%nat ->
    length out = (2 ^ n)%nat -> length out' = (2 ^ n)%nat ->
    exists y z,
      detail_fft x out dir = Some y /\ detail_fft y out' dir = Some z /\
      length z = (2 ^ n)%nat /\
      forall k, (k < 2 ^ n)%nat -> G z k = G x ((2 ^ n - k) mod 2 ^ n)%nat.
Proof.
  intros n x out out' dir Hn Hx Hout Hout'.
  exists (dft (omega dir n) (normalization (2 ^ n)) x).
  exists (dft (omega dir n) (normalization (2 ^ n))
            (dft (omega dir n) (normalization (2 ^ n)) x)).
  split; [apply detail_fft_dft; assumption|].
  split; [apply detail_fft_dft; try assumption; rewrite dft_length; exact Hx|].
  split; [rewrite !dft_length; exact Hx|].
  intros k Hk. apply dft_twice; try assumption; try lia.
  apply normalization_pow2.
Qed.

Lemma fft_twice_mirrors_witness :
  exists y z,
    detail_fft [(cone : C); czero; czero; czero] (repeat czero 4) Forward
    = Some y /\
    detail_fft y (repeat czero 4) Forward = Some z /\
    length z = (2 ^ 2)%nat /\
    forall k, (k < 2 ^ 2)%nat ->
      G z k = G [(cone : C); czero; czero; czero] ((2 ^ 2 - k) mod 2 ^ 2)%nat.
Proof.
  apply (@fft_twice_mirrors 2 [(cone : C); czero; czero; czero]
           (repeat czero 4) (repeat czero 4) Forward).
  - lia.
  - reflexivity.
  - reflexivity.
  - reflexivity.
Defined.

(** X7.  [detail::fft] keeps the energy of the signal: with the factor
    [1 / sqrt N] in both directions, the squared magnitudes of the result
    add up to those of the input ([N = 2^n], [1 <= n <= 30]). *)
Theorem fft_keeps_energy :
  forall (n : nat) (x out : list C) (dir : FFTDirection),
    (1 <= n <= 30)%nat -> length x = (2 ^ n)%nat ->
    length out = (2 ^ n)%nat ->
    exists y, detail_fft x out dir = Some y /\ energy y = energy x.
Proof.
  intros n x out dir Hn Hx Hout.
  exists (dft (omega dir n) (normalization (2 ^ n)) x).
  split; [apply detail_fft_dft; assumption|].
  assert (Heq : of_real (energy (dft (omega dir n) (normalization (2 ^ n)) x))
                = of_real (energy x)).
  { rewrite <- !energy_csum, dft_length, Hx.
    apply dft_energy; try assumption; try lia. apply normalization_pow2. }
  apply (f_equal real) in Heq. exact Heq.
Qed.

Lemma fft_keeps_energy_witness :
  exists y,
    detail_fft [(cone : C); cone] (repeat czero 2) Backward = Some y /\
    energy y = energy [(cone : C); cone].
Proof.
  apply (@fft_keeps_energy 1 [(cone : C); cone] (repeat czero 2) Backward).
  - lia.
  - reflexivity.
  - reflexivity.
Defined.

(** X8.  With the calculator for [N = 2^n] elements, [1 <= n <= 30], the
    real inverse transform of the transform of a real signal of [N]
    samples is the signal. *)
Theorem real_round_trip :
  forall n : nat,
    (1 <= n <= 30)%nat ->
    exists c : FFTCalculator R,
      new_FFTCalculator (2 ^ Z.of_nat n) = Some c /\
      forall (signal out' : list R) (out : list C),
        length signal = (2 ^ n)%nat -> length out = (2 ^ n)%nat ->
        length out' = (2 ^ n)%nat ->
        calc_ifft_real c (calc_fft_of_real c signal out) out' = signal.
Proof.
  intros n Hn.
  destruct (real_calculator Hn) as [c [Hc [HN [_ [Hfft Hifft]]]]].
  exists c. split; [exact Hc|].
  intros signal out' out Hs Hout Hout'.
  rewrite Hfft by assumption.
  rewrite Hifft by (try assumption; rewrite dft_length, length_map; exact Hs).
  rewrite dft_round_trip by (try lia; rewrite length_map; exact Hs).
  rewrite <- Hs.
  rewrite <- (map_get_seq 0%R signal) at 2.
  apply map_ext. intros i. rewrite get_of_real. reflexivity.
Qed.

Lemma real_round_trip_witness :
  exists c : FFTCalculator R,
    new_FFTCalculator (2 ^ Z.of_nat 3) = Some c /\
    forall (signal out' : list R) (out : list C),
      length signal = (2 ^ 3)%nat -> length out = (2 ^ 3)%nat ->
      length out' = (2 ^ 3)%nat ->
      calc_ifft_real c (calc_fft_of_real c signal out) out' = signal.
Proof. apply (@real_round_trip 3). lia. Defined.

(** X9.  The transform of a real signal is Hermitian: with the calculator
    for [N = 2^n] elements, bin [(N - k) mod N] of [fft] of a real signal
    is the complex conjugate of bin [k]; bin 0 and bin [N / 2] are real. *)
Theorem real_signal_spectrum_hermitian :
  forall n : nat,
    (1 <= n <= 30)%nat ->
    exists c : FFTCalculator R,
      new_FFTCalculator (2 ^ Z.of_nat n) = Some c /\
      forall (signal : list R) (out : list C),
        length signal = (2 ^ n)%nat -> length out = (2 ^ n)%nat ->
        (forall k, (k < 2 ^ n)%nat ->
           G (calc_fft_of_real c signal out) ((2 ^ n - k) mod 2 ^ n)%nat
           = cconj (G (calc_fft_of_real c signal out) k)) /\
        imag (G (calc_fft_of_real c signal out) 0) = 0%R /\
        imag (G (calc_fft_of_real c signal out) (2 ^ n / 2)) = 0%R.
Proof.
  intros n Hn.
  destruct (real_calculator Hn) as [c [Hc [HN [_ [Hfft _]]]]].
  exists c. split; [exact Hc|].
  intros signal out Hs Hout. rewrite Hfft by assumption.
  pose proof (pow2_positive n) as Hpos.
  assert (Hherm : forall k, (k < 2 ^ n)%nat ->
            G (dft (omega Forward n) (normalization (2 ^ n))
                 (map of_real signal)) ((2 ^ n - k) mod 2 ^ n)%nat
            = cconj (G (dft (omega Forward n) (normalization (2 ^ n))
                          (map of_real signal)) k)).
  { intros k Hk.
    pose proof (@dft_of_real_hermitian Forward n (normalization (2 ^ n))
                  (proj1 Hn) (map of_real signal)) as H.
    unfold hermitian in H. rewrite dft_length, length_map, Hs in H.
    apply H; [reflexivity| |exact Hk].
    intros j. rewrite get_of_real. reflexivity. }
  split; [exact Hherm|]. split.
  - apply cconj_fixed. rewrite <- Hherm by exact Hpos.
    rewrite Nat.sub_0_r, Nat.Div0.mod_same. reflexivity.
  - assert (Hhalf : (2 ^ n = 2 * (2 ^ n / 2))%nat).
    { destruct n as [|n']; [lia|]. cbn [Nat.pow].
      rewrite (Nat.mul_comm 2), Nat.div_mul by lia. lia. }
    apply cconj_fixed. rewrite <- Hherm by lia. f_equal.
    rewrite Nat.mod_small by lia. lia.
Qed.

Lemma real_signal_spectrum_hermitian_witness :
  exists c : FFTCalculator R,
    new_FFTCalculator (2 ^ Z.of_nat 3) = Some c /\
    forall (signal : list R) (out : list C),
      length signal = (2 ^ 3)%nat -> length out = (2 ^ 3)%nat ->
      (forall k, (k < 2 ^ 3)%nat ->
         G (calc_fft_of_real c signal out) ((2 ^ 3 - k) mod 2 ^ 3)%nat
         = cconj (G (calc_fft_of_real c signal out) k)) /\
      imag (G (calc_fft_of_real c signal out) 0) = 0%R /\
      imag (G (calc_fft_of_real c signal out) (2 ^ 3 / 2)) = 0%R.
Proof. apply (@real_signal_spectrum_hermitian 3). lia. Defined.

(** What [ifft_real] drops is zero for a Hermitian spectrum. *)
Lemma hermitian_inverse_real (n : nat) (y : list C) :
  (1 <= n)%nat -> length y = (2 ^ n)%nat ->
  (forall k, (k < 2 ^ n)%nat ->
     G y ((2 ^ n - k) mod 2 ^ n)%nat = cconj (G y k)) ->
  map of_real
    (map (fun i => real (G (dft (omega Backward n) (normalization (2 ^ n)) y) i))
         (seq 0 (2 ^ n)))
  = dft (omega Backward n) (normalization (2 ^ n)) y.
Proof.
  intros Hn Hy Hherm.
  apply (buffer_ext czero).
  - rewrite !length_map, length_seq, dft_length. symmetry. exact Hy.
  - intros i Hi. rewrite !length_map, length_seq in Hi.
    rewrite get_of_real, get_map_seq_any by exact Hi.
    pose proof (@dft_of_hermitian_real Backward n (normalization (2 ^ n)) y
                  Hy) as Hreal.
    unfold hermitian, real_valued in Hreal. rewrite Hy in Hreal.
    specialize (Hreal Hherm i).
    apply complex_eq; cbn; [reflexivity|]. symmetry. exact Hreal.
Qed.

(** X10.  On a Hermitian spectrum of [N = 2^n] bins (bin [(N - k) mod N]
    the conjugate of bin [k]), the imaginary parts that [ifft_real] drops
    are zero: its result, converted to complex, is the result of [ifft]. *)
Theorem ifft_real_of_hermitian :
  forall n : nat,
    (1 <= n <= 30)%nat ->
    exists c : FFTCalculator R,
      new_FFTCalculator (2 ^ Z.of_nat n) = Some c /\
      forall (y out : list C) (out' : list R),
        length y = (2 ^ n)%nat -> length out = (2 ^ n)%nat ->
        length out' = (2 ^ n)%nat ->
        (forall k, (k < 2 ^ n)%nat ->
           G y ((2 ^ n - k) mod 2 ^ n)%nat = cconj (G y k)) ->
        map of_real (calc_ifft_real c y out') = calc_ifft c y out.
Proof.
  intros n Hn.
  destruct (real_calculator Hn) as [c [Hc [HN [Hdft [_ Hifft]]]]].
  exists c. split; [exact Hc|].
  intros y out out' Hy Hout Hout' Hherm.
  rewrite Hifft by assumption.
  rewrite (proj2 (Hdft y out Hy Hout)).
  apply hermitian_inverse_real; try assumption; lia.
Qed.

Lemma ifft_real_of_hermitian_witness :
  exists c : FFTCalculator R,
    new_FFTCalculator (2 ^ Z.of_nat 1) = Some c /\
    forall (y out : list C) (out' : list R),
      length y = (2 ^ 1)%nat -> length out = (2 ^ 1)%nat ->
      length out' = (2 ^ 1)%nat ->
      (forall k, (k < 2 ^ 1)%nat ->
         G y ((2 ^ 1 - k) mod 2 ^ 1)%nat = cconj (G y k)) ->
      map of_real (calc_ifft_real c y out') = calc_ifft c y out.
Proof. apply (@ifft_real_of_hermitian 1). lia. Defined.

End Signals.

(** Band-limiting: how [antialiase_dft] composes, what it keeps, and what
    the tables of [antialiase] contain. *)
Module BandLimit.
Import LoopFacts FFT Antialiase AntialiaseFacts.

Section WithT.
Context {T : Type} `{Floating T}.

Lemma antialiase_dft_identity (spectrum : list (complex T)) (samplerate f : T) :
  length spectrum / 2 < cutoff_index samplerate f ->
  antialiase_dft spectrum samplerate f = spectrum.
Proof.
  intros Hc. unfold antialiase_dft. apply Nat.ltb_lt in Hc. rewrite Hc.
  reflexivity.
Qed.

Lemma antialiase_dft_length (spectrum : list (complex T)) (samplerate f : T) :
  length (antialiase_dft spectrum samplerate f) = length spectrum.
Proof.
  destruct (Nat.lt_ge_cases (length spectrum / 2) (cutoff_index samplerate f))
    as [Hlt|Hge].
  - rewrite antialiase_dft_identity by exact Hlt. reflexivity.
  - apply antialiase_dft_truncates. exact Hge.
Qed.

(** Two band limits one after the other, in either order, are the one with
    the smaller cutoff index. *)
Lemma antialiase_dft_compose (spectrum : list (complex T)) (sr1 f1 sr2 f2 : T) :
  cutoff_index sr2 f2 <= cutoff_index sr1 f1 ->
  antialiase_dft (antialiase_dft spectrum sr1 f1) sr2 f2
  = antialiase_dft spectrum sr2 f2 /\
  antialiase_dft (antialiase_dft spectrum sr2 f2) sr1 f1
  = antialiase_dft spectrum sr2 f2.
Proof.
  intros Hle.
  destruct (Nat.lt_ge_cases (length spectrum / 2) (cutoff_index sr1 f1))
    as [H1|H1].
  - split.
    + rewrite (antialiase_dft_identity spectrum sr1 f1 H1). reflexivity.
    + apply antialiase_dft_identity. rewrite antialiase_dft_length. exact H1.
  - assert (H2 : cutoff_index sr2 f2 <= length spectrum / 2) by lia.
    assert (Hc2 : 1 <= cutoff_index sr2 f2) by (unfold cutoff_index; lia).
    destruct (antialiase_dft_truncates spectrum sr1 f1 H1) as [Hlen1 Hget1].
    destruct (antialiase_dft_truncates spectrum sr2 f2 H2) as [Hlen2 Hget2].
    destruct (antialiase_dft_truncates (antialiase_dft spectrum sr1 f1) sr2 f2)
      as [Hlen12 Hget12]; [rewrite Hlen1; exact H2|].
    destruct (antialiase_dft_truncates (antialiase_dft spectrum sr2 f2) sr1 f1)
      as [Hlen21 Hget21]; [rewrite Hlen2; exact H1|].
    split; apply (buffer_ext czero); try congruence; intros i _.
    + rewrite Hget12, Hget2, !Hget1, Hlen1.
      destruct (Nat.leb_spec (cutoff_index sr2 f2) i),
        (Nat.ltb_spec i (length spectrum - cutoff_index sr2 f2 + 1)),
        (Nat.leb_spec (cutoff_index sr1 f1) i),
        (Nat.ltb_spec i (length spectrum - cutoff_index sr1 f1 + 1)),
        (Nat.leb_spec (cutoff_index sr1 f1) 0),
        (Nat.eqb_spec i 0); cbn [andb]; try reflexivity; lia.
    + rewrite Hget21, !Hget2, Hlen2.
      destruct (Nat.leb_spec (cutoff_index sr2 f2) i),
        (Nat.ltb_spec i (length spectrum - cutoff_index sr2 f2 + 1)),
        (Nat.leb_spec (cutoff_index sr1 f1) i),
        (Nat.ltb_spec i (length spectrum - cutoff_index sr1 f1 + 1)),
        (Nat.leb_spec (cutoff_index sr2 f2) 0),
        (Nat.eqb_spec i 0); cbn [andb]; try reflexivity; lia.
Qed.

End WithT.

(** X11.  Band limits compose to the narrower one: when the cutoff index
    for [(sr2, f2)] is at most the one for [(sr1, f1)], applying
    [antialiase_dft] for both, in either order, gives what applying it for
    [(sr2, f2)] alone gives.  In particular [antialiase_dft] applied twice
    with the same arguments is [antialiase_dft] applied once.  This holds
    for every arithmetic, doubles included. *)
Theorem antialiase_dft_narrower_wins :
  forall (T : Type) (F : Floating T) (spectrum : list (complex T))
         (sr1 f1 sr2 f2 : T),
    cutoff_index sr2 f2 <= cutoff_index sr1 f1 ->
    antialiase_dft (antialiase_dft spectrum sr1 f1) sr2 f2
    = antialiase_dft spectrum sr2 f2 /\
    antialiase_dft (antialiase_dft spectrum sr2 f2) sr1 f1
    = antialiase_dft spectrum sr2 f2.
Proof. intros T F. exact (@antialiase_dft_compose T F). Qed.

Lemma antialiase_dft_narrower_wins_witness :
  antialiase_dft (antialiase_dft spectrum8 8%float 2%float) 8%float 4%float
  = antialiase_dft spectrum8 8%float 4%float /\
  antialiase_dft (antialiase_dft spectrum8 8%float 4%float) 8%float 2%float
  = antialiase_dft spectrum8 8%float 4%float.
Proof.
  apply (@antialiase_dft_narrower_wins float Binary64.binary64 spectrum8
           8%float 2%float 8%float 4%float).
  vm_compute. lia.
Defined.

End BandLimit.

(** The tables [antialiase] builds from a real signal. *)
Module Tables.
Import ComplexRing Roots StageFacts LoopFacts FFT Fourier RoundTrip.
Import FourierMore Spectra Signals Antialiase AntialiaseFacts BandLimit.
Local Open Scope cplx_scope.

(** The mirror of an index that [antialiase_dft] sets to zero is set to
    zero too. *)
Lemma mirror_in_band (N c k : nat) :
  (1 <= c)%nat -> (k < N)%nat ->
  ((c <=? (N - k) mod N) && ((N - k) mod N <? N - c + 1))%nat
  = ((c <=? k) && (k <? N - c + 1))%nat.
Proof.
  intros Hc Hk. destruct k as [|k].
  - rewrite Nat.sub_0_r, Nat.Div0.mod_same.
    replace (c <=? 0)%nat with false by (symmetry; apply Nat.leb_gt; lia).
    reflexivity.
  - rewrite Nat.mod_small by lia.
    destruct (Nat.leb_spec c (N - S k)), (Nat.ltb_spec (N - S k) (N - c + 1)),
      (Nat.leb_spec c (S k)), (Nat.ltb_spec (S k) (N - c + 1));
      cbn [andb]; try reflexivity; lia.
Qed.

Lemma mirror_zero (N k : nat) :
  (k < N)%nat -> ((N - k) mod N = 0)%nat <-> k = 0%nat.
Proof.
  intros Hk. destruct k as [|k].
  - rewrite Nat.sub_0_r, Nat.Div0.mod_same. tauto.
  - rewrite Nat.mod_small by lia. lia.
Qed.

(** [antialiase_dft] keeps a Hermitian spectrum Hermitian. *)
Lemma antialiase_dft_hermitian (y : list C) (sr f : R) :
  (forall k, (k < length y)%nat ->
     G y ((length y - k) mod length y)%nat = cconj (G y k)) ->
  forall k, (k < length y)%nat ->
    G (antialiase_dft y sr f) ((length y - k) mod length y)%nat
    = cconj (G (antialiase_dft y sr f) k).
Proof.
  intros Hherm k Hk.
  destruct (Nat.lt_ge_cases (length y / 2) (cutoff_index sr f)) as [Hlt|Hge].
  - rewrite antialiase_dft_identity by exact Hlt. apply Hherm. exact Hk.
  - destruct (antialiase_dft_truncates y sr f Hge) as [_ Hget].
    assert (Hc : (1 <= cutoff_index sr f)%nat) by (unfold cutoff_index; lia).
    rewrite !Hget. rewrite mirror_in_band by assumption.
    destruct ((cutoff_index sr f <=? k)
              && (k <? length y - cutoff_index sr f + 1))%nat.
    + apply complex_eq; cbn; ring.
    + destruct (Nat.eqb_spec k 0) as [->|Hne].
      * rewrite Nat.sub_0_r, Nat.Div0.mod_same. cbn [Nat.eqb].
        apply complex_eq; cbn; ring.
      * replace ((length y - k) mod length y =? 0)%nat with false.
        -- apply Hherm. exact Hk.
        -- symmetry. apply Nat.eqb_neq. rewrite mirror_zero by exact Hk.
           exact Hne.
Qed.

(** The real inverse transform of a Hermitian spectrum has that spectrum. *)
Lemma hermitian_table_spectrum (n : nat) (y : list C) :
  (1 <= n)%nat -> length y = (2 ^ n)%nat ->
  (forall k, (k < 2 ^ n)%nat ->
     G y ((2 ^ n - k) mod 2 ^ n)%nat = cconj (G y k)) ->
  dft (omega Forward n) (normalization (2 ^ n))
    (map of_real
       (map (fun i => real (G (dft (omega Backward n)
                                 (normalization (2 ^ n)) y) i))
            (seq 0 (2 ^ n))))
  = y.
Proof.
  intros Hn Hy Hherm.
  rewrite hermitian_inverse_real by assumption.
  apply dft_round_trip_back; assumption.
Qed.

(** The transform of a real signal, as a Hermitian spectrum. *)
Lemma real_spectrum_hermitian (n : nat) (signal : list R) :
  (1 <= n)%nat -> length signal = (2 ^ n)%nat ->
  forall k, (k < 2 ^ n)%nat ->
    G (dft (omega Forward n) (normalization (2 ^ n)) (map of_real signal))
      ((2 ^ n - k) mod 2 ^ n)%nat
    = cconj (G (dft (omega Forward n) (normalization (2 ^ n))
                  (map of_real signal)) k).
Proof.
  intros Hn Hs k Hk.
  pose proof (@dft_of_real_hermitian Forward n (normalization (2 ^ n))
                Hn (map of_real signal)) as H.
  unfold hermitian in H. rewrite dft_length, length_map, Hs in H.
  apply H; [reflexivity| |exact Hk].
  intros j. rewrite get_of_real. reflexivity.
Qed.

(** The real parts of the inverse transform of the transform of a real
    signal. *)
Lemma real_parts_round_trip (n : nat) (signal : list R) :
  (1 <= n)%nat -> length signal = (2 ^ n)%nat ->
  map (fun i => real (G (dft (omega Backward n) (normalization (2 ^ n))
                           (dft (omega Forward n) (normalization (2 ^ n))
                              (map of_real signal))) i))
      (seq 0 (2 ^ n))
  = signal.
Proof.
  intros Hn Hs.
  rewrite dft_round_trip by (try lia; rewrite length_map; exact Hs).
  rewrite <- Hs. rewrite <- (map_get_seq 0%R signal) at 2.
  apply map_ext. intros i. rewrite get_of_real. reflexivity.
Qed.

(** Table [i] of [antialiase], read through the loop. *)
Lemma antialiase_table (c : FFTCalculator R) (signal freqs : list R)
    (tables : list (list R)) (sr : R) (i : nat) :
  (length freqs <= length tables)%nat -> (i < length freqs)%nat ->
  nth_error (antialiase signal freqs tables sr c) i
  = Some (calc_ifft_real c
            (antialiase_dft (calc_fft_of_real c signal (repeat czero (N c)))
               sr (nth i freqs 0%R))
            (nth i tables [])).
Proof.
  intros Hlen Hi. unfold antialiase.
  destruct (antialiase_loop_tables c
              (calc_fft_of_real c signal (repeat czero (N c))) sr
              freqs 0 tables) as [Hl Hget]; [cbn; lia|].
  rewrite (nth_error_nth' _ []) by (rewrite Hl; lia). f_equal.
  specialize (Hget i). unfold get in Hget at 1. rewrite Hget.
  replace (0 <=? i)%nat with true by reflexivity.
  replace (i <? 0 + length freqs)%nat with true
    by (symmetry; apply Nat.ltb_lt; lia).
  cbn [andb]. rewrite Nat.sub_0_r. reflexivity.
Qed.

(** X12.  The tables of [antialiase] are band-limited.  With the calculator
    for [N = 2^n] samples ([1 <= n <= 30]), a real signal of [N] samples and
    output buffers of [N] samples, table [i] is a signal of [N] samples
    whose spectrum ([fft] of the table) is exactly the spectrum of the input
    signal after [antialiase_dft] for frequency [i]: nothing is lost or
    added by the real inverse transform. *)
Theorem antialiase_tables_band_limited :
  forall n : nat,
    (1 <= n <= 30)%nat ->
    exists c : FFTCalculator R,
      new_FFTCalculator (2 ^ Z.of_nat n) = Some c /\
      forall (signal freqs : list R) (tables : list (list R)) (sr : R)
             (out : list C) (i : nat),
        length signal = (2 ^ n)%nat -> length out = (2 ^ n)%nat ->
        (length freqs <= length tables)%nat -> (i < length freqs)%nat ->
        length (nth i tables []) = (2 ^ n)%nat ->
        exists table : list R,
          nth_error (antialiase signal freqs tables sr c) i = Some table /\
          length table = (2 ^ n)%nat /\
          calc_fft_of_real c table out
          = antialiase_dft (calc_fft_of_real c signal out) sr (nth i freqs 0%R).
Proof.
  intros n Hn.
  destruct (real_calculator Hn) as [c [Hc [HN [_ [Hfft Hifft]]]]].
  exists c. split; [exact Hc|].
  intros signal freqs tables sr out i Hs Hout Hlen Hi Hbuf.
  eexists. split; [apply antialiase_table; assumption|].
  rewrite HN.
  rewrite (Hfft signal out Hs Hout).
  rewrite (Hfft signal (repeat czero (2 ^ n)) Hs (repeat_length _ _)).
  set (F := dft (omega Forward n) (normalization (2 ^ n)) (map of_real signal)).
  assert (HF : length F = (2 ^ n)%nat)
    by (unfold F; rewrite dft_length, length_map; exact Hs).
  assert (HY : length (antialiase_dft F sr (nth i freqs 0%R)) = (2 ^ n)%nat)
    by (rewrite antialiase_dft_length; exact HF).
  rewrite Hifft by assumption.
  split; [rewrite length_map, length_seq; reflexivity|].
  rewrite Hfft by (try assumption; rewrite length_map, length_seq; reflexivity).
  apply hermitian_table_spectrum; [lia|exact HY|].
  rewrite <- HF. apply antialiase_dft_hermitian.
  rewrite HF. apply real_spectrum_hermitian; [lia|exact Hs].
Qed.

Lemma antialiase_tables_band_limited_witness :
  exists c : FFTCalculator R,
    new_FFTCalculator (2 ^ Z.of_nat 2) = Some c /\
    forall (signal freqs : list R) (tables : list (list R)) (sr : R)
           (out : list C) (i : nat),
      length signal = (2 ^ 2)%nat -> length out = (2 ^ 2)%nat ->
      (length freqs <= length tables)%nat -> (i < length freqs)%nat ->
      length (nth i tables []) = (2 ^ 2)%nat ->
      exists table : list R,
        nth_error (antialiase signal freqs tables sr c) i = Some table /\
        length table = (2 ^ 2)%nat /\
        calc_fft_of_real c table out
        = antialiase_dft (calc_fft_of_real c signal out) sr (nth i freqs 0%R).
Proof. apply (@antialiase_tables_band_limited 2). lia. Defined.

(** X13.  A table for a frequency low enough is the signal itself: when
    the cutoff index of frequency [i] is greater than [N / 2], table [i] of
    [antialiase] equals the input signal (exact arithmetic, [N = 2^n]
    samples, [1 <= n <= 30]). *)
Theorem antialiase_low_frequency_table :
  forall n : nat,
    (1 <= n <= 30)%nat ->
    exists c : FFTCalculator R,
      new_FFTCalculator (2 ^ Z.of_nat n) = Some c /\
      forall (signal freqs : list R) (tables : list (list R)) (sr : R)
             (i : nat),
        length signal = (2 ^ n)%nat ->
        (length freqs <= length tables)%nat -> (i < length freqs)%nat ->
        length (nth i tables []) = (2 ^ n)%nat ->
        (2 ^ n / 2 < cutoff_index sr (nth i freqs 0%R))%nat ->
        nth_error (antialiase signal freqs tables sr c) i = Some signal.
Proof.
  intros n Hn.
  destruct (real_calculator Hn) as [c [Hc [HN [_ [Hfft Hifft]]]]].
  exists c. split; [exact Hc|].
  intros signal freqs tables sr i Hs Hlen Hi Hbuf Hcut.
  rewrite antialiase_table by assumption. f_equal.
  rewrite HN, Hfft by (try assumption; apply repeat_length).
  rewrite antialiase_dft_identity
    by (rewrite dft_length, length_map, Hs; exact Hcut).
  rewrite Hifft
    by (try assumption; rewrite dft_length, length_map; exact Hs).
  apply real_parts_round_trip; [lia|exact Hs].
Qed.

Lemma antialiase_low_frequency_table_witness :
  exists c : FFTCalculator R,
    new_FFTCalculator (2 ^ Z.of_nat 2) = Some c /\
    forall (signal freqs : list R) (tables : list (list R)) (sr : R)
           (i : nat),
      length signal = (2 ^ 2)%nat ->
      (length freqs <= length tables)%nat -> (i < length freqs)%nat ->
      length (nth i tables []) = (2 ^ 2)%nat ->
      (2 ^ 2 / 2 < cutoff_index sr (nth i freqs 0%R))%nat ->
      nth_error (antialiase signal freqs tables sr c) i = Some signal.
Proof. apply (@antialiase_low_frequency_table 2). lia. Defined.

End Tables.

(** The oscillator over a whole run: which table it plays after a sequence
    of retunings, and where its position is after a number of samples. *)
Module OscillatorMore.
Import Oscillator OscillatorFacts.

(** [getMaximumPlaybackFrequency()] of table [j] of the storage. *)
Definition bound (tables : list (Wavetable R)) (j : nat) : R :=
  getMaximumPlaybackFrequency (nth j tables no_table).

(** The order the class comment assumes: the table with the lowest maximum
    playback frequency first. *)
Definition ascending (tables : list (Wavetable R)) : Prop :=
  forall i j, i <= j -> j < length tables ->
    (bound tables i <= bound tables j)%R.

(** Calls of [setFrequency] one after the other. *)
Fixpoint setFrequencies {T : Type} `{Floating T} (o : WavetableOscillator T)
    (fs : list T) : option (WavetableOscillator T) :=
  match fs with
  | [] => Some o
  | f :: fs' =>
      match setFrequency o f with
      | Some o' => setFrequencies o' fs'
      | None => None
      end
  end.

(** [n] advances of the oscillator. *)
Definition advance {T : Type} `{Floating T} (n : nat)
    (o : WavetableOscillator T) : WavetableOscillator T :=
  Nat.iter n step o.

(** Whenever the test of the cached interval succeeds, the current table is
    the table the search would find. *)
Definition cache_sound (tables : list (Wavetable R))
    (o : WavetableOscillator R) : Prop :=
  wavetables o = Some tables /\
  forall f, fle f (topFreq o) && flt (bottomFreq o) f = true ->
    currentTable o = Some (selected_index tables f).

(** Over ascending tables, a frequency between the bound of the table
    before [it] and the bound of table [it] makes the search stop at [it]. *)
Lemma first_sufficient (tables : list (Wavetable R)) (f : R) (it : nat) :
  ascending tables -> it < length tables ->
  ((if it =? 0 then 0 else bound tables (it - 1)) < f)%R ->
  (f <= bound tables it)%R ->
  selected_index tables f = it.
Proof.
  intros Hasc Hit Hlo Hhi.
  assert (Hne : tables <> []) by (destruct tables; cbn in *; [lia|congruence]).
  destruct (selected_index_spec f Hne) as [Hlt [Hbefore Hat]].
  destruct (Nat.lt_trichotomy (selected_index tables f) it) as [Hs|[Hs|Hs]].
  - exfalso. destruct Hat as [Hle|[Hlast _]]; [|lia].
    apply Rleb_true in Hle.
    replace (it =? 0) with false in Hlo by (symmetry; apply Nat.eqb_neq; lia).
    pose proof (Hasc (selected_index tables f) (it - 1)) as Hmono.
    unfold bound in *. specialize (Hmono ltac:(lia) ltac:(lia)). lra.
  - exact Hs.
  - exfalso. specialize (Hbefore it Hs). apply Rleb_false in Hbefore.
    unfold bound in *. lra.
Qed.

(** The fields the search of [selectTable] leaves behind. *)
Lemma selectTable_search_cache (o : WavetableOscillator R)
    (tables : list (Wavetable R)) :
  wavetables o = Some tables ->
  tables <> [] ->
  (forall t, In t tables -> 0 < size t) ->
  fle (frequency o) (topFreq o) && flt (bottomFreq o) (frequency o) = false ->
  exists o',
    selectTable o = Some o' /\
    wavetables o' = Some tables /\
    frequency o' = frequency o /\
    sampleRateInv o' = sampleRateInv o /\
    currentTable o' = Some (selected_index tables (frequency o)) /\
    currentTableSize o'
    = size (nth (selected_index tables (frequency o)) tables no_table) /\
    topFreq o' = bound tables (selected_index tables (frequency o)) /\
    bottomFreq o'
    = (if selected_index tables (frequency o) =? 0 then 0%R
       else bound tables (selected_index tables (frequency o) - 1)) /\
    currentSamplePosition o'
    = (if negb (currentTableSize o =? 0)
       then fmax fzero
              (fmin (fsub (of_size (currentTableSize o')) feps7)
                 (fdiv (fmul (currentSamplePosition o)
                          (of_size (currentTableSize o')))
                       (of_size (currentTableSize o))))
       else currentSamplePosition o).
Proof.
  intros Hw Hne Hsizes Hmiss. unfold selectTable. rewrite Hmiss, Hw.
  destruct (selected_index_spec (frequency o) Hne) as [Hlt _].
  assert (Hlen : (length tables =? 0) = false)
    by (apply Nat.eqb_neq; destruct tables; cbn; [congruence|lia]).
  rewrite Hlen. fold (selected_index tables (frequency o)).
  set (it := selected_index tables (frequency o)) in *.
  assert (Hsz : 0 < size (nth it tables no_table))
    by (apply Hsizes, nth_In, Hlt).
  replace (size (nth it tables no_table) =? 0) with false
    by (symmetry; apply Nat.eqb_neq; lia).
  eexists. split; [reflexivity|].
  cbn. repeat split; reflexivity.
Qed.

(** [setFrequency] over ascending tables: the call returns, the table it
    leaves selected is the one the search finds for the new frequency, and
    the cached interval is right again. *)
Lemma setFrequency_sound (o : WavetableOscillator R)
    (tables : list (Wavetable R)) (f : R) :
  ascending tables -> tables <> [] ->
  (forall t, In t tables -> 0 < size t) ->
  cache_sound tables o ->
  flt (fmul f (sampleRateInv o)) fone = true ->
  exists o',
    setFrequency o f = Some o' /\
    cache_sound tables o' /\
    currentTable o' = Some (selected_index tables f) /\
    frequency o' = f /\
    sampleRateInv o' = sampleRateInv o.
Proof.
  intros Hasc Hne Hsizes [Hw Hcache] Hassert.
  destruct (fle f (topFreq o) && flt (bottomFreq o) f) eqn:Hhit.
  - pose proof Hhit as Hboth. apply andb_true_iff in Hboth.
    destruct Hboth as [Hhi Hlo].
    exists (retuned o f). rewrite (setFrequency_cached o f Hlo Hhi), Hassert.
    split; [reflexivity|]. split.
    + split; [exact Hw|]. exact Hcache.
    + split; [exact (Hcache f Hhit)|]. split; reflexivity.
  - destruct (@selectTable_search_cache (with_frequency o f) tables Hw Hne
                Hsizes Hhit)
      as [o' [Hsel [Hw' [Hf' [Hinv' [Hcur' [_ [Htop' [Hbot' _]]]]]]]]].
    cbn [with_frequency frequency sampleRateInv] in *.
    exists (updateDelta o'). unfold setFrequency.
    cbn [with_frequency sampleRateInv]. rewrite Hassert, Hsel.
    split; [reflexivity|].
    destruct (selected_index_spec f Hne) as [Hlt _].
    split.
    + split; [exact Hw'|]. cbn [updateDelta with_delta topFreq bottomFreq
                                 currentTable].
      intros f' Hhit'. rewrite Hcur'. f_equal. symmetry.
      apply andb_true_iff in Hhit'. destruct Hhit' as [Hhi' Hlo'].
      apply Rleb_true in Hhi'. apply Rltb_true in Hlo'.
      rewrite Htop' in Hhi'. rewrite Hbot' in Hlo'.
      apply first_sufficient; assumption.
    + split; [exact Hcur'|]. split; [exact Hf'|exact Hinv'].
Qed.

Lemma last_nonempty {A : Type} (a : A) (l : list A) (d d' : A) :
  last (a :: l) d = last (a :: l) d'.
Proof.
  revert a. induction l as [|b l IH]; intros a; [reflexivity|].
  change (last (b :: l) d = last (b :: l) d'). apply IH.
Qed.

Lemma setFrequencies_sound (tables : list (Wavetable R)) (sr : R) :
  ascending tables -> tables <> [] ->
  (forall t, In t tables -> 0 < size t) ->
  (0 < sr)%R ->
  forall (fs : list R) (o : WavetableOscillator R),
    cache_sound tables o ->
    sampleRateInv o = fdiv fone sr ->
    currentTable o = Some (selected_index tables (frequency o)) ->
    Forall (fun f => (f < sr)%R) fs ->
    exists o',
      setFrequencies o fs = Some o' /\
      frequency o' = last fs (frequency o) /\
      currentTable o' = Some (selected_index tables (last fs (frequency o))).
Proof.
  intros Hasc Hne Hsizes Hsr.
  induction fs as [|f fs IH]; intros o Hsound Hinv Hcur Hall.
  - exists o. repeat split; assumption.
  - inversion Hall as [|f' fs' Hf Hrest]; subst.
    destruct (@setFrequency_sound o tables f Hasc Hne Hsizes Hsound)
      as [o1 [Hset [Hsound1 [Hcur1 [Hf1 Hinv1]]]]].
    { rewrite Hinv. apply Rltb_true. apply below_sample_rate; assumption. }
    destruct (IH o1 Hsound1) as [o' [Hrun [Hfreq Hsel]]];
      [congruence|rewrite Hf1; exact Hcur1|exact Hrest|].
    exists o'. cbn [setFrequencies]. rewrite Hset.
    split; [exact Hrun|].
    rewrite Hf1 in Hfreq, Hsel.
    destruct fs as [|g fs]; [split; assumption|].
    change (last (f :: g :: fs) (frequency o)) with (last (g :: fs) (frequency o)).
    rewrite (last_nonempty g fs (frequency o) f). split; assumption.
Qed.

(** X14.  Over ascending tables the oscillator always plays the right
    table.  For a non-empty set of tables of positive size whose maximum
    playback frequencies ascend, a positive sample rate and frequencies
    below it, the constructor and every following [setFrequency] return,
    and after the last call, whether it searched or found the frequency in
    the cached interval, the selected table is the first one whose maximum
    playback frequency is not below the frequency, or the last table when
    there is none (exact arithmetic). *)
Theorem ascending_tables_selection :
  forall (tables : list (Wavetable R)) (sr f0 : R) (fs : list R),
    ascending tables -> tables <> [] ->
    (forall t, In t tables -> 0 < size t) ->
    (0 < sr)%R -> Forall (fun f => (f < sr)%R) (f0 :: fs) ->
    exists (o0 o : WavetableOscillator R) (it : nat),
      new_oscillator tables sr f0 = Some o0 /\
      setFrequencies o0 fs = Some o /\
      getFrequency o = last fs f0 /\
      getSelectedTable o = Some it /\ it < length tables /\
      (forall j, j < it -> (bound tables j < last fs f0)%R) /\
      ((last fs f0 <= bound tables it)%R \/ it = length tables - 1).
Proof.
  intros tables sr f0 fs Hasc Hne Hsizes Hsr Hall.
  inversion Hall as [|f' fs' Hf0 Hfs]; subst.
  set (reset :=
         {| sampleRateInv := fdiv fone sr; frequency := f0; delta := 0%R;
            currentSamplePosition := 0%R; value := 0%R;
            wavetables := Some tables; currentTable := None;
            currentTableSize := 0; topFreq := 0%R; bottomFreq := 0%R |}
         : WavetableOscillator R).
  assert (Hnew : new_oscillator tables sr f0 = setFrequency reset f0)
    by reflexivity.
  assert (Hreset : cache_sound tables reset).
  { split; [reflexivity|]. intros f Hhit. exfalso.
    apply andb_true_iff in Hhit. destruct Hhit as [Hhi Hlo].
    apply Rleb_true in Hhi. apply Rltb_true in Hlo. cbn in Hhi, Hlo. lra. }
  destruct (@setFrequency_sound reset tables f0 Hasc Hne Hsizes Hreset)
    as [o0 [Hset [Hsound0 [Hcur0 [Hfreq0 Hinv0]]]]].
  { apply Rltb_true. cbn [sampleRateInv reset].
    apply below_sample_rate; assumption. }
  destruct (@setFrequencies_sound tables sr Hasc Hne Hsizes Hsr fs o0 Hsound0)
    as [o [Hrun [Hfreq Hsel]]];
    [exact Hinv0|rewrite Hfreq0; exact Hcur0|exact Hfs|].
  rewrite Hfreq0 in Hfreq, Hsel.
  destruct (selected_index_spec (last fs f0) Hne) as [Hlt [Hbefore Hat]].
  exists o0, o, (selected_index tables (last fs f0)).
  split; [rewrite Hnew; exact Hset|].
  split; [exact Hrun|]. split; [exact Hfreq|]. split; [exact Hsel|].
  split; [exact Hlt|]. split.
  - intros j Hj. specialize (Hbefore j Hj). apply Rleb_false in Hbefore.
    exact Hbefore.
  - destruct Hat as [Hle|[Hlast _]]; [left|right; exact Hlast].
    apply Rleb_true in Hle. exact Hle.
Qed.

(** Two tables of 4 samples with the bounds 500 and 2000 Hz. *)
Definition tables_500_2000 : list (Wavetable R) :=
  [ {| size := 4; getMaximumPlaybackFrequency := 500%R; lookup := fun x => x |};
    {| size := 4; getMaximumPlaybackFrequency := 2000%R; lookup := fun x => x |} ].

Lemma ascending_tables_selection_witness :
  exists (o0 o : WavetableOscillator R) (it : nat),
    new_oscillator tables_500_2000 44100%R 100%R = Some o0 /\
    setFrequencies o0 [1000%R; 600%R] = Some o /\
    getFrequency o = last [1000%R; 600%R] 100%R /\
    getSelectedTable o = Some it /\ it < length tables_500_2000 /\
    (forall j, j < it ->
       (bound tables_500_2000 j < last [1000%R; 600%R] 100%R)%R) /\
    ((last [1000%R; 600%R] 100%R <= bound tables_500_2000 it)%R
     \/ it = length tables_500_2000 - 1).
Proof.
  apply (@ascending_tables_selection tables_500_2000 44100%R 100%R
           [1000%R; 600%R]).
  - intros i j Hij Hj. cbn in Hj.
    destruct i as [|[|i]], j as [|[|j]]; unfold bound; cbn; try lra; lia.
  - discriminate.
  - intros t [<-|[<-|[]]]; cbn; lia.
  - lra.
  - repeat constructor; lra.
Defined.

End OscillatorMore.

(** The position of the oscillator over a number of samples. *)
Module OscillatorRun.
Import Oscillator OscillatorFacts OscillatorMore.

(** The table length as a real number. *)
Definition table_length (o : WavetableOscillator R) : R :=
  of_size (currentTableSize o).

(** An advance changes the position and the value only. *)
Lemma step_fields (o : WavetableOscillator R) :
  delta (step o) = delta o /\
  currentTableSize (step o) = currentTableSize o /\
  sampleRateInv (step o) = sampleRateInv o /\
  frequency (step o) = frequency o /\
  wavetables (step o) = wavetables o /\
  currentTable (step o) = currentTable o /\
  topFreq (step o) = topFreq o /\
  bottomFreq (step o) = bottomFreq o.
Proof. unfold step, with_position. cbn. repeat split; reflexivity. Qed.

(** Oscillators that differ in the value only advance to the same state. *)
Lemma step_ignores_value (o o' : WavetableOscillator R) :
  delta o = delta o' -> currentTableSize o = currentTableSize o' ->
  sampleRateInv o = sampleRateInv o' -> frequency o = frequency o' ->
  wavetables o = wavetables o' -> currentTable o = currentTable o' ->
  topFreq o = topFreq o' -> bottomFreq o = bottomFreq o' ->
  currentSamplePosition o = currentSamplePosition o' ->
  step o = step o'.
Proof.
  intros Hd Hs Hi Hf Hw Hc Ht Hb Hp.
  unfold step, with_position, current.
  rewrite Hd, Hs, Hi, Hf, Hw, Hc, Ht, Hb, Hp. reflexivity.
Qed.

(** After [n] advances the position is the start plus [n] increments
    minus a whole number of table lengths, and inside the table. *)
Lemma advance_position (o : WavetableOscillator R) (n : nat) :
  (0 <= delta o < table_length o)%R -> in_table o ->
  in_table (advance n o) /\
  delta (advance n o) = delta o /\
  currentTableSize (advance n o) = currentTableSize o /\
  sampleRateInv (advance n o) = sampleRateInv o /\
  frequency (advance n o) = frequency o /\
  wavetables (advance n o) = wavetables o /\
  currentTable (advance n o) = currentTable o /\
  topFreq (advance n o) = topFreq o /\
  bottomFreq (advance n o) = bottomFreq o /\
  exists k, k <= n /\
    currentSamplePosition (advance n o)
    = (currentSamplePosition o + INR n * delta o - INR k * table_length o)%R.
Proof.
  intros Hd Hp. unfold table_length in *.
  induction n as [|n IH].
  - change (advance 0 o) with o.
    repeat (split; [first [exact Hp|reflexivity]|]).
    exists 0. split; [lia|]. cbn [INR]. ring.
  - destruct IH as [Hin [Hdelta [Hsize [Hinv [Hfreq [Hw [Hcur [Htop [Hbot
                    [k [Hk Hpos]]]]]]]]]]].
    change (advance (S n) o) with (step (advance n o)).
    destruct (step_fields (advance n o))
      as [Sd [Ss [Si [Sf [Sw [Sc [St Sb]]]]]]].
    split.
    { apply step_in_table; [rewrite Hdelta, Hsize; exact Hd|exact Hin]. }
    repeat (split; [congruence|]).
    unfold in_table in Hin. rewrite Hsize in Hin.
    unfold step, with_position. cbn [currentSamplePosition].
    rewrite Hdelta, Hsize, Hpos. rewrite Hpos in Hin.
    cbn [fle fadd fsub Exact.exact]. unfold Exact.Rleb.
    destruct (Rle_dec _ _) as [Hwrap|Hstay].
    + exists (S k). split; [lia|]. rewrite !S_INR. ring.
    + exists k. split; [lia|]. rewrite S_INR. ring.
Qed.

(** Between two positions of the same table lies less than one table
    length: a whole number of lengths between them is zero. *)
Lemma whole_lengths_zero (p q L : R) (m k : nat) :
  (0 < L)%R -> (0 <= p < L)%R -> (0 <= q < L)%R ->
  (q = p + INR m * L - INR k * L)%R -> q = p.
Proof.
  intros HL Hp Hq Heq.
  assert (Hz : (q - p = IZR (Z.of_nat m - Z.of_nat k) * L)%R).
  { rewrite minus_IZR, <- !INR_IZR_INZ. lra. }
  assert (Hzero : (Z.of_nat m - Z.of_nat k = 0)%Z).
  { set (z := (Z.of_nat m - Z.of_nat k)%Z) in *.
    assert (Hlo : (-1 < z)%Z).
    { apply lt_IZR. apply (Rmult_lt_reg_r L); [exact HL|].
      rewrite <- Hz. lra. }
    assert (Hhi : (z < 1)%Z).
    { apply lt_IZR. apply (Rmult_lt_reg_r L); [exact HL|].
      rewrite <- Hz. lra. }
    lia. }
  rewrite Hzero in Hz. lra.
Qed.

(** The position comes back after a whole number of periods. *)
Lemma advance_period (o : WavetableOscillator R) (sampleRate : R) (n m : nat) :
  0 < currentTableSize o ->
  (0 < sampleRate)%R ->
  sampleRateInv o = fdiv fone sampleRate ->
  (0 <= frequency o < sampleRate)%R ->
  delta o = fmul (fmul (frequency o) (of_size (currentTableSize o)))
                 (sampleRateInv o) ->
  in_table o ->
  (INR n * frequency o = INR m * sampleRate)%R ->
  currentSamplePosition (advance n o) = currentSamplePosition o.
Proof.
  intros Hsize Hrate Hinv Hfreq Hdelta Hpos Hwhole.
  pose proof (of_size_positive Hsize) as HL.
  assert (Hinv0 : (0 < sampleRateInv o)%R).
  { rewrite Hinv. cbn. unfold Rdiv. rewrite Rmult_1_l.
    apply Rinv_0_lt_compat, Hrate. }
  assert (Hd : (0 <= delta o < table_length o)%R).
  { rewrite Hdelta. unfold table_length. cbn [fmul Exact.exact].
    apply increment_bounds; try lra.
    rewrite Hinv. apply below_sample_rate; lra. }
  destruct (advance_position n Hd Hpos) as [Hin [_ [Hs [_ [_ [_ [_ [_ [_
                                           [k [_ Hk]]]]]]]]]]].
  unfold in_table in *. rewrite Hs in Hin. unfold table_length in *.
  apply (@whole_lengths_zero _ _ (of_size (currentTableSize o)) m k);
    try assumption; try lra.
  rewrite Hk. f_equal. f_equal.
  rewrite Hdelta, Hinv. cbn [fmul fdiv fone Exact.exact].
  transitivity (INR n * frequency o * (of_size (currentTableSize o) / sampleRate))%R;
    [field; lra|].
  rewrite Hwhole. field. lra.
Qed.

(** X15.  The oscillator has the period its frequency asks for.  In exact
    arithmetic, for an oscillator inside a table of length [L > 0], tuned to
    a frequency [0 <= f < sampleRate] with the increment [f * L / sampleRate]
    that [setFrequency] computes: after [n] advances the position is the
    start plus [n] increments minus a whole number [k <= n] of table lengths
    and lies in [[0, L)]; and when [n * f = m * sampleRate] for a whole
    number [m], the position after [n] advances is the position at the
    start, and the samples the oscillator returns repeat with period [n]:
    the sample of advance [n + j + 1] is the sample of advance [j + 1]. *)
Theorem oscillator_period :
  forall (o : WavetableOscillator R) (sampleRate : R) (n : nat),
    0 < currentTableSize o ->
    (0 < sampleRate)%R ->
    sampleRateInv o = fdiv fone sampleRate ->
    (0 <= frequency o < sampleRate)%R ->
    delta o = fmul (fmul (frequency o) (of_size (currentTableSize o)))
                   (sampleRateInv o) ->
    in_table o ->
    (in_table (advance n o) /\
     exists k, k <= n /\
       currentSamplePosition (advance n o)
       = (currentSamplePosition o + INR n * delta o
          - INR k * table_length o)%R) /\
    forall m : nat,
      (INR n * frequency o = INR m * sampleRate)%R ->
      currentSamplePosition (advance n o) = currentSamplePosition o /\
      forall j,
        fst (pre_increment (advance (n + j) o))
        = fst (pre_increment (advance j o)).
Proof.
  intros o sampleRate n Hsize Hrate Hinv Hfreq Hdelta Hpos.
  pose proof (of_size_positive Hsize) as HL.
  assert (Hd : (0 <= delta o < table_length o)%R).
  { rewrite Hdelta. unfold table_length. cbn [fmul Exact.exact].
    apply increment_bounds; try lra.
    - rewrite Hinv. cbn. unfold Rdiv. rewrite Rmult_1_l.
      apply Rlt_le, Rinv_0_lt_compat, Hrate.
    - rewrite Hinv. apply below_sample_rate; lra. }
  split.
  - destruct (advance_position n Hd Hpos) as [Hin [_ [_ [_ [_ [_ [_ [_ [_ Hk]]]]]]]]].
    split; assumption.
  - intros m Hwhole.
    split; [apply (@advance_period o sampleRate n m); assumption|].
    intros j.
    destruct (advance_position j Hd Hpos)
      as [Hin [Hdj [Hsj [Hij [Hfj [Hwj [Hcj [Htj [Hbj _]]]]]]]]].
    assert (Hdj' : (0 <= delta (advance j o) < table_length (advance j o))%R).
    { unfold table_length. rewrite Hdj, Hsj. exact Hd. }
    destruct (advance_position n Hdj' Hin)
      as [_ [Hdn [Hsn [Hin' [Hfn [Hwn [Hcn [Htn [Hbn _]]]]]]]]].
    assert (Hback : currentSamplePosition (advance n (advance j o))
                    = currentSamplePosition (advance j o)).
    { apply (@advance_period (advance j o) sampleRate n m).
      - rewrite Hsj. exact Hsize.
      - exact Hrate.
      - rewrite Hij. exact Hinv.
      - rewrite Hfj. exact Hfreq.
      - rewrite Hdj, Hfj, Hsj, Hij. exact Hdelta.
      - exact Hin.
      - rewrite Hfj. exact Hwhole. }
    unfold pre_increment. cbn [fst].
    replace (advance (n + j) o) with (advance n (advance j o))
      by (unfold advance; rewrite Nat.iter_add; reflexivity).
    f_equal. apply step_ignores_value; assumption.
Qed.

(** The oscillator at position 1.5 in a table of 4 samples, at 2 Hz and a
    sample rate of 8 Hz: the increment is 1 and the period 4 samples. *)
Definition at_2_of_8 : WavetableOscillator R :=
  {| sampleRateInv := (1 / 8)%R; frequency := 2%R;
     delta := (2 * IZR (Z.of_nat 4) * (1 / 8))%R;
     currentSamplePosition := (3 / 2)%R; value := 0%R;
     wavetables := None; currentTable := None; currentTableSize := 4;
     topFreq := 0%R; bottomFreq := 0%R |}.

Lemma oscillator_period_witness :
  (in_table (advance 4 at_2_of_8) /\
   exists k, k <= 4 /\
     currentSamplePosition (advance 4 at_2_of_8)
     = (currentSamplePosition at_2_of_8 + INR 4 * delta at_2_of_8
        - INR k * table_length at_2_of_8)%R) /\
  forall m : nat,
    (INR 4 * frequency at_2_of_8 = INR m * 8)%R ->
    currentSamplePosition (advance 4 at_2_of_8)
    = currentSamplePosition at_2_of_8 /\
    forall j,
      fst (pre_increment (advance (4 + j) at_2_of_8))
      = fst (pre_increment (advance j at_2_of_8)).
Proof.
  apply (@oscillator_period at_2_of_8 8%R 4).
  - cbn. lia.
  - lra.
  - reflexivity.
  - cbn. lra.
  - reflexivity.
  - unfold in_table. cbn. lra.
Defined.

End OscillatorRun.

(** The sizes the transforms accept. *)
Module Sizes.
Import Bits BitsFacts FFTFacts BitsMore LoopFacts FFT Reversal.

(** A power of two that is still a power of two as an [int] is at most
    [2^30]. *)
Lemma int_pow2_small (k : Z) :
  (0 <= k)%Z -> isPowerOf2 (wrap I32 (2 ^ k)) = true -> (k <= 30)%Z.
Proof.
  intros Hk Hp. destruct (Z.le_gt_cases k 30) as [Hle|Hgt]; [exact Hle|exfalso].
  assert (Hneg : (wrap I32 (2 ^ k) <= 0)%Z).
  { destruct (Z.eq_dec k 31) as [->|Hne].
    - vm_compute. discriminate.
    - unfold wrap.
      replace (2 ^ k)%Z with (2 ^ (k - 32) * 2 ^ 32)%Z
        by (rewrite <- Z.pow_add_r by lia; f_equal; lia).
      rewrite Z.add_comm, Z.mod_add by lia.
      vm_compute. discriminate. }
  unfold isPowerOf2 in Hp. apply andb_true_iff in Hp.
  destruct Hp as [_ Hpos]. apply Z.ltb_lt in Hpos. lia.
Qed.

Lemma log2OfPowerOf2_some (x l : Z) :
  log2OfPowerOf2 x = Some l -> isPowerOf2 x = true.
Proof.
  unfold log2OfPowerOf2. destruct (isPowerOf2 x); [reflexivity|discriminate].
Qed.

Lemma pow2_below (k : Z) : (0 <= k <= 30)%Z -> (0 <= 2 ^ k < 2 ^ 31)%Z.
Proof.
  intros Hk. split; [apply Z.pow_nonneg; lia|apply Z.pow_lt_mono_r; lia].
Qed.

Section WithT.
Context {T : Type} `{Floating T} `{Elementary T}.

(** [detail::fft] returns only for [2^n] elements with [1 <= n <= 30]. *)
Lemma detail_fft_some_size (x out y : list (complex T)) (dir : FFTDirection) :
  detail_fft x out dir = Some y ->
  exists n, 1 <= n <= 30 /\ length x = 2 ^ n.
Proof.
  unfold detail_fft.
  destruct (isPowerOf2 (Z.of_nat (length x))) eqn:Hp; [|discriminate].
  apply isPowerOf2_powers in Hp. destruct Hp as [k [Hk Hsize]].
  rewrite Hsize.
  destruct (log2OfPowerOf2 (wrap I32 (2 ^ k))) as [l|] eqn:Hlog; [|discriminate].
  pose proof (int_pow2_small Hk (log2OfPowerOf2_some _ Hlog)) as Hk30.
  rewrite wrap_small in Hlog by (apply pow2_below; lia).
  destruct (@log2OfPowerOf2_pow2 k ltac:(lia)) as [_ Hl].
  rewrite Hl in Hlog. injection Hlog as <-.
  assert (Hlen : length x = Z.to_nat (2 ^ k)) by lia.
  destruct (Z.eq_dec k 0) as [->|Hne].
  - rewrite Hlen. change (Z.to_nat (2 ^ 0)) with 1.
    rewrite for_loop_opt_abort by (try lia; reflexivity). discriminate.
  - intros _. exists (Z.to_nat k). split; [lia|].
    rewrite Hlen. rewrite <- (Z2Nat.id k) at 1 by lia.
    apply Z_to_nat_pow2.
Qed.

(** ... and for each of these sizes it returns. *)
Lemma detail_fft_returns (n : nat) (x out : list (complex T))
    (dir : FFTDirection) :
  1 <= n <= 30 -> length x = 2 ^ n ->
  exists y, detail_fft x out dir = Some y.
Proof.
  intros Hn Hx. unfold detail_fft. rewrite Hx.
  rewrite <- Z_of_nat_pow2.
  destruct (@log2OfPowerOf2_pow2 (Z.of_nat n) ltac:(lia)) as [Hp Hlog].
  rewrite Hp, wrap_small, Hlog by (apply pow2_below; lia).
  rewrite (for_loop_opt_below _
             (fun i out =>
                set i (cscale (fdiv fone (fsqrt (of_int (2 ^ Z.of_nat n))))
                         (get czero x (revbits n i))) out)).
  - eexists. reflexivity.
  - intros i s Hi. rewrite bitReverse_revbits, Nat2Z.id by lia. reflexivity.
Qed.

(** The constructor of [FFTCalculator] returns only for [N = 2^k] with
    [1 <= k <= 30]. *)
Lemma new_FFTCalculator_some_size (n : Z) (c : FFTCalculator T) :
  (- 2 ^ 31 <= n < 2 ^ 31)%Z ->
  new_FFTCalculator n = Some c ->
  exists k, 1 <= k <= 30 /\ n = (2 ^ Z.of_nat k)%Z.
Proof.
  intros Hint. unfold new_FFTCalculator.
  destruct (isPowerOf2 n) eqn:Hp; [|discriminate].
  apply isPowerOf2_powers in Hp. destruct Hp as [k [Hk ->]].
  assert (Hk30 : (k <= 30)%Z).
  { destruct (Z.le_gt_cases k 30) as [Hle|Hgt]; [exact Hle|exfalso].
    assert (2 ^ 31 <= 2 ^ k)%Z by (apply Z.pow_le_mono_r; lia). lia. }
  destruct (@log2OfPowerOf2_pow2 k ltac:(lia)) as [_ Hl]. rewrite Hl.
  destruct (Z.eq_dec k 0) as [->|Hne].
  - change (Z.to_nat (2 ^ 0)) with 1.
    rewrite for_loop_opt_abort by (try lia; reflexivity). discriminate.
  - intros _. exists (Z.to_nat k). split; [lia|].
    rewrite Z2Nat.id by lia. reflexivity.
Qed.

End WithT.

(** X16.  The sizes the transforms accept, whatever the arithmetic:
    [detail::fft] (and with it [fft] and [ifft]) returns
    exactly for inputs of [2^n] elements with [1 <= n <= 30]; for the empty
    input, for one element and for every length that is not a power of two
    an assertion fails.  The constructor of [FFTCalculator<T, N>] returns
    exactly for [N = 2^k] with [1 <= k <= 30]. *)
Theorem transform_sizes :
  forall (T : Type) (F : Floating T) (E : Elementary T),
    (forall (x out : list (complex T)) (dir : FFTDirection),
        (exists y, detail_fft x out dir = Some y)
        <-> (exists n, 1 <= n <= 30 /\ length x = 2 ^ n)) /\
    (forall n : Z,
        (- 2 ^ 31 <= n < 2 ^ 31)%Z ->
        (exists c : FFTCalculator T, new_FFTCalculator n = Some c)
        <-> (exists k, 1 <= k <= 30 /\ n = (2 ^ Z.of_nat k)%Z)).
Proof.
  intros T F E. split.
  - intros x out dir. split.
    + intros [y Hy]. exact (detail_fft_some_size x out dir Hy).
    + intros [n [Hn Hx]]. exact (detail_fft_returns x out dir Hn Hx).
  - intros n Hint. split.
    + intros [c Hc]. exact (new_FFTCalculator_some_size Hint Hc).
    + intros [k [Hk ->]].
      destruct (new_FFTCalculator_indices (T:=T) (n:=k) Hk) as [c [Hc _]].
      exists c. exact Hc.
Qed.

End Sizes.

(** Retuning the oscillator: the phase across a change of table, the
    sample rate, and the blend of the morphing oscillator. *)
Module OscillatorTuning.
Import Oscillator OscillatorFacts OscillatorMore OscillatorRun.

(** [std::max(0., std::min(top, p))] for [p] and [top] that are not
    negative is the smaller of the two. *)
Lemma clamp_min (top p : R) :
  (0 <= top)%R -> (0 <= p)%R -> fmax fzero (fmin top p) = Rmin top p.
Proof.
  intros Htop Hp. unfold fmax, fmin, Rmin. cbn. unfold Exact.Rltb.
  destruct (Rlt_dec p top), (Rle_dec top p), (Rlt_dec 0 _); lra.
Qed.

(** [setFrequency] on the searching path, with the position it computes. *)
Lemma setFrequency_searches (o : WavetableOscillator R)
    (tables : list (Wavetable R)) (f : R) :
  wavetables o = Some tables -> tables <> [] ->
  (forall t, In t tables -> 0 < size t) ->
  flt (fmul f (sampleRateInv o)) fone = true ->
  fle f (topFreq o) && flt (bottomFreq o) f = false ->
  exists o',
    setFrequency o f = Some o' /\
    0 < currentTableSize o' /\
    sampleRateInv o' = sampleRateInv o /\
    frequency o' = f /\
    delta o' = fmul (fmul f (of_size (currentTableSize o'))) (sampleRateInv o) /\
    currentSamplePosition o'
    = (if negb (currentTableSize o =? 0)
       then fmax fzero
              (fmin (fsub (of_size (currentTableSize o')) feps7)
                 (fdiv (fmul (currentSamplePosition o)
                          (of_size (currentTableSize o')))
                       (of_size (currentTableSize o))))
       else currentSamplePosition o).
Proof.
  intros Hw Hne Hsizes Hassert Hmiss.
  destruct (@selectTable_search_cache (with_frequency o f) tables Hw Hne
              Hsizes Hmiss)
    as [o' [Hsel [_ [Hf' [Hinv' [_ [Hsize' [_ [_ Hpos']]]]]]]]].
  cbn [with_frequency frequency sampleRateInv currentTableSize
       currentSamplePosition] in *.
  exists (updateDelta o'). unfold setFrequency.
  cbn [with_frequency sampleRateInv]. rewrite Hassert, Hsel.
  split; [reflexivity|].
  unfold updateDelta, with_delta.
  cbn [currentTableSize sampleRateInv frequency delta currentSamplePosition].
  split.
  { rewrite Hsize'. apply Hsizes, nth_In.
    destruct (selected_index_spec f Hne) as [Hlt _]. exact Hlt. }
  split; [exact Hinv'|]. split; [exact Hf'|].
  split; [rewrite Hf', Hinv'; reflexivity|exact Hpos'].
Qed.

(** X17.  A change of table keeps the phase.  In exact arithmetic, when
    [setFrequency] searches and selects a table of length [L'] while the
    position [p] is inside the old table of length [L > 0], the new
    position is [p * L' / L], cut off at [L' - 1e-7]; so the phase
    [position / length] is the same before and after, unless it was within
    [1e-7 / L'] of the end of the table. *)
Theorem table_switch_keeps_phase :
  forall (o : WavetableOscillator R) (tables : list (Wavetable R)) (f : R),
    wavetables o = Some tables -> tables <> [] ->
    (forall t, In t tables -> 0 < size t) ->
    0 < currentTableSize o -> in_table o ->
    flt (fmul f (sampleRateInv o)) fone = true ->
    fle f (topFreq o) && flt (bottomFreq o) f = false ->
    exists o',
      setFrequency o f = Some o' /\
      currentSamplePosition o'
      = Rmin (table_length o' - feps7)
             (currentSamplePosition o * table_length o' / table_length o) /\
      ((currentSamplePosition o / table_length o
        <= 1 - feps7 / table_length o')%R ->
       (currentSamplePosition o' / table_length o'
        = currentSamplePosition o / table_length o)%R).
Proof.
  intros o tables f Hw Hne Hsizes Hsize Hin Hassert Hmiss.
  destruct (setFrequency_searches o f Hw Hne Hsizes Hassert Hmiss)
    as [o' [Hset [Hsize' [_ [_ [_ Hpos]]]]]].
  exists o'. split; [exact Hset|].
  pose proof (of_size_positive Hsize) as HL.
  pose proof (of_size_positive Hsize') as HL'.
  unfold in_table in Hin. unfold table_length.
  set (L := of_size (currentTableSize o)) in *.
  set (L' := of_size (currentTableSize o')) in *.
  set (p := currentSamplePosition o) in *.
  replace (negb (currentTableSize o =? 0)) with true in Hpos
    by (symmetry; apply negb_true_iff, Nat.eqb_neq; lia).
  assert (Hscaled : (0 <= p * L' / L)%R).
  { apply Rmult_le_pos; [apply Rmult_le_pos; lra|].
    apply Rlt_le, Rinv_0_lt_compat. lra. }
  assert (Heps : (feps7 = / 10000000)%R) by reflexivity.
  rewrite clamp_min in Hpos
    by (cbn [fsub fmul fdiv Exact.exact]; try exact Hscaled; lra).
  cbn [fsub fmul fdiv Exact.exact] in Hpos.
  split; [exact Hpos|].
  intros Hphase. rewrite Hpos.
  assert (Hle : (p * L' / L <= L' - feps7)%R).
  { replace (p * L' / L)%R with (p / L * L')%R by (field; lra).
    apply (Rmult_le_compat_r L') in Hphase; [|lra].
    replace ((1 - feps7 / L') * L')%R with (L' - feps7)%R in Hphase
      by (field; lra).
    exact Hphase. }
  rewrite Rmin_right by exact Hle. field. lra.
Qed.

(** Between the tables of 4 samples for 500 and 2000 Hz: the oscillator is
    at position 1 of the first table, and is tuned to 1000 Hz. *)
Definition at_one_of_first : WavetableOscillator R :=
  {| sampleRateInv := (1 / 44100)%R; frequency := 100%R;
     delta := (100 * IZR (Z.of_nat 4) * (1 / 44100))%R;
     currentSamplePosition := 1%R; value := 1%R;
     wavetables := Some tables_500_2000; currentTable := Some 0;
     currentTableSize := 4;
     topFreq := 500%R; bottomFreq := 0%R |}.

Lemma table_switch_keeps_phase_witness :
  exists o',
    setFrequency at_one_of_first 1000%R = Some o' /\
    currentSamplePosition o'
    = Rmin (table_length o' - feps7)
           (currentSamplePosition at_one_of_first * table_length o'
            / table_length at_one_of_first) /\
    ((currentSamplePosition at_one_of_first / table_length at_one_of_first
      <= 1 - feps7 / table_length o')%R ->
     (currentSamplePosition o' / table_length o'
      = currentSamplePosition at_one_of_first
        / table_length at_one_of_first)%R).
Proof.
  apply (@table_switch_keeps_phase at_one_of_first tables_500_2000 1000%R).
  - reflexivity.
  - discriminate.
  - intros t [<-|[<-|[]]]; cbn; lia.
  - cbn. lia.
  - unfold in_table. cbn. lra.
  - apply Rltb_true. cbn. lra.
  - apply andb_false_iff. left. apply Rleb_false. cbn. lra.
Defined.

(** [setFrequency] returns when the assertion holds and there are tables. *)
Lemma setFrequency_returns (o : WavetableOscillator R)
    (tables : list (Wavetable R)) (f : R) :
  wavetables o = Some tables -> tables <> [] ->
  (forall t, In t tables -> 0 < size t) ->
  flt (fmul f (sampleRateInv o)) fone = true ->
  exists o',
    setFrequency o f = Some o' /\
    sampleRateInv o' = sampleRateInv o /\
    frequency o' = f /\
    delta o' = fmul (fmul f (of_size (currentTableSize o'))) (sampleRateInv o).
Proof.
  intros Hw Hne Hsizes Hassert.
  destruct (fle f (topFreq o) && flt (bottomFreq o) f) eqn:Hhit.
  - apply andb_true_iff in Hhit. destruct Hhit as [Hhi Hlo].
    exists (retuned o f). rewrite (setFrequency_cached o f Hlo Hhi), Hassert.
    repeat split; reflexivity.
  - destruct (setFrequency_searches o f Hw Hne Hsizes Hassert Hhit)
      as [o' [Hset [_ [Hinv [Hf [Hd _]]]]]].
    exists o'. repeat split; assumption.
Qed.

(** X18.  A change of the sample rate keeps the pitch.  In exact
    arithmetic, for an oscillator with tables (not empty, of positive
    sizes), a positive sample rate and a frequency below it,
    [setSampleRate] returns; afterwards [getSampleRate] gives the new rate,
    [getFrequency] the frequency as before, and the increment is
    [frequency * table length / sample rate] for the new rate. *)
Theorem setSampleRate_keeps_pitch :
  forall (o : WavetableOscillator R) (tables : list (Wavetable R))
         (sampleRate : R),
    wavetables o = Some tables -> tables <> [] ->
    (forall t, In t tables -> 0 < size t) ->
    (0 < sampleRate)%R -> (frequency o < sampleRate)%R ->
    exists o',
      setSampleRate o sampleRate = Some o' /\
      getSampleRate o' = sampleRate /\
      getFrequency o' = getFrequency o /\
      delta o' = (frequency o * table_length o' / sampleRate)%R.
Proof.
  intros o tables sr Hw Hne Hsizes Hsr Hf.
  destruct (@setFrequency_returns (with_sampleRateInv o (fdiv fone sr)) tables
              (frequency o) Hw Hne Hsizes)
    as [o' [Hset [Hinv [Hfreq Hdelta]]]].
  { apply Rltb_true. cbn [with_sampleRateInv sampleRateInv].
    apply below_sample_rate; assumption. }
  cbn [with_sampleRateInv sampleRateInv] in Hinv, Hdelta.
  exists o'. split; [exact Hset|].
  unfold getSampleRate, getFrequency, table_length.
  rewrite Hinv, Hdelta, Hfreq. cbn [fdiv fone fmul Exact.exact].
  repeat split; try reflexivity; field; lra.
Qed.

Lemma setSampleRate_keeps_pitch_witness :
  exists o',
    setSampleRate at_one_of_first 48000%R = Some o' /\
    getSampleRate o' = 48000%R /\
    getFrequency o' = getFrequency at_one_of_first /\
    delta o' = (frequency at_one_of_first * table_length o' / 48000)%R.
Proof.
  apply (@setSampleRate_keeps_pitch at_one_of_first tables_500_2000 48000%R).
  - reflexivity.
  - discriminate.
  - intros t [<-|[<-|[]]]; cbn; lia.
  - lra.
  - cbn. lra.
Defined.

(** X19.  The morphing oscillator never overshoots.  In exact arithmetic,
    with the parameter in [[0, 1]], the sample of the morphing oscillator
    lies between the samples of its two oscillators; with the parameter 0
    it is the sample of the first, with the parameter 1 the sample of the
    second. *)
Theorem morph_between :
  forall m : MorpingWavetableOscillator R,
    (0 <= param m <= 1)%R ->
    (Rmin (call (osc1 m)) (call (osc2 m)) <= morph_call m
     <= Rmax (call (osc1 m)) (call (osc2 m)))%R /\
    (param m = 0%R -> morph_call m = call (osc1 m)) /\
    (param m = 1%R -> morph_call m = call (osc2 m)).
Proof.
  intros m Hp. unfold morph_call. cbn [fadd fmul fsub fone Exact.exact].
  set (a := call (osc1 m)). set (b := call (osc2 m)). set (t := param m) in *.
  split; [|split].
  - unfold Rmin, Rmax. destruct (Rle_dec a b) as [Hab|Hab]; split; nra.
  - intros ->. ring.
  - intros ->. ring.
Qed.

(** A blend a quarter of the way from the first to the second. *)
Definition quarter_blend : MorpingWavetableOscillator R :=
  {| param := (1 / 4)%R; osc1 := at_one_of_first; osc2 := at_2_of_8 |}.

Lemma morph_between_witness :
  (Rmin (call (osc1 quarter_blend)) (call (osc2 quarter_blend))
   <= morph_call quarter_blend
   <= Rmax (call (osc1 quarter_blend)) (call (osc2 quarter_blend)))%R /\
  (param quarter_blend = 0%R ->
   morph_call quarter_blend = call (osc1 quarter_blend)) /\
  (param quarter_blend = 1%R ->
   morph_call quarter_blend = call (osc2 quarter_blend)).
Proof.
  apply (@morph_between quarter_blend).
  cbn. lra.
Defined.

End OscillatorTuning.

(** The second implementation of the transform ([detail::fft2] and
    [FFTCalculator2]) against the first. *)
Module SecondIndices.
Import Bits BitsFacts FFT2.
Local Open Scope Z_scope.

Lemma bm_pow2 (i : nat) : bm i = 2 ^ Z.of_nat i.
Proof. unfold bm. rewrite Z.shiftl_mul_pow2 by lia. lia. Qed.

Lemma bw_pow2 (i : nat) : bw i = 2 ^ (Z.of_nat i + 1).
Proof.
  unfold bw. rewrite Z.shiftl_mul_pow2 by lia.
  rewrite Z.pow_add_r by lia. lia.
Qed.

(** The lower position of butterfly [j] of pass [i]: the offset
    [j mod 2^i] in the block [j / 2^i] of [2 * 2^i] elements. *)
Definition pos1 (i j : nat) : nat :=
  (j mod 2 ^ i + j / 2 ^ i * (2 * 2 ^ i))%nat.
Definition pos2 (i j : nat) : nat := (pos1 i j + 2 ^ i)%nat.

Lemma index1_pos (i j : nat) : index1 i j = Z.of_nat (pos1 i j).
Proof.
  unfold index1, pos1. rewrite bm_pow2.
  rewrite Z.shiftr_div_pow2, Z.shiftl_mul_pow2 by lia.
  assert (Hpos : 0 < 2 ^ Z.of_nat i) by (apply Z.pow_pos_nonneg; lia).
  rewrite Z.rem_mod_nonneg by lia.
  rewrite Nat2Z.inj_add, Nat2Z.inj_mul, Nat2Z.inj_mul.
  rewrite Nat2Z.inj_mod, Nat2Z.inj_div, Nat2Z.inj_pow.
  rewrite Z.pow_add_r by lia. change (Z.of_nat 2) with 2. lia.
Qed.

Lemma pos1_bit (i j : nat) : Z.testbit (Z.of_nat (pos1 i j)) (Z.of_nat i) = false.
Proof.
  assert (Hpos : (0 < 2 ^ i)%nat) by (apply Nat.neq_0_lt_0, Nat.pow_nonzero; lia).
  pose proof (Nat.mod_upper_bound j (2 ^ i) ltac:(lia)) as Hq.
  apply Z.b2z_inj. rewrite Z.testbit_spec' by lia. cbn [Z.b2z].
  unfold pos1. rewrite Nat2Z.inj_add, !Nat2Z.inj_mul, Nat2Z.inj_pow.
  change (Z.of_nat 2) with 2.
  replace (Z.of_nat (j mod 2 ^ i) + Z.of_nat (j / 2 ^ i) * (2 * 2 ^ Z.of_nat i))
    with (Z.of_nat (j mod 2 ^ i) + (2 * Z.of_nat (j / 2 ^ i)) * 2 ^ Z.of_nat i)
    by ring.
  rewrite Z.div_add by lia.
  rewrite Z.div_small.
  - rewrite Z.add_0_l, Z.mul_comm, Z.mod_mul by lia. reflexivity.
  - split; [lia|]. rewrite FFTFacts.Z_of_nat_pow2. lia.
Qed.

Lemma land_pow2_clear (x k : Z) :
  0 <= k -> Z.testbit x k = false -> Z.land x (2 ^ k) = 0.
Proof.
  intros Hk Hbit. apply Z.bits_inj'. intros n Hn.
  rewrite Z.land_spec, Z.bits_0, Z.pow2_bits_eqb by lia.
  destruct (Z.eqb_spec k n) as [->|Hne].
  - rewrite Hbit. reflexivity.
  - apply andb_false_r.
Qed.

Lemma index2_pos (i j : nat) : index2 i j = Z.of_nat (pos2 i j).
Proof.
  unfold index2, pos2. rewrite index1_pos, bm_pow2.
  rewrite <- Z.add_nocarry_lxor
    by (apply land_pow2_clear; [lia|apply pos1_bit]).
  rewrite Nat2Z.inj_add, Nat2Z.inj_pow. reflexivity.
Qed.

(** The exclusive or with [2^k] changes a number by a multiple of [2^k]. *)
Lemma lxor_pow2_multiple (x k : Z) :
  0 <= x -> 0 <= k ->
  exists t : nat, Z.lxor x (2 ^ k) = x mod 2 ^ k + Z.of_nat t * 2 ^ k.
Proof.
  intros Hx Hk.
  assert (Hpos : 0 < 2 ^ k) by (apply Z.pow_pos_nonneg; lia).
  assert (Hnonneg : 0 <= Z.lxor x (2 ^ k)).
  { apply Z.lxor_nonneg. split; intros _; lia. }
  assert (Hmod : Z.lxor x (2 ^ k) mod 2 ^ k = x mod 2 ^ k).
  { rewrite <- !Z.land_ones by lia. apply Z.bits_inj'. intros n Hn.
    rewrite !Z.land_spec, Z.lxor_spec, Z.pow2_bits_eqb by lia.
    destruct (Z.ltb_spec n k) as [Hlt|Hge].
    - replace (k =? n) with false by (symmetry; apply Z.eqb_neq; lia).
      rewrite xorb_false_r. reflexivity.
    - rewrite Z.ones_spec_high by lia. rewrite !andb_false_r. reflexivity. }
  exists (Z.to_nat (Z.lxor x (2 ^ k) / 2 ^ k)).
  rewrite Z2Nat.id by (apply Z.div_pos; lia).
  rewrite <- Hmod. rewrite (Z.div_mod (Z.lxor x (2 ^ k)) (2 ^ k)) at 1 by lia.
  ring.
Qed.

Lemma pos1_mod (i j : nat) :
  (pos1 i j mod (2 * 2 ^ i) = j mod 2 ^ i)%nat.
Proof.
  assert (Hpos : (0 < 2 ^ i)%nat) by (apply Nat.neq_0_lt_0, Nat.pow_nonzero; lia).
  pose proof (Nat.mod_upper_bound j (2 ^ i) ltac:(lia)) as Hq.
  unfold pos1. rewrite Nat.Div0.mod_add. apply Nat.mod_small. lia.
Qed.

Lemma pos2_mod (i j : nat) :
  (pos2 i j mod (2 * 2 ^ i) = j mod 2 ^ i + 2 ^ i)%nat.
Proof.
  assert (Hpos : (0 < 2 ^ i)%nat) by (apply Nat.neq_0_lt_0, Nat.pow_nonzero; lia).
  pose proof (Nat.mod_upper_bound j (2 ^ i) ltac:(lia)) as Hq.
  unfold pos2, pos1.
  replace (j mod 2 ^ i + j / 2 ^ i * (2 * 2 ^ i) + 2 ^ i)%nat
    with (j mod 2 ^ i + 2 ^ i + j / 2 ^ i * (2 * 2 ^ i))%nat by lia.
  rewrite Nat.Div0.mod_add. apply Nat.mod_small. lia.
Qed.

(** What the rotations are computed from: [k ^ bw] for a position [k] is
    the position within its block plus a multiple of the block length. *)
Lemma lxor_bw (i k : nat) :
  exists t : nat,
    Z.lxor (Z.of_nat k) (bw i)
    = Z.of_nat (k mod (2 * 2 ^ i) + t * (2 * 2 ^ i)).
Proof.
  rewrite bw_pow2.
  destruct (@lxor_pow2_multiple (Z.of_nat k) (Z.of_nat i + 1)) as [t Ht];
    try lia.
  exists t. rewrite Ht.
  rewrite Nat2Z.inj_add, Nat2Z.inj_mul, Nat2Z.inj_mod, Nat2Z.inj_mul,
    Nat2Z.inj_pow.
  rewrite Z.pow_add_r by lia. change (Z.of_nat 2) with 2.
  replace (2 ^ Z.of_nat i * 2 ^ 1) with (2 * 2 ^ Z.of_nat i) by lia.
  reflexivity.
Qed.

End SecondIndices.

Module SecondStage.
Import ComplexRing Roots StageFacts LoopFacts FFT Fourier RoundTrip.
Import FourierMore Spectra SecondIndices.
Local Open Scope cplx_scope.

Lemma cis_period (a d : R) (t : nat) :
  (d = 1 \/ d = -1)%R -> cis (a + d * (2 * INR t * PI))%R = cis a.
Proof.
  intros [->| ->]; unfold cis.
  - rewrite Rmult_1_l, cos_period, sin_period. reflexivity.
  - rewrite <- (cos_period (a + -1 * (2 * INR t * PI)) t).
    rewrite <- (sin_period (a + -1 * (2 * INR t * PI)) t).
    f_equal; f_equal; ring.
Qed.

Lemma cis_half_turn (a d : R) :
  (d = 1 \/ d = -1)%R -> cis (a + d * PI)%R = - cis a.
Proof.
  intros [->| ->]; unfold cis.
  - rewrite Rmult_1_l, neg_cos, neg_sin. apply complex_eq; cbn; ring.
  - pose proof (neg_cos (a + -1 * PI)) as Hc.
    pose proof (neg_sin (a + -1 * PI)) as Hs.
    replace (a + -1 * PI + PI)%R with a in Hc, Hs by ring.
    apply complex_eq; cbn; lra.
Qed.

Lemma IZR_bm (i : nat) : IZR (FFT2.bm i) = (2 ^ i)%R.
Proof. rewrite bm_pow2, <- pow_IZR. reflexivity. Qed.

(** The rotation computed from the position [k]: the angle counts the
    offset of [k] in its block of [2 * 2^i] elements. *)
Lemma turn_of_cis (ang d : R) (i k : nat) :
  (d = 1 \/ d = -1)%R -> ang = (d * PI / 2 ^ i)%R ->
  FFT2.turn_of ang i (Z.of_nat k) = cis (INR (k mod (2 * 2 ^ i)) * ang)%R.
Proof.
  intros Hd Hang. unfold FFT2.turn_of, polar.
  destruct (lxor_bw i k) as [t Ht]. rewrite Ht.
  cbn [fmul fone of_int Exact.exact fcos fsin Exact.exact_elementary].
  rewrite <- INR_IZR_INZ, plus_INR, !mult_INR, pow_INR.
  change (INR 2) with 2%R.
  rewrite <- (cis_period (INR (k mod (2 * 2 ^ i)) * ang) t Hd).
  assert (Hpow : (2 ^ i <> 0)%R) by (apply Rgt_not_eq, pow2_pos).
  replace (ang * (INR (k mod (2 * 2 ^ i)) + INR t * (2 * 2 ^ i)))%R
    with (INR (k mod (2 * 2 ^ i)) * ang + d * (2 * INR t * PI))%R
    by (rewrite Hang; field; exact Hpow).
  unfold cis. apply complex_eq; cbn; ring.
Qed.

Lemma rotation_angle (dir : FFTDirection) (i : nat) :
  rotation dir i = cis (IZR (direction_value dir) * PI / 2 ^ i)%R.
Proof. apply rotation_cis. Qed.

(** The two rotations of butterfly [j] of pass [i]. *)
Lemma turn_of_index1 (dir : FFTDirection) (ang : R) (i j : nat) :
  ang = (IZR (direction_value dir) * PI / 2 ^ i)%R ->
  FFT2.turn_of ang i (FFT2.index1 i j) = cpow (rotation dir i) (j mod 2 ^ i).
Proof.
  intros Hang. rewrite index1_pos.
  rewrite (@turn_of_cis ang (IZR (direction_value dir)) i (pos1 i j)
             (direction_cases dir) Hang).
  rewrite pos1_mod, rotation_angle, cpow_cis, Hang. reflexivity.
Qed.

Lemma turn_of_index2 (dir : FFTDirection) (ang : R) (i j : nat) :
  ang = (IZR (direction_value dir) * PI / 2 ^ i)%R ->
  FFT2.turn_of ang i (FFT2.index2 i j)
  = - cpow (rotation dir i) (j mod 2 ^ i).
Proof.
  intros Hang. rewrite index2_pos.
  rewrite (@turn_of_cis ang (IZR (direction_value dir)) i (pos2 i j)
             (direction_cases dir) Hang).
  rewrite pos2_mod, rotation_angle, cpow_cis, plus_INR, pow_INR.
  change (INR 2) with 2%R.
  assert (Hpow : (2 ^ i <> 0)%R) by (apply Rgt_not_eq, pow2_pos).
  rewrite <- (cis_half_turn _ (direction_cases dir)).
  f_equal. rewrite Hang. field. exact Hpow.
Qed.

(** The butterfly of the second implementation, element by element. *)
Lemma butterfly2_length (i1 i2 : nat) (z1 z2 : C) (out : list C) :
  length (FFT2.butterfly2 i1 i2 z1 z2 out) = length out.
Proof. unfold FFT2.butterfly2. rewrite !length_set. reflexivity. Qed.

Lemma butterfly2_get (i1 i2 : nat) (z1 z2 : C) (out : list C) (p : nat) :
  i1 <> i2 -> (i1 < length out)%nat -> (i2 < length out)%nat ->
  G (FFT2.butterfly2 i1 i2 z1 z2 out) p
  = if p =? i2 then G out i1 + z2 * G out i2
    else if p =? i1 then G out i1 + z1 * G out i2
    else G out p.
Proof.
  intros Hne H1 H2. unfold FFT2.butterfly2. rewrite !get_set, !length_set.
  rewrite (Nat.eqb_sym i2 p), (Nat.eqb_sym i1 p).
  replace (i2 <? length out) with true by (symmetry; apply Nat.ltb_lt; lia).
  replace (i1 <? length out) with true by (symmetry; apply Nat.ltb_lt; lia).
  replace (i1 =? i2) with false by (symmetry; apply Nat.eqb_neq; lia).
  rewrite !andb_true_r. cbn [andb]. reflexivity.
Qed.

(** Pass [i] of the second implementation over [h] butterflies, with the
    rotation [w] of the pass. *)
Definition stage2 (h i : nat) (w : C) (out : list C) : list C :=
  fold_left
    (fun out j =>
       FFT2.butterfly2 (pos1 i j) (pos2 i j)
         (cpow w (j mod 2 ^ i)) (- cpow w (j mod 2 ^ i)) out)
    (seq 0 h) out.

Lemma pos_bounds (i nb j : nat) :
  (j < nb * 2 ^ i)%nat ->
  (pos1 i j < nb * (2 * 2 ^ i))%nat /\ (pos2 i j < nb * (2 * 2 ^ i))%nat.
Proof.
  intros Hj.
  assert (Hpos : (0 < 2 ^ i)%nat) by (apply Nat.neq_0_lt_0, Nat.pow_nonzero; lia).
  pose proof (Nat.mod_upper_bound j (2 ^ i) ltac:(lia)) as Hq.
  assert (Hb : (j / 2 ^ i < nb)%nat)
    by (apply Nat.Div0.div_lt_upper_bound; lia).
  unfold pos2, pos1. nia.
Qed.

(** Different butterflies of a pass touch different positions. *)
Lemma pos_apart (i j j' : nat) :
  j <> j' ->
  pos1 i j <> pos1 i j' /\ pos1 i j <> pos2 i j' /\
  pos2 i j <> pos1 i j' /\ pos2 i j <> pos2 i j'.
Proof.
  intros Hne.
  assert (Hpos : (0 < 2 ^ i)%nat) by (apply Nat.neq_0_lt_0, Nat.pow_nonzero; lia).
  pose proof (Nat.mod_upper_bound j (2 ^ i) ltac:(lia)) as Hq.
  pose proof (Nat.mod_upper_bound j' (2 ^ i) ltac:(lia)) as Hq'.
  pose proof (Nat.div_mod_eq j (2 ^ i)) as Hj.
  pose proof (Nat.div_mod_eq j' (2 ^ i)) as Hj'.
  unfold pos2, pos1.
  destruct (Nat.eq_dec (j mod 2 ^ i) (j' mod 2 ^ i)) as [Heq|Hdiff].
  - assert (Hb : j / 2 ^ i <> j' / 2 ^ i) by (intros Hb; rewrite Hb, Heq in Hj; lia).
    rewrite Heq.
    repeat split; intros Hp.
    + destruct (@position_inj (2 * 2 ^ i) (j' mod 2 ^ i) (j' mod 2 ^ i)
                  (j / 2 ^ i) (j' / 2 ^ i)); lia.
    + destruct (@position_inj (2 * 2 ^ i) (j' mod 2 ^ i) (j' mod 2 ^ i + 2 ^ i)
                  (j / 2 ^ i) (j' / 2 ^ i)); lia.
    + destruct (@position_inj (2 * 2 ^ i) (j' mod 2 ^ i + 2 ^ i) (j' mod 2 ^ i)
                  (j / 2 ^ i) (j' / 2 ^ i)); lia.
    + destruct (@position_inj (2 * 2 ^ i) (j' mod 2 ^ i + 2 ^ i)
                  (j' mod 2 ^ i + 2 ^ i) (j / 2 ^ i) (j' / 2 ^ i)); lia.
  - exact (@offsets_apart (2 ^ i) (j mod 2 ^ i) (j' mod 2 ^ i)
             (j / 2 ^ i) (j' / 2 ^ i) Hq Hq' Hdiff).
Qed.

(** After the first [J] butterflies of the pass, the two positions of each
    of them hold the sum and the difference, and the positions of the
    others are as they were. *)
Lemma stage2_prefix (i nb : nat) (w : C) (out : list C) :
  length out = (nb * (2 * 2 ^ i))%nat ->
  forall J, (J <= nb * 2 ^ i)%nat ->
  length (stage2 J i w out) = length out /\
  forall j, (j < nb * 2 ^ i)%nat ->
    G (stage2 J i w out) (pos1 i j)
    = (if j <? J
       then G out (pos1 i j) + cpow w (j mod 2 ^ i) * G out (pos2 i j)
       else G out (pos1 i j)) /\
    G (stage2 J i w out) (pos2 i j)
    = (if j <? J
       then G out (pos1 i j) - cpow w (j mod 2 ^ i) * G out (pos2 i j)
       else G out (pos2 i j)).
Proof.
  intros Hlen. induction J as [|J IH]; intros HJ.
  - split; [reflexivity|]. intros j Hj. split; reflexivity.
  - destruct (IH ltac:(lia)) as [IHlen IHget]. clear IH.
    unfold stage2 in *. rewrite seq_S, fold_left_app. cbn [fold_left Nat.add].
    set (prev := fold_left _ (seq 0 J) out) in *.
    destruct (@pos_bounds i nb J ltac:(lia)) as [HJ1 HJ2].
    assert (Hpos : (0 < 2 ^ i)%nat)
      by (apply Nat.neq_0_lt_0, Nat.pow_nonzero; lia).
    split; [rewrite butterfly2_length; exact IHlen|].
    intros j Hj.
    rewrite !butterfly2_get
      by (try (rewrite IHlen, Hlen; assumption); unfold pos2; lia).
    destruct (IHget J ltac:(lia)) as [HJa HJb].
    rewrite Nat.ltb_irrefl in HJa, HJb.
    destruct (Nat.eq_dec j J) as [->|Hne].
    + replace (J <? S J) with true by (symmetry; apply Nat.ltb_lt; lia).
      rewrite !Nat.eqb_refl.
      replace (pos1 i J =? pos2 i J) with false
        by (symmetry; apply Nat.eqb_neq; unfold pos2; lia).
      rewrite HJa, HJb. split; ring.
    + destruct (@pos_apart i j J Hne) as [H11 [H12 [H21 H22]]].
      replace (pos1 i j =? pos2 i J) with false
        by (symmetry; apply Nat.eqb_neq; exact H12).
      replace (pos1 i j =? pos1 i J) with false
        by (symmetry; apply Nat.eqb_neq; exact H11).
      replace (pos2 i j =? pos2 i J) with false
        by (symmetry; apply Nat.eqb_neq; exact H22).
      replace (pos2 i j =? pos1 i J) with false
        by (symmetry; apply Nat.eqb_neq; exact H21).
      replace (j <? S J) with (j <? J)
        by (destruct (Nat.ltb_spec j J), (Nat.ltb_spec j (S J)); try reflexivity; lia).
      apply IHget. exact Hj.
Qed.

(** The whole pass of the second implementation is the pass of the
    first. *)
Lemma stage2_stage (i nb : nat) (w : C) (out : list C) :
  length out = (nb * (2 * 2 ^ i))%nat ->
  stage2 (nb * 2 ^ i) i w out = stage (nb * (2 * 2 ^ i)) i w out.
Proof.
  intros Hlen.
  destruct (@stage2_prefix i nb w out Hlen (nb * 2 ^ i)%nat (Nat.le_refl _))
    as [Hlen2 Hget2].
  destruct (@stage_spec i nb w out Hlen) as [Hlen1 Hget1].
  assert (Hpos : (0 < 2 ^ i)%nat)
    by (apply Nat.neq_0_lt_0, Nat.pow_nonzero; lia).
  apply (buffer_ext czero); [congruence|].
  intros p Hp. rewrite Hlen2, Hlen in Hp.
  set (b := (p / (2 * 2 ^ i))%nat).
  set (r := (p mod (2 * 2 ^ i))%nat).
  assert (Hr : (r < 2 * 2 ^ i)%nat) by (apply Nat.mod_upper_bound; lia).
  assert (Hpdec : (p = r + b * (2 * 2 ^ i))%nat).
  { unfold r, b. pose proof (Nat.div_mod_eq p (2 * 2 ^ i)). lia. }
  assert (Hb : (b < nb)%nat).
  { unfold b. apply Nat.Div0.div_lt_upper_bound. lia. }
  set (q := (r mod 2 ^ i)%nat).
  assert (Hq : (q < 2 ^ i)%nat) by (apply Nat.mod_upper_bound; lia).
  set (j := (q + b * 2 ^ i)%nat).
  assert (Hj : (j < nb * 2 ^ i)%nat) by (unfold j; nia).
  assert (Hjq : (j mod 2 ^ i = q)%nat).
  { unfold j. rewrite Nat.Div0.mod_add. apply Nat.mod_small. exact Hq. }
  assert (Hjb : (j / 2 ^ i = b)%nat).
  { unfold j. rewrite Nat.div_add by lia. rewrite Nat.div_small by exact Hq.
    reflexivity. }
  assert (Hp1 : pos1 i j = (q + b * (2 * 2 ^ i))%nat).
  { unfold pos1. rewrite Hjq, Hjb. reflexivity. }
  destruct (Hget2 j Hj) as [Ha2 Hb2].
  destruct (Hget1 q b Hq Hb) as [Ha1 Hb1].
  replace (j <? nb * 2 ^ i) with true in Ha2, Hb2
    by (symmetry; apply Nat.ltb_lt; exact Hj).
  unfold pos2 in *. rewrite Hp1, Hjq in *.
  destruct (Nat.lt_ge_cases r (2 ^ i)) as [Hlow|Hhigh].
  - assert (q = r) by (unfold q; apply Nat.mod_small; exact Hlow).
    rewrite Hpdec. replace r with q by assumption.
    rewrite Ha2, Ha1. reflexivity.
  - assert (r = q + 2 ^ i)%nat.
    { unfold q.
      replace r with ((r - 2 ^ i) + 1 * 2 ^ i)%nat at 2 by lia.
      rewrite Nat.Div0.mod_add, Nat.mod_small by lia. lia. }
    rewrite Hpdec.
    replace (r + b * (2 * 2 ^ i))%nat with (q + b * (2 * 2 ^ i) + 2 ^ i)%nat
      by lia.
    rewrite Hb2, Hb1. reflexivity.
Qed.

End SecondStage.

(** Loops over a counter that runs through [a] blocks of [b] values. *)
Module BlockLoops.
Import LoopFacts.

Lemma fold_left_ext_in {St K : Type} (f g : St -> K -> St) (ks : list K) :
  (forall s k, In k ks -> f s k = g s k) ->
  forall s, fold_left f ks s = fold_left g ks s.
Proof.
  induction ks as [|k ks IH]; intros Hfg s; [reflexivity|].
  cbn [fold_left]. rewrite Hfg by (left; reflexivity).
  apply IH. intros s' k' Hin. apply Hfg. right. exact Hin.
Qed.

Lemma fold_left_shift {St : Type} (n : nat) :
  forall (f : St -> nat -> St) (start : nat) (s : St),
  fold_left f (seq start n) s
  = fold_left (fun s j => f s (start + j)) (seq 0 n) s.
Proof.
  induction n as [|n IH]; intros f start s; [reflexivity|].
  cbn [seq fold_left]. rewrite Nat.add_0_r.
  rewrite (IH f (S start)), (IH (fun s j => f s (start + j)) 1).
  apply fold_left_ext_in. intros s' k _. f_equal. lia.
Qed.

(** A loop over [a * b] values is [a] loops over [b] values. *)
Lemma fold_left_blocks {St : Type} (f : St -> nat -> St) (a b : nat) (s : St) :
  fold_left f (seq 0 (a * b)) s
  = fold_left
      (fun s i => fold_left (fun s j => f s (i * b + j)) (seq 0 b) s)
      (seq 0 a) s.
Proof.
  induction a as [|a IH]; [reflexivity|].
  replace (S a * b) with (a * b + b) by lia.
  rewrite seq_app, fold_left_app, IH, seq_S, fold_left_app.
  cbn [fold_left Nat.add]. apply fold_left_shift.
Qed.

(** Four arrays filled side by side. *)
Lemma fold_left_four {A B : Type} (f1 f2 : nat -> A) (g1 g2 : nat -> B)
    (ks : list nat) (a1 a2 : list A) (b1 b2 : list B) :
  fold_left
    (fun (st : list A * list A * list B * list B) k =>
       let '(a1, a2, b1, b2) := st in
       (set k (f1 k) a1, set k (f2 k) a2, set k (g1 k) b1, set k (g2 k) b2))
    ks (a1, a2, b1, b2)
  = (fold_left (fun l k => set k (f1 k) l) ks a1,
     fold_left (fun l k => set k (f2 k) l) ks a2,
     fold_left (fun l k => set k (g1 k) l) ks b1,
     fold_left (fun l k => set k (g2 k) l) ks b2).
Proof.
  revert a1 a2 b1 b2. induction ks as [|k ks IH]; intros a1 a2 b1 b2;
    [reflexivity|].
  cbn [fold_left]. apply IH.
Qed.

Lemma fill_whole {A : Type} (f : nat -> A) (out : list A) (n : nat) :
  length out = n ->
  fold_left (fun out i => set i (f i) out) (seq 0 n) out = map f (seq 0 n).
Proof.
  intros Hlen. rewrite fill_prefix by lia.
  rewrite skipn_all2 by lia. apply app_nil_r.
Qed.

Lemma block_index (b i j : nat) :
  j < b -> (i * b + j) / b = i /\ (i * b + j) mod b = j.
Proof.
  intros Hj. split.
  - rewrite Nat.add_comm, Nat.div_add by lia.
    rewrite Nat.div_small by exact Hj. reflexivity.
  - rewrite Nat.add_comm, Nat.Div0.mod_add. apply Nat.mod_small. exact Hj.
Qed.

End BlockLoops.

Module SecondTables.
Import Bits BitsFacts FFTFacts LoopFacts BlockLoops FFT Reversal.

Section WithT.
Context {T : Type} `{Floating T} `{Elementary T}.

(** The nested loops of the constructor fill the four arrays entry by
    entry: entry [k] belongs to pass [k / n_half] and counter
    [k mod n_half]. *)
Lemma constructor_tables (h L : nat) :
  for_loop L (below L) 1 0
    (fun i st => for_loop h (below h) 1 0 (FFT2.fill_pair h i) st)
    (repeat 0%Z (h * L), repeat 0%Z (h * L),
     repeat (czero : complex T) (h * L), repeat (czero : complex T) (h * L))
  = (map (fun k => FFT2.index1 (k / h) (k mod h)) (seq 0 (L * h)),
     map (fun k => FFT2.index2 (k / h) (k mod h)) (seq 0 (L * h)),
     map (fun k => FFT2.turn_of (fdiv fpi (of_int (FFT2.bm (k / h)))) (k / h)
                     (FFT2.index1 (k / h) (k mod h))) (seq 0 (L * h)),
     map (fun k => FFT2.turn_of (fdiv fpi (of_int (FFT2.bm (k / h)))) (k / h)
                     (FFT2.index2 (k / h) (k mod h))) (seq 0 (L * h))).
Proof.
  set (F := fun (st : FFT2.pair_tables) (k : nat) =>
              let '(a1, a2, b1, b2) := st in
              (set k (FFT2.index1 (k / h) (k mod h)) a1,
               set k (FFT2.index2 (k / h) (k mod h)) a2,
               set k (FFT2.turn_of (fdiv fpi (of_int (FFT2.bm (k / h)))) (k / h)
                        (FFT2.index1 (k / h) (k mod h))) b1,
               set k (FFT2.turn_of (fdiv fpi (of_int (FFT2.bm (k / h)))) (k / h)
                        (FFT2.index2 (k / h) (k mod h))) b2)).
  transitivity
    (fold_left F (seq 0 (L * h))
       (repeat 0%Z (h * L), repeat 0%Z (h * L),
        repeat (czero : complex T) (h * L), repeat (czero : complex T) (h * L))).
  - rewrite for_loop_count, (fold_left_blocks F L h).
    apply fold_left_ext_in. intros st i _. rewrite for_loop_count.
    apply fold_left_ext_in. intros st' j Hj. apply in_seq in Hj.
    destruct (@block_index h i j ltac:(lia)) as [Hd Hm].
    unfold F, FFT2.fill_pair. rewrite Hd, Hm.
    destruct st' as [[[a1 a2] b1] b2]. reflexivity.
  - unfold F.
    rewrite (@fold_left_four Z (complex T)
               (fun k => FFT2.index1 (k / h) (k mod h))
               (fun k => FFT2.index2 (k / h) (k mod h))
               (fun k => FFT2.turn_of (fdiv fpi (of_int (FFT2.bm (k / h))))
                           (k / h) (FFT2.index1 (k / h) (k mod h)))
               (fun k => FFT2.turn_of (fdiv fpi (of_int (FFT2.bm (k / h))))
                           (k / h) (FFT2.index2 (k / h) (k mod h)))).
    rewrite !fill_whole by (rewrite repeat_length; lia).
    reflexivity.
Qed.

(** The calculator the constructor of [FFTCalculator2] builds for [2^n]
    elements, [1 <= n <= 27]. *)
Lemma new_FFTCalculator2_tables (n : nat) :
  1 <= n <= 27 ->
  exists c : FFT2.FFTCalculator2 T,
    FFT2.new_FFTCalculator2 (2 ^ Z.of_nat n) = Some c /\
    FFT2.N c = 2 ^ n /\ FFT2.log_n c = Z.of_nat n /\
    FFT2.n_half c = 2 ^ (n - 1) /\
    FFT2.nrm c = fdiv fone (fsqrt (of_int (2 ^ Z.of_nat n))) /\
    FFT2.butterfly_indices c
    = map (fun i => reversed I32 (Z.of_nat i) (Z.of_nat n)) (seq 0 (2 ^ n)) /\
    FFT2.indices1 c
    = map (fun k => FFT2.index1 (k / 2 ^ (n - 1)) (k mod 2 ^ (n - 1)))
          (seq 0 (n * 2 ^ (n - 1))) /\
    FFT2.indices2 c
    = map (fun k => FFT2.index2 (k / 2 ^ (n - 1)) (k mod 2 ^ (n - 1)))
          (seq 0 (n * 2 ^ (n - 1))) /\
    FFT2.zs1 c
    = map (fun k => FFT2.turn_of
                      (fdiv fpi (of_int (FFT2.bm (k / 2 ^ (n - 1)))))
                      (k / 2 ^ (n - 1))
                      (FFT2.index1 (k / 2 ^ (n - 1)) (k mod 2 ^ (n - 1))))
          (seq 0 (n * 2 ^ (n - 1))) /\
    FFT2.zs2 c
    = map (fun k => FFT2.turn_of
                      (fdiv fpi (of_int (FFT2.bm (k / 2 ^ (n - 1)))))
                      (k / 2 ^ (n - 1))
                      (FFT2.index2 (k / 2 ^ (n - 1)) (k mod 2 ^ (n - 1))))
          (seq 0 (n * 2 ^ (n - 1))).
Proof.
  intros Hn. unfold FFT2.new_FFTCalculator2.
  destruct (log2OfPowerOf2_pow2 (n:=Z.of_nat n)) as [Hp Hl]; [lia|].
  rewrite Hp, Hl.
  assert (Hhalf : (2 ^ Z.of_nat n / 2 = 2 ^ Z.of_nat (n - 1))%Z).
  { replace (Z.of_nat n) with (Z.of_nat (n - 1) + 1)%Z at 1 by lia.
    rewrite Z.pow_add_r by lia. apply Z.div_mul. lia. }
  rewrite Hhalf.
  assert (Hsmall : (2 ^ Z.of_nat (n - 1) * Z.of_nat n <? 2 ^ 31)%Z = true).
  { apply Z.ltb_lt.
    assert (2 ^ Z.of_nat (n - 1) <= 2 ^ 26)%Z by (apply Z.pow_le_mono_r; lia).
    assert (0 < 2 ^ Z.of_nat (n - 1))%Z by (apply Z.pow_pos_nonneg; lia).
    change (2 ^ 26)%Z with 67108864%Z in *.
    change (2 ^ 31)%Z with 2147483648%Z. nia. }
  rewrite Hsmall.
  rewrite (for_loop_opt_below _
             (fun i indices =>
                set i (reversed I32 (Z.of_nat i) (Z.of_nat n)) indices)).
  2:{ intros i s Hi. rewrite bitReverse_eq by lia. reflexivity. }
  rewrite !Z_to_nat_pow2, Nat2Z.id.
  rewrite constructor_tables.
  eexists. split; [reflexivity|]. cbn.
  repeat split; try reflexivity.
  apply fill_all. apply repeat_length.
Qed.

End WithT.

End SecondTables.

Module SecondTransform.
Import ComplexRing Roots StageFacts Reversal LoopFacts BlockLoops FFT Fourier.
Import RoundTrip FourierMore Spectra SecondIndices SecondStage SecondTables.
Import Bits BitsFacts FFTFacts.
Local Open Scope cplx_scope.

Lemma fold_left_ext_inv {St K : Type} (P : St -> Prop) (f g : St -> K -> St)
    (ks : list K) :
  (forall s k, In k ks -> P s -> f s k = g s k /\ P (g s k)) ->
  forall s, P s -> fold_left f ks s = fold_left g ks s.
Proof.
  induction ks as [|k ks IH]; intros Hfg s Hs; [reflexivity|].
  cbn [fold_left].
  destruct (Hfg s k (or_introl eq_refl) Hs) as [Heq HP].
  rewrite Heq. apply IH; [|exact HP].
  intros s' k' Hin. apply Hfg. right. exact Hin.
Qed.

Lemma half_pow2 (L : nat) : (1 <= L)%nat -> (2 ^ L = 2 * 2 ^ (L - 1))%nat.
Proof.
  intros HL. replace L with (S (L - 1)) at 1 by lia. reflexivity.
Qed.

(** The passes of the second implementation, butterfly by butterfly in
    the order of the counter [j], compute the transform. *)
Lemma nested_passes (dir : FFTDirection) (nrm : R) (x : list C) (L : nat)
    (body : nat -> nat -> list C -> list C) :
  (1 <= L)%nat -> length x = (2 ^ L)%nat ->
  (forall i j out, (i < L)%nat -> (j < 2 ^ (L - 1))%nat ->
     body i j out
     = FFT2.butterfly2 (pos1 i j) (pos2 i j)
         (cpow (rotation dir i) (j mod 2 ^ i))
         (- cpow (rotation dir i) (j mod 2 ^ i)) out) ->
  fold_left
    (fun out i => fold_left (fun out j => body i j out) (seq 0 (2 ^ (L - 1))) out)
    (seq 0 L) (permuted nrm x L)
  = dft (omega dir L) nrm x.
Proof.
  intros HL Hx Hbody.
  rewrite <- (@passes_dft dir nrm x L (rotation dir)
                (fun s _ => eq_refl) Hx).
  unfold after_passes.
  apply (fold_left_ext_inv (fun out => length out = (2 ^ L)%nat)).
  2:{ unfold permuted. rewrite length_map, length_seq. reflexivity. }
  intros out i Hi Hlen. apply in_seq in Hi.
  assert (Hsplit : (2 ^ L = 2 ^ (L - S i) * (2 * 2 ^ i))%nat)
    by (apply pow2_split; lia).
  assert (Hhalf : (2 ^ (L - 1) = 2 ^ (L - S i) * 2 ^ i)%nat).
  { pose proof (half_pow2 HL). lia. }
  rewrite (@fold_left_ext_in _ _ _
             (fun out j =>
                FFT2.butterfly2 (pos1 i j) (pos2 i j)
                  (cpow (rotation dir i) (j mod 2 ^ i))
                  (- cpow (rotation dir i) (j mod 2 ^ i)) out)).
  2:{ intros out' j Hj. apply in_seq in Hj. apply Hbody; lia. }
  fold (stage2 (2 ^ (L - 1)) i (rotation dir i) out).
  rewrite Hhalf, Hsplit.
  rewrite Hsplit in Hlen.
  rewrite (@stage2_stage i (2 ^ (L - S i)) (rotation dir i) out Hlen).
  split; [reflexivity|].
  destruct (@stage_spec i (2 ^ (L - S i)) (rotation dir i) out Hlen) as [Hl _].
  rewrite Hl. exact Hlen.
Qed.

(** The same passes with one counter through all the butterflies. *)
Lemma flat_passes (dir : FFTDirection) (nrm : R) (x : list C) (L : nat)
    (body : nat -> list C -> list C) :
  (1 <= L)%nat -> length x = (2 ^ L)%nat ->
  (forall i j out, (i < L)%nat -> (j < 2 ^ (L - 1))%nat ->
     body (i * 2 ^ (L - 1) + j)%nat out
     = FFT2.butterfly2 (pos1 i j) (pos2 i j)
         (cpow (rotation dir i) (j mod 2 ^ i))
         (- cpow (rotation dir i) (j mod 2 ^ i)) out) ->
  fold_left (fun out k => body k out) (seq 0 (L * 2 ^ (L - 1)))
    (permuted nrm x L)
  = dft (omega dir L) nrm x.
Proof.
  intros HL Hx Hbody.
  rewrite (fold_left_blocks (fun out k => body k out) L (2 ^ (L - 1))).
  apply (@nested_passes dir nrm x L
           (fun i j out => body (i * 2 ^ (L - 1) + j)%nat out));
    assumption.
Qed.

(** The buffer after the first loop of the transforms. *)
Lemma first_loop_permuted (L : nat) (x out : list C) :
  (1 <= L <= 30)%nat -> length out = (2 ^ L)%nat ->
  for_loop (2 ^ L) (below (2 ^ L)) 1 0
    (fun i out =>
       set i (cscale (normalization (2 ^ L))
                (G x (Z.to_nat
                        (get 0%Z
                           (map (fun i => reversed I32 (Z.of_nat i) (Z.of_nat L))
                              (seq 0 (2 ^ L))) i)))) out) out
  = permuted (normalization (2 ^ L)) x L.
Proof.
  intros HL Hout. rewrite (fill_all _ out Hout). unfold permuted.
  apply map_ext_in. intros i Hi. apply in_seq in Hi.
  rewrite get_map_seq_any by lia.
  rewrite reversed_revbits, Nat2Z.id by lia. reflexivity.
Qed.

Lemma forward_angle (i : nat) :
  fdiv fpi (of_int (FFT2.bm i))
  = (IZR (direction_value Forward) * PI / 2 ^ i)%R.
Proof.
  cbn [fdiv fpi of_int Exact.exact Exact.exact_elementary direction_value].
  rewrite IZR_bm. unfold Rdiv. ring.
Qed.

(** The members of [FFTCalculator2] compute the transform: [turn] is the
    identity for the direction [Forward] and the conjugation for
    [Backward]. *)
Lemma transform2_dft (L : nat) (c : FFT2.FFTCalculator2 R) (x out : list C)
    (turn : C -> C) (dir : FFTDirection) :
  (1 <= L <= 30)%nat ->
  FFT2.N c = (2 ^ L)%nat -> FFT2.log_n c = Z.of_nat L ->
  FFT2.n_half c = (2 ^ (L - 1))%nat ->
  FFT2.nrm c = normalization (2 ^ L) ->
  FFT2.butterfly_indices c
  = map (fun i => reversed I32 (Z.of_nat i) (Z.of_nat L)) (seq 0 (2 ^ L)) ->
  FFT2.indices1 c
  = map (fun k => FFT2.index1 (k / 2 ^ (L - 1)) (k mod 2 ^ (L - 1)))
        (seq 0 (L * 2 ^ (L - 1))) ->
  FFT2.indices2 c
  = map (fun k => FFT2.index2 (k / 2 ^ (L - 1)) (k mod 2 ^ (L - 1)))
        (seq 0 (L * 2 ^ (L - 1))) ->
  FFT2.zs1 c
  = map (fun k => FFT2.turn_of
                    (fdiv fpi (of_int (FFT2.bm (k / 2 ^ (L - 1)))))
                    (k / 2 ^ (L - 1))
                    (FFT2.index1 (k / 2 ^ (L - 1)) (k mod 2 ^ (L - 1))))
        (seq 0 (L * 2 ^ (L - 1))) ->
  FFT2.zs2 c
  = map (fun k => FFT2.turn_of
                    (fdiv fpi (of_int (FFT2.bm (k / 2 ^ (L - 1)))))
                    (k / 2 ^ (L - 1))
                    (FFT2.index2 (k / 2 ^ (L - 1)) (k mod 2 ^ (L - 1))))
        (seq 0 (L * 2 ^ (L - 1))) ->
  (forall i q, turn (cpow (rotation Forward i) q) = cpow (rotation dir i) q) ->
  (forall a, turn (- a) = - turn a) ->
  length x = (2 ^ L)%nat -> length out = (2 ^ L)%nat ->
  FFT2.transform2 c czero cscale turn x out
  = dft (omega dir L) (normalization (2 ^ L)) x.
Proof.
  intros HL HN Hlog Hhalf Hnrm Hidx H1 H2 Hz1 Hz2 Hturn Hneg Hx Hout.
  unfold FFT2.transform2.
  rewrite HN, Hlog, Hhalf, Hnrm, Nat2Z.id, Hidx, H1, H2, Hz1, Hz2.
  rewrite first_loop_permuted by assumption.
  rewrite for_loop_count.
  apply (@flat_passes dir (normalization (2 ^ L)) x L
           (fun k out =>
              FFT2.butterfly2
                (Z.to_nat
                   (get 0%Z
                      (map (fun k => FFT2.index1 (k / 2 ^ (L - 1))
                                       (k mod 2 ^ (L - 1)))
                         (seq 0 (L * 2 ^ (L - 1)))) k))
                (Z.to_nat
                   (get 0%Z
                      (map (fun k => FFT2.index2 (k / 2 ^ (L - 1))
                                       (k mod 2 ^ (L - 1)))
                         (seq 0 (L * 2 ^ (L - 1)))) k))
                (turn
                   (get czero
                      (map (fun k => FFT2.turn_of
                                       (fdiv fpi
                                          (of_int (FFT2.bm (k / 2 ^ (L - 1)))))
                                       (k / 2 ^ (L - 1))
                                       (FFT2.index1 (k / 2 ^ (L - 1))
                                          (k mod 2 ^ (L - 1))))
                         (seq 0 (L * 2 ^ (L - 1)))) k))
                (turn
                   (get czero
                      (map (fun k => FFT2.turn_of
                                       (fdiv fpi
                                          (of_int (FFT2.bm (k / 2 ^ (L - 1)))))
                                       (k / 2 ^ (L - 1))
                                       (FFT2.index2 (k / 2 ^ (L - 1))
                                          (k mod 2 ^ (L - 1))))
                         (seq 0 (L * 2 ^ (L - 1)))) k))
                out)); try lia; try assumption.
  intros i j out' Hi Hj.
  assert (Hk : (i * 2 ^ (L - 1) + j < L * 2 ^ (L - 1))%nat) by nia.
  rewrite !get_map_seq_any by exact Hk.
  destruct (@block_index (2 ^ (L - 1)) i j Hj) as [-> ->].
  rewrite (@turn_of_index1 Forward _ i j (forward_angle i)).
  rewrite (@turn_of_index2 Forward _ i j (forward_angle i)).
  rewrite index1_pos, index2_pos, !Nat2Z.id, Hneg, Hturn. reflexivity.
Qed.

End SecondTransform.

(** The second implementation computes what the first computes. *)
Module SecondAgrees.
Import ComplexRing Roots StageFacts Reversal LoopFacts BlockLoops FFT Fourier.
Import RoundTrip FourierMore Spectra Signals.
Import SecondIndices SecondStage SecondTables SecondTransform.
Import Bits BitsFacts FFTFacts.
Local Open Scope cplx_scope.

Lemma cconj_opp (a : C) : cconj (- a) = - cconj a.
Proof. apply complex_eq; cbn; ring. Qed.

Lemma calc2_fft_of_real_complex (c : FFT2.FFTCalculator2 R) (signal : list R)
    (out : list C) :
  length out = FFT2.N c ->
  FFT2.calc2_fft_of_real c signal out
  = FFT2.calc2_fft c (map of_real signal) out.
Proof.
  intros Hout. unfold FFT2.calc2_fft_of_real, FFT2.calc2_fft, FFT2.transform2.
  rewrite !(fill_all _ out Hout). f_equal.
  apply map_ext. intros i. rewrite get_of_real.
  apply complex_eq; cbn; ring.
Qed.

(** The calculator of the second implementation for [2^n] elements, with
    what its four transforms compute. *)
Lemma second_calculator (n : nat) :
  (1 <= n <= 27)%nat ->
  exists c : FFT2.FFTCalculator2 R,
    FFT2.new_FFTCalculator2 (2 ^ Z.of_nat n) = Some c /\
    FFT2.N c = (2 ^ n)%nat /\
    (forall x out : list C,
        length x = (2 ^ n)%nat -> length out = (2 ^ n)%nat ->
        FFT2.calc2_fft c x out
        = dft (omega Forward n) (normalization (2 ^ n)) x /\
        FFT2.calc2_ifft c x out
        = dft (omega Backward n) (normalization (2 ^ n)) x) /\
    (forall (signal : list R) (out : list C),
        length signal = (2 ^ n)%nat -> length out = (2 ^ n)%nat ->
        FFT2.calc2_fft_of_real c signal out
        = dft (omega Forward n) (normalization (2 ^ n)) (map of_real signal)) /\
    (forall (y : list C) (out : list R),
        length y = (2 ^ n)%nat -> length out = (2 ^ n)%nat ->
        FFT2.calc2_ifft_real c y out
        = map (fun i => real (G (dft (omega Backward n)
                                   (normalization (2 ^ n)) y) i))
              (seq 0 (2 ^ n))).
Proof.
  intros Hn.
  destruct (new_FFTCalculator2_tables (T:=R) (n:=n) Hn)
    as [c [Hc [HN [Hlog [Hhalf [Hnrm [Hidx [H1 [H2 [Hz1 Hz2]]]]]]]]]].
  exists c. split; [exact Hc|]. split; [exact HN|].
  assert (Hnrm' : FFT2.nrm c = normalization (2 ^ n)).
  { rewrite Hnrm. unfold normalization. rewrite Z_of_nat_pow2. reflexivity. }
  assert (Hfwd : forall x out : list C,
             length x = (2 ^ n)%nat -> length out = (2 ^ n)%nat ->
             FFT2.calc2_fft c x out
             = dft (omega Forward n) (normalization (2 ^ n)) x).
  { intros x out Hx Hout. unfold FFT2.calc2_fft.
    apply (@transform2_dft n c x out (fun w => w) Forward);
      try assumption; try lia; reflexivity. }
  assert (Hbwd : forall x out : list C,
             length x = (2 ^ n)%nat -> length out = (2 ^ n)%nat ->
             FFT2.calc2_ifft c x out
             = dft (omega Backward n) (normalization (2 ^ n)) x).
  { intros x out Hx Hout. unfold FFT2.calc2_ifft.
    apply (@transform2_dft n c x out cconj Backward);
      try assumption; try lia.
    - intros i q. rewrite cconj_cpow, <- rotation_conj. reflexivity.
    - exact cconj_opp. }
  split; [intros x out Hx Hout; split; [apply Hfwd|apply Hbwd]; assumption|].
  split.
  - intros signal out Hs Hout.
    rewrite calc2_fft_of_real_complex by (rewrite HN; exact Hout).
    apply Hfwd; [rewrite length_map; exact Hs|exact Hout].
  - intros y out Hy Hout. unfold FFT2.calc2_ifft_real.
    rewrite HN, (fill_all _ out Hout).
    apply map_ext. intros i.
    change (FFT2.transform2 c czero cscale cconj y (repeat czero (2 ^ n)))
      with (FFT2.calc2_ifft c y (repeat czero (2 ^ n))).
    rewrite Hbwd by (try assumption; apply repeat_length). reflexivity.
Qed.

(** X20.  [FFTCalculator2] computes what [FFTCalculator] computes.  For
    [N = 2^n] with [1 <= n <= 27] both constructors return, and in exact
    arithmetic the four transforms of the one ([fft] of a complex and of a
    real signal, [ifft], [ifft_real]) equal those of the other on every
    input of [N] samples: going through the butterflies of a pass by one
    counter, with the positions [((j >> i) << (i + 1)) + j % bm] and
    [i1 ^ bm] and the rotations [polar(1, ang * (i1 ^ bw))] and
    [polar(1, ang * (i2 ^ bw))], gives the same sums and differences. *)
Theorem second_calculator_agrees :
  forall n : nat,
    (1 <= n <= 27)%nat ->
    exists (c : FFTCalculator R) (c2 : FFT2.FFTCalculator2 R),
      new_FFTCalculator (2 ^ Z.of_nat n) = Some c /\
      FFT2.new_FFTCalculator2 (2 ^ Z.of_nat n) = Some c2 /\
      forall (x out out2 : list C) (signal table table2 : list R),
        length x = (2 ^ n)%nat -> length out = (2 ^ n)%nat ->
        length out2 = (2 ^ n)%nat -> length signal = (2 ^ n)%nat ->
        length table = (2 ^ n)%nat -> length table2 = (2 ^ n)%nat ->
        FFT2.calc2_fft c2 x out2 = calc_fft c x out /\
        FFT2.calc2_fft_of_real c2 signal out2 = calc_fft_of_real c signal out /\
        FFT2.calc2_ifft c2 x out2 = calc_ifft c x out /\
        FFT2.calc2_ifft_real c2 x table2 = calc_ifft_real c x table.
Proof.
  intros n Hn.
  destruct (@real_calculator n ltac:(lia)) as [c [Hc [_ [Hdft [Hreal Hinv]]]]].
  destruct (second_calculator Hn) as [c2 [Hc2 [_ [Hdft2 [Hreal2 Hinv2]]]]].
  exists c, c2. split; [exact Hc|]. split; [exact Hc2|].
  intros x out out2 signal table table2 Hx Hout Hout2 Hs Ht Ht2.
  destruct (Hdft x out Hx Hout) as [-> ->].
  destruct (Hdft2 x out2 Hx Hout2) as [-> ->].
  rewrite Hreal, Hreal2, Hinv, Hinv2 by assumption.
  repeat split; reflexivity.
Qed.

Lemma second_calculator_agrees_witness :
  exists (c : FFTCalculator R) (c2 : FFT2.FFTCalculator2 R),
    new_FFTCalculator (2 ^ Z.of_nat 3) = Some c /\
    FFT2.new_FFTCalculator2 (2 ^ Z.of_nat 3) = Some c2 /\
    forall (x out out2 : list C) (signal table table2 : list R),
      length x = (2 ^ 3)%nat -> length out = (2 ^ 3)%nat ->
      length out2 = (2 ^ 3)%nat -> length signal = (2 ^ 3)%nat ->
      length table = (2 ^ 3)%nat -> length table2 = (2 ^ 3)%nat ->
      FFT2.calc2_fft c2 x out2 = calc_fft c x out /\
      FFT2.calc2_fft_of_real c2 signal out2 = calc_fft_of_real c signal out /\
      FFT2.calc2_ifft c2 x out2 = calc_ifft c x out /\
      FFT2.calc2_ifft_real c2 x table2 = calc_ifft_real c x table.
Proof. apply (@second_calculator_agrees 3). lia. Defined.

Lemma half_size (L : nat) : (1 <= L)%nat -> (2 ^ L / 2 = 2 ^ (L - 1))%nat.
Proof.
  intros HL. rewrite (half_pow2 HL).
  rewrite Nat.mul_comm, Nat.div_mul by lia. reflexivity.
Qed.

(** [detail::fft2] on [2^L] elements, [1 <= L <= 30]: the assertions hold
    and the result is the transform with the root of the direction. *)
Lemma detail_fft2_dft (L : nat) (x out : list C) (dir : FFTDirection) :
  (1 <= L <= 30)%nat -> length x = (2 ^ L)%nat -> length out = (2 ^ L)%nat ->
  FFT2.detail_fft2 x out dir
  = Some (dft (omega dir L) (normalization (2 ^ L)) x).
Proof.
  intros HL Hx Hout. unfold FFT2.detail_fft2. rewrite Hx.
  rewrite half_size by lia.
  rewrite <- Z_of_nat_pow2.
  destruct (@log2OfPowerOf2_pow2 (Z.of_nat L) ltac:(lia)) as [Hp Hlog].
  rewrite Hp, wrap_small, Hlog.
  2:{ split; [apply Z.pow_nonneg; lia|].
      apply Z.pow_lt_mono_r; lia. }
  rewrite (for_loop_opt_below _
             (fun i out =>
                set i (cscale (normalization (2 ^ L)) (G x (revbits L i))) out)).
  2:{ intros i s Hi. rewrite bitReverse_revbits, Nat2Z.id by lia.
      unfold normalization. rewrite <- Z_of_nat_pow2. reflexivity. }
  f_equal. rewrite Nat2Z.id, for_loop_count.
  rewrite (fill_all (fun i => cscale (normalization (2 ^ L))
                                (G x (revbits L i)))) by exact Hout.
  rewrite (@fold_left_ext_in _ _ _
             (fun out i =>
                fold_left
                  (fun out j =>
                     FFT2.butterfly2 (Z.to_nat (FFT2.index1 i j))
                       (Z.to_nat (FFT2.index2 i j))
                       (FFT2.turn_of
                          (fdiv (fmul (of_int (direction_value dir)) fpi)
                                (of_int (FFT2.bm i))) i (FFT2.index1 i j))
                       (FFT2.turn_of
                          (fdiv (fmul (of_int (direction_value dir)) fpi)
                                (of_int (FFT2.bm i))) i (FFT2.index2 i j))
                       out)
                  (seq 0 (2 ^ (L - 1))) out)).
  2:{ intros out' i _. rewrite for_loop_count. reflexivity. }
  apply (@nested_passes dir (normalization (2 ^ L)) x L
           (fun i j out =>
              FFT2.butterfly2 (Z.to_nat (FFT2.index1 i j))
                (Z.to_nat (FFT2.index2 i j))
                (FFT2.turn_of
                   (fdiv (fmul (of_int (direction_value dir)) fpi)
                         (of_int (FFT2.bm i))) i (FFT2.index1 i j))
                (FFT2.turn_of
                   (fdiv (fmul (of_int (direction_value dir)) fpi)
                         (of_int (FFT2.bm i))) i (FFT2.index2 i j))
                out)); try lia; try assumption.
  intros i j out' Hi Hj.
  assert (Hang : fdiv (fmul (of_int (direction_value dir)) fpi)
                      (of_int (FFT2.bm i))
                 = (IZR (direction_value dir) * PI / 2 ^ i)%R).
  { cbn [fdiv fmul fpi of_int Exact.exact Exact.exact_elementary].
    rewrite IZR_bm. reflexivity. }
  rewrite (@turn_of_index1 dir _ i j Hang), (@turn_of_index2 dir _ i j Hang).
  rewrite index1_pos, index2_pos, !Nat2Z.id. reflexivity.
Qed.

(** X21.  [detail::fft2] computes what [detail::fft] computes: on
    [N = 2^n] samples with [1 <= n <= 30] both return, and in exact
    arithmetic with the same result, in either direction. *)
Theorem detail_fft2_agrees :
  forall (n : nat) (x out out2 : list C) (dir : FFTDirection),
    (1 <= n <= 30)%nat -> length x = (2 ^ n)%nat ->
    length out = (2 ^ n)%nat -> length out2 = (2 ^ n)%nat ->
    exists y,
      detail_fft x out dir = Some y /\
      FFT2.detail_fft2 x out2 dir = Some y.
Proof.
  intros n x out out2 dir Hn Hx Hout Hout2.
  exists (dft (omega dir n) (normalization (2 ^ n)) x).
  split; [apply detail_fft_dft|apply detail_fft2_dft]; assumption.
Qed.

Lemma detail_fft2_agrees_witness :
  exists y,
    detail_fft [(cone : C); czero; cone; cone] (repeat czero 4) Backward
    = Some y /\
    FFT2.detail_fft2 [(cone : C); czero; cone; cone] (repeat czero 4) Backward
    = Some y.
Proof.
  apply (@detail_fft2_agrees 2 [(cone : C); czero; cone; cone]
           (repeat czero 4) (repeat czero 4) Backward).
  - lia.
  - reflexivity.
  - reflexivity.
  - reflexivity.
Defined.

End SecondAgrees.

(** The transforms as inverses of each other in the other order, and the
    energy of the tables of [antialiase]. *)
Module Energy.
Import ComplexRing Roots StageFacts LoopFacts FFT Fourier RoundTrip.
Import FourierMore Spectra Signals Antialiase AntialiaseFacts BandLimit Tables.
Local Open Scope cplx_scope.

(** X22.  The forward transform undoes the inverse transform: for a
    spectrum [y] of [N = 2^n] bins with [1 <= n <= 30], in exact
    arithmetic, [ifft] returns, [fft] of its result returns, and that
    result is [y]; the same holds for the members of the calculator.
    Together with the round trip in the other order, each of the two
    transforms is a bijection on the buffers of [N] elements. *)
Theorem inverse_then_forward :
  forall (n : nat) (y : list C),
    (1 <= n <= 30)%nat -> length y = (2 ^ n)%nat ->
    (forall out out' : list C,
        length out = (2 ^ n)%nat -> length out' = (2 ^ n)%nat ->
        exists x, ifft y out = Some x /\ fft x out' = Some y) /\
    (exists c : FFTCalculator R,
        new_FFTCalculator (2 ^ Z.of_nat n) = Some c /\
        forall out out' : list C,
          length out = (2 ^ n)%nat -> length out' = (2 ^ n)%nat ->
          calc_fft c (calc_ifft c y out) out' = y).
Proof.
  intros n y Hn Hy. split.
  - intros out out' Hout Hout'.
    exists (dft (omega Backward n) (normalization (2 ^ n)) y).
    unfold fft, ifft. split.
    + apply detail_fft_dft; assumption.
    + rewrite (@detail_fft_dft n) by (rewrite ?dft_length; assumption).
      f_equal. apply dft_round_trip_back; [lia|exact Hy].
  - destruct (@real_calculator n Hn) as [c [Hc [_ [Hdft _]]]].
    exists c. split; [exact Hc|].
    intros out out' Hout Hout'.
    rewrite (proj2 (Hdft y out Hy Hout)).
    rewrite (proj1 (Hdft _ out' ltac:(rewrite dft_length; exact Hy) Hout')).
    apply dft_round_trip_back; [lia|exact Hy].
Qed.

Lemma inverse_then_forward_witness :
  (forall out out' : list C,
      length out = (2 ^ 2)%nat -> length out' = (2 ^ 2)%nat ->
      exists x,
        ifft [(cone : C); czero; cone; czero] out = Some x /\
        fft x out' = Some [(cone : C); czero; cone; czero]) /\
  (exists c : FFTCalculator R,
      new_FFTCalculator (2 ^ Z.of_nat 2) = Some c /\
      forall out out' : list C,
        length out = (2 ^ 2)%nat -> length out' = (2 ^ 2)%nat ->
        calc_fft c (calc_ifft c [(cone : C); czero; cone; czero] out) out'
        = [(cone : C); czero; cone; czero]).
Proof.
  apply (@inverse_then_forward 2 [(cone : C); czero; cone; czero]).
  - lia.
  - reflexivity.
Defined.

(** The sum of the squares of a real signal. *)
Definition sum_squares (l : list R) : R :=
  fold_right Rplus 0%R (map (fun v => (v * v)%R) l).

Lemma energy_of_real (l : list R) : energy (map of_real l) = sum_squares l.
Proof.
  unfold energy, sum_squares. induction l as [|v l IH]; [reflexivity|].
  cbn [map fold_right]. rewrite IH. unfold norm2. cbn. ring.
Qed.

Lemma energy_pointwise (x y : list C) :
  length x = length y ->
  (forall i, (norm2 (G x i) <= norm2 (G y i))%R) ->
  (energy x <= energy y)%R.
Proof.
  revert y. induction x as [|a x IH]; intros [|b y] Hlen Hle;
    try discriminate; [unfold energy; cbn; lra|].
  unfold energy in *. cbn [map fold_right].
  pose proof (Hle 0%nat) as H0. cbn in H0.
  assert (Hrest : (fold_right Rplus 0 (map norm2 x)
                   <= fold_right Rplus 0 (map norm2 y))%R).
  { apply IH; [cbn in Hlen; lia|]. intros i. exact (Hle (S i)). }
  lra.
Qed.

(** The transform keeps the energy. *)
Lemma dft_keeps_energy (dir : FFTDirection) (n : nat) (x : list C) :
  (1 <= n)%nat -> length x = (2 ^ n)%nat ->
  energy (dft (omega dir n) (normalization (2 ^ n)) x) = energy x.
Proof.
  intros Hn Hx.
  assert (Heq : of_real (energy (dft (omega dir n) (normalization (2 ^ n)) x))
                = of_real (energy x)).
  { rewrite <- !energy_csum, dft_length, Hx.
    apply dft_energy; try assumption. apply normalization_pow2. }
  apply (f_equal real) in Heq. exact Heq.
Qed.

Lemma norm2_nonneg (a : C) : (0 <= norm2 a)%R.
Proof. unfold norm2. nra. Qed.

(** [antialiase_dft] takes energy away, bin by bin. *)
Lemma antialiase_dft_energy (y : list C) (sr f : R) :
  (energy (antialiase_dft y sr f) <= energy y)%R.
Proof.
  apply energy_pointwise; [apply antialiase_dft_length|].
  intros i.
  destruct (Nat.lt_ge_cases (length y / 2) (cutoff_index sr f)) as [Hlt|Hge].
  - rewrite antialiase_dft_identity by exact Hlt. lra.
  - destruct (antialiase_dft_truncates y sr f Hge) as [_ Hget].
    rewrite Hget.
    destruct ((cutoff_index sr f <=? i)
              && (i <? length y - cutoff_index sr f + 1))%nat.
    + pose proof (norm2_nonneg (G y i)). unfold norm2 at 1. cbn. lra.
    + destruct (i =? 0)%nat eqn:Hi; [|lra].
      apply Nat.eqb_eq in Hi. subst i.
      unfold norm2. cbn. nra.
Qed.

(** The spectrum of a table of [antialiase], at the level of the
    transform. *)
Lemma table_spectrum (n : nat) (signal : list R) (sr f : R) :
  (1 <= n)%nat -> length signal = (2 ^ n)%nat ->
  dft (omega Forward n) (normalization (2 ^ n))
    (map of_real
       (map (fun i =>
               real (G (dft (omega Backward n) (normalization (2 ^ n))
                          (antialiase_dft
                             (dft (omega Forward n) (normalization (2 ^ n))
                                (map of_real signal)) sr f)) i))
            (seq 0 (2 ^ n))))
  = antialiase_dft
      (dft (omega Forward n) (normalization (2 ^ n)) (map of_real signal))
      sr f.
Proof.
  intros Hn Hs.
  set (F := dft (omega Forward n) (normalization (2 ^ n)) (map of_real signal)).
  assert (HF : length F = (2 ^ n)%nat)
    by (unfold F; rewrite dft_length, length_map; exact Hs).
  apply hermitian_table_spectrum; [exact Hn| |].
  - rewrite antialiase_dft_length. exact HF.
  - rewrite <- HF. apply antialiase_dft_hermitian.
    rewrite HF. apply real_spectrum_hermitian; assumption.
Qed.

(** X23.  Band-limiting never adds energy.  With the calculator for
    [N = 2^n] samples ([1 <= n <= 30]), a real signal of [N] samples and
    output buffers of [N] samples, the sum of the squares of the samples of
    every table [antialiase] writes is at most the sum of the squares of
    the samples of the signal (exact arithmetic). *)
Theorem antialiase_never_adds_energy :
  forall n : nat,
    (1 <= n <= 30)%nat ->
    exists c : FFTCalculator R,
      new_FFTCalculator (2 ^ Z.of_nat n) = Some c /\
      forall (signal freqs : list R) (tables : list (list R)) (sr : R)
             (i : nat),
        length signal = (2 ^ n)%nat ->
        (length freqs <= length tables)%nat -> (i < length freqs)%nat ->
        length (nth i tables []) = (2 ^ n)%nat ->
        exists table : list R,
          nth_error (antialiase signal freqs tables sr c) i = Some table /\
          (sum_squares table <= sum_squares signal)%R.
Proof.
  intros n Hn.
  destruct (real_calculator Hn) as [c [Hc [HN [_ [Hfft Hifft]]]]].
  exists c. split; [exact Hc|].
  intros signal freqs tables sr i Hs Hlen Hi Hbuf.
  eexists. split; [apply antialiase_table; assumption|].
  rewrite HN.
  rewrite (Hfft signal (repeat czero (2 ^ n)) Hs (repeat_length _ _)).
  set (F := dft (omega Forward n) (normalization (2 ^ n)) (map of_real signal)).
  assert (HF : length F = (2 ^ n)%nat)
    by (unfold F; rewrite dft_length, length_map; exact Hs).
  rewrite Hifft by (try assumption; rewrite antialiase_dft_length; exact HF).
  set (table := map _ (seq 0 (2 ^ n))).
  assert (Htable : length table = (2 ^ n)%nat)
    by (unfold table; rewrite length_map, length_seq; reflexivity).
  rewrite <- !energy_of_real.
  rewrite <- (@dft_keeps_energy Forward n (map of_real table))
    by (try lia; rewrite length_map; exact Htable).
  rewrite <- (@dft_keeps_energy Forward n (map of_real signal))
    by (try lia; rewrite length_map; exact Hs).
  unfold table, F. rewrite table_spectrum by (try lia; exact Hs).
  apply antialiase_dft_energy.
Qed.

Lemma antialiase_never_adds_energy_witness :
  exists c : FFTCalculator R,
    new_FFTCalculator (2 ^ Z.of_nat 2) = Some c /\
    forall (signal freqs : list R) (tables : list (list R)) (sr : R)
           (i : nat),
      length signal = (2 ^ 2)%nat ->
      (length freqs <= length tables)%nat -> (i < length freqs)%nat ->
      length (nth i tables []) = (2 ^ 2)%nat ->
      exists table : list R,
        nth_error (antialiase signal freqs tables sr c) i = Some table /\
        (sum_squares table <= sum_squares signal)%R.
Proof. apply (@antialiase_never_adds_energy 2). lia. Defined.

End Energy.

(** The state of a tuned oscillator in exact arithmetic, kept by every
    operation. *)
Module OscillatorInvariant.
Import Oscillator OscillatorFacts OscillatorMore OscillatorRun OscillatorTuning.

(** An oscillator over [tables] at the sample rate [sr]: a table is
    selected, the frequency is in [[0, sr)], the increment is the one
    [updateDelta] computes, and the position is inside the table. *)
Definition tuned (tables : list (Wavetable R)) (sr : R)
    (o : WavetableOscillator R) : Prop :=
  wavetables o = Some tables /\
  0 < currentTableSize o /\
  sampleRateInv o = fdiv fone sr /\
  (0 <= frequency o < sr)%R /\
  delta o = fmul (fmul (frequency o) (of_size (currentTableSize o)))
                 (sampleRateInv o) /\
  in_table o.

Lemma tuned_increment (tables : list (Wavetable R)) (sr : R)
    (o : WavetableOscillator R) :
  (0 < sr)%R -> tuned tables sr o ->
  (0 <= delta o < table_length o)%R.
Proof.
  intros Hsr [_ [Hsize [Hinv [Hf [Hd _]]]]].
  pose proof (of_size_positive Hsize) as HL.
  rewrite Hd. unfold table_length. cbn [fmul Exact.exact].
  apply increment_bounds; try lra.
  - rewrite Hinv. cbn. unfold Rdiv. rewrite Rmult_1_l.
    apply Rlt_le, Rinv_0_lt_compat, Hsr.
  - rewrite Hinv. apply below_sample_rate; lra.
Qed.

Lemma step_tuned (tables : list (Wavetable R)) (sr : R)
    (o : WavetableOscillator R) :
  (0 < sr)%R -> tuned tables sr o -> tuned tables sr (step o).
Proof.
  intros Hsr Ht. pose proof (tuned_increment Hsr Ht) as Hd.
  destruct Ht as [Hw [Hsize [Hinv [Hf [Hdelta Hin]]]]].
  destruct (step_fields o) as [Sd [Ss [Si [Sf [Sw _]]]]].
  unfold tuned. rewrite Sd, Ss, Si, Sf, Sw.
  repeat (split; [assumption|]).
  apply step_in_table; assumption.
Qed.

Lemma retrigger_tuned (tables : list (Wavetable R)) (sr : R)
    (o : WavetableOscillator R) :
  tuned tables sr o ->
  tuned tables sr (retrigger o) /\ currentSamplePosition (retrigger o) = 0%R.
Proof.
  intros [Hw [Hsize [Hinv [Hf [Hdelta Hin]]]]].
  pose proof (of_size_positive Hsize) as HL.
  split; [|reflexivity].
  unfold tuned, retrigger, with_position, in_table. cbn.
  repeat (split; [assumption|]). unfold of_size in HL. cbn in HL. lra.
Qed.

(** [setFrequency] from a state with tables, a non-negative position and a
    frequency in [[0, sr)]: the call returns a tuned oscillator. *)
Lemma setFrequency_tuned (tables : list (Wavetable R)) (sr : R)
    (o : WavetableOscillator R) (f : R) :
  tables <> [] -> (forall t, In t tables -> 0 < size t) -> (0 < sr)%R ->
  wavetables o = Some tables ->
  sampleRateInv o = fdiv fone sr ->
  (0 <= currentSamplePosition o)%R ->
  (currentTableSize o = 0 \/ in_table o) ->
  (0 < currentTableSize o
   \/ fle f (topFreq o) && flt (bottomFreq o) f = false) ->
  (currentTableSize o = 0 -> currentSamplePosition o = 0%R) ->
  (0 <= f < sr)%R ->
  exists o',
    setFrequency o f = Some o' /\ tuned tables sr o' /\
    (fle f (topFreq o) && flt (bottomFreq o) f = false ->
     0 < currentTableSize o ->
     (currentSamplePosition o' <= table_length o' - feps7)%R).
Proof.
  intros Hne Hsizes Hsr Hw Hinv Hp0 Hin Hsel Hzero Hf.
  assert (Hassert : flt (fmul f (sampleRateInv o)) fone = true).
  { rewrite Hinv. apply Rltb_true. apply below_sample_rate; lra. }
  destruct (fle f (topFreq o) && flt (bottomFreq o) f) eqn:Hhit.
  - destruct Hsel as [Hsize|Hmiss]; [|discriminate].
    destruct Hin as [H0|Hin]; [lia|].
    apply andb_true_iff in Hhit. destruct Hhit as [Hhi Hlo].
    exists (retuned o f). rewrite (setFrequency_cached o f Hlo Hhi), Hassert.
    split; [reflexivity|]. split; [|discriminate].
    unfold tuned, retuned, in_table in *. cbn.
    repeat split; first [assumption | reflexivity | apply Hf | apply Hin].
  - destruct (@selectTable_search_cache (with_frequency o f) tables Hw Hne
                Hsizes Hhit)
      as [o' [Hselect [Hw' [Hf' [Hinv' [_ [Hsize' [_ [_ Hpos']]]]]]]]].
    cbn [with_frequency frequency sampleRateInv currentTableSize
         currentSamplePosition] in *.
    assert (Hsize0 : 0 < currentTableSize o').
    { rewrite Hsize'. apply Hsizes, nth_In.
      destruct (selected_index_spec f Hne) as [Hlt _]. exact Hlt. }
    pose proof (of_size_positive Hsize0) as HL'.
    assert (Heps : (feps7 = / 10000000)%R) by reflexivity.
    exists (updateDelta o'). unfold setFrequency.
    cbn [with_frequency sampleRateInv]. rewrite Hassert, Hselect.
    split; [reflexivity|].
    assert (Hclamp : (0 <= currentSamplePosition o' < of_size (currentTableSize o'))%R
                     /\ (0 < currentTableSize o ->
                         (currentSamplePosition o'
                          <= of_size (currentTableSize o') - feps7)%R)).
    { rewrite Hpos'.
      destruct (Nat.eqb_spec (currentTableSize o) 0) as [Hz|Hnz]; cbn [negb].
      - rewrite (Hzero Hz). split; [lra|]. lia.
      - pose proof (@clamp_bounds
                      (fsub (of_size (currentTableSize o')) feps7)
                      (fdiv (fmul (currentSamplePosition o)
                               (of_size (currentTableSize o')))
                            (of_size (currentTableSize o)))) as Hc.
        cbn [fsub Exact.exact] in Hc.
        specialize (Hc ltac:(lra)). cbn [fsub Exact.exact].
        split; [lra|]. intros _. lra. }
    destruct Hclamp as [Hin' Hle'].
    split.
    + unfold tuned, updateDelta, with_delta, in_table. cbn.
      rewrite Hw', Hf', Hinv', Hinv.
      repeat split;
        first [assumption | reflexivity | apply Hf | apply Hin'].
    + intros _ Hsize. unfold table_length, updateDelta, with_delta. cbn.
      apply Hle'. exact Hsize.
Qed.

(** X25.  The position stays inside the table in exact arithmetic.  Over a
    non-empty set of tables of positive sizes, at a positive sample rate:
    the constructor with a frequency in [[0, sampleRate)] returns an
    oscillator with a selected table of length [L > 0], the increment
    [f * L / sampleRate] and the position in [[0, L)]; and from such an
    oscillator every operation leads to such an oscillator again: either
    increment operator, [retrigger] (position 0), and [setFrequency] with a
    frequency in [[0, sampleRate)], which returns, and after a search leaves
    the position at most at [L - 1e-7] of the new table.  So the position
    is in [[0, L)] after every sequence of these operations. *)
Theorem position_invariant :
  forall (tables : list (Wavetable R)) (sr : R),
    tables <> [] -> (forall t, In t tables -> 0 < size t) -> (0 < sr)%R ->
    (forall f0, (0 <= f0 < sr)%R ->
       exists o, new_oscillator tables sr f0 = Some o /\ tuned tables sr o) /\
    (forall o, tuned tables sr o ->
       tuned tables sr (snd (pre_increment o)) /\
       tuned tables sr (snd (post_increment o)) /\
       tuned tables sr (retrigger o) /\
       currentSamplePosition (retrigger o) = 0%R /\
       forall f, (0 <= f < sr)%R ->
         exists o',
           setFrequency o f = Some o' /\ tuned tables sr o' /\
           (fle f (topFreq o) && flt (bottomFreq o) f = false ->
            (currentSamplePosition o' <= table_length o' - feps7)%R)).
Proof.
  intros tables sr Hne Hsizes Hsr. split.
  - intros f0 Hf0.
    set (reset :=
           {| sampleRateInv := fdiv fone sr; frequency := f0; delta := 0%R;
              currentSamplePosition := 0%R; value := 0%R;
              wavetables := Some tables; currentTable := None;
              currentTableSize := 0; topFreq := 0%R; bottomFreq := 0%R |}
           : WavetableOscillator R).
    assert (Hnew : new_oscillator tables sr f0 = setFrequency reset f0)
      by reflexivity.
    assert (Hmiss : fle f0 (topFreq reset) && flt (bottomFreq reset) f0
                    = false).
    { apply andb_false_iff.
      destruct (Rle_dec f0 0) as [Hle|Hgt].
      - right. apply Rltb_false. cbn. lra.
      - left. apply Rleb_false. cbn. lra. }
    destruct (@setFrequency_tuned tables sr reset f0 Hne Hsizes Hsr
                eq_refl eq_refl (Rle_refl 0) (or_introl eq_refl)
                (or_intror Hmiss) (fun _ => eq_refl) Hf0)
      as [o [Hset [Ht _]]].
    exists o. rewrite Hnew. split; assumption.
  - intros o Ht.
    split; [apply step_tuned; assumption|].
    split; [apply step_tuned; assumption|].
    destruct (retrigger_tuned Ht) as [Hr Hr0].
    split; [exact Hr|]. split; [exact Hr0|].
    intros f Hf.
    destruct Ht as [Hw [Hsize [Hinv [Hfreq [Hdelta Hin]]]]].
    assert (Hp0 : (0 <= currentSamplePosition o)%R) by apply Hin.
    assert (Hzero : currentTableSize o = 0 -> currentSamplePosition o = 0%R)
      by (intros Hz; lia).
    destruct (@setFrequency_tuned tables sr o f Hne Hsizes Hsr Hw Hinv Hp0
                (or_intror Hin) (or_introl Hsize) Hzero Hf)
      as [o' [Hset [Ht' Hle]]].
    exists o'. split; [exact Hset|]. split; [exact Ht'|].
    intros Hmiss. apply Hle; assumption.
Qed.

Lemma position_invariant_witness :
  (forall f0, (0 <= f0 < 44100)%R ->
     exists o, new_oscillator tables_500_2000 44100%R f0 = Some o
               /\ tuned tables_500_2000 44100%R o) /\
  (forall o, tuned tables_500_2000 44100%R o ->
     tuned tables_500_2000 44100%R (snd (pre_increment o)) /\
     tuned tables_500_2000 44100%R (snd (post_increment o)) /\
     tuned tables_500_2000 44100%R (retrigger o) /\
     currentSamplePosition (retrigger o) = 0%R /\
     forall f, (0 <= f < 44100)%R ->
       exists o',
         setFrequency o f = Some o' /\ tuned tables_500_2000 44100%R o' /\
         (fle f (topFreq o) && flt (bottomFreq o) f = false ->
          (currentSamplePosition o' <= table_length o' - feps7)%R)).
Proof.
  apply (@position_invariant tables_500_2000 44100%R).
  - discriminate.
  - intros t [<-|[<-|[]]]; cbn; lia.
  - lra.
Defined.

End OscillatorInvariant.
